(** * College Invaders: enemy grid, projectile pools and collision resolution

    A shallow embedding of the game (Enemy.js, EnemyGridController.js,
    Bullet.js, BulletControl.js, Lives.js, Scoreboard.js, Player.js, Menu.js
    and the frame and collision loop of script.js) together with the
    properties its specification states.

    Conventions of the embedding:
    - a JavaScript number that holds a coordinate or a speed is a rational
      ([Q]); counters (cooldown, score, health) are [Z]. The enemies'
      horizontal step 0.3 is no binary fraction, so [Enemy.move] adds it as
      the double addition does, with its rounding ([Js.add], [Js.sub]); the
      other sums of the model are written exactly;
    - a grid cell is [option Enemy.t]: [None] is the tombstone [false];
    - an array is a [list]; reading outside it gives [None] ([undefined]);
    - code that can raise returns a [completion];
    - canvas rendering has no effect on the state and is left out. *)

From Stdlib Require Import QArith Qround Qabs Qpower ZArith Lia Lqa Bool.
From stdpp Require Import base list strings gmap.

#[local] Open Scope Q_scope.

(* ===================================================================== *)
(** * JavaScript helpers *)
(* ===================================================================== *)

Module Js.

(** [a <= b] and [a < b] on numbers; [a >= b] is [leb b a], [a > b] is
    [ltb b a]. *)
Definition leb (a b : Q) : bool := Qle_bool a b.
Definition ltb (a b : Q) : bool := negb (Qle_bool b a).

(** A number is an IEEE 754 double. [round64 q] is the double nearest to the
    rational [q], ties going to the even significand: [q] is cut to 53
    significant bits, or, below the smallest normal double, to a multiple
    of 2^-1074. (A result of 2^1024 or more would be [Infinity]; the game
    stays far below.) A literal such as [0.3] stands for [round64 (3 # 10)],
    and [a + b] on doubles is [add a b]. *)
Definition pow2 (e : Z) : Q := 2 ^ e.

(** The [e] with 2^e <= q < 2^(e+1), for a positive [q]. *)
Definition binade (q : Q) : Z :=
  let d := (Z.log2 (Qnum q) - Z.log2 (Zpos (Qden q)))%Z in
  if Qle_bool (pow2 d) q then d else (d - 1)%Z.

Definition nearest_even (t : Q) : Z :=
  let n := Qfloor t in
  match Qcompare (t - inject_Z n) (1 # 2) with
  | Lt => n
  | Gt => (n + 1)%Z
  | Eq => if Z.even n then n else (n + 1)%Z
  end.

Definition round64 (q : Q) : Q :=
  if Qeq_bool q 0 then 0
  else
    let e := (Z.max (binade (Qabs q)) (-1022) - 52)%Z in
    Qred (inject_Z (nearest_even (q / pow2 e)) * pow2 e).

Definition add (a b : Q) : Q := round64 (a + b).
Definition sub (a b : Q) : Q := round64 (a - b).

(** Abrupt and normal completion. The only exception the core can raise is
    a [TypeError] (property read on [undefined]). *)
Inductive error := TypeError.

Inductive completion (A : Type) :=
| Normal (a : A)
| Throw (e : error).
Arguments Normal {A} a.
Arguments Throw {A} e.

Definition bind {A B} (c : completion A) (k : A -> completion B) : completion B :=
  match c with
  | Normal a => k a
  | Throw e => Throw e
  end.

Definition terminates {A} (c : completion A) : Prop :=
  match c with Normal _ => True | Throw _ => False end.

(** [arr[i]] for an integer index that may be negative. *)
Definition index {A} (arr : list A) (i : Z) : option A :=
  if (i <? 0)%Z then None else arr !! Z.to_nat i.

(** [arr.splice(i, 1)] for [i >= 0]: nothing happens at or past the end. *)
Definition splice1 {A} (i : nat) (arr : list A) : list A := delete i arr.

(** [arr.splice(-1, 1)]: the last element goes. *)
Definition splice_last {A} (arr : list A) : list A := removelast arr.

(** [arr.pop()]. *)
Definition pop {A} (arr : list A) : list A := removelast arr.

(** [Array.prototype.forEach] over an array that lives in the state [S] and
    that the callback may change: the length is read once, then for each
    [k] below it the callback runs on [arr[k]] if index [k] is still
    present. *)
Fixpoint forEach_from {S A} (get : S -> list A) (cb : A -> nat -> S -> S)
    (n k : nat) (s : S) : S :=
  match n with
  | O => s
  | Datatypes.S n' =>
      let s' := match get s !! k with
                | Some a => cb a k s
                | None => s
                end in
      forEach_from get cb n' (Datatypes.S k) s'
  end.

Definition forEach {S A} (get : S -> list A) (cb : A -> nat -> S -> S) (s : S) : S :=
  forEach_from get cb (length (get s)) 0%nat s.

End Js.

#[export] Instance completion_bind : MBind Js.completion :=
  fun A B k c => Js.bind c k.
#[export] Instance completion_ret : MRet Js.completion := @Js.Normal.

(* ===================================================================== *)
(** * ui/uiConstants.js and enemy/enemyConstants.js *)
(* ===================================================================== *)

Module CANVAS.
Definition WIDTH : Q := 640.
Definition HEIGHT : Q := 480.
End CANVAS.

Module PADDING.
Definition SIDE : Q := 60.
Definition TOP : Q := 40.
Definition BOTTOM : Q := 80.
End PADDING.

(** The [CANVAS] constants object as the property bag that is handed to
    [new BulletControl(CANVAS)]: its keys are upper case. *)
Definition CANVAS_object : gmap string Q :=
  <["WIDTH" := CANVAS.WIDTH]> (<["HEIGHT" := CANVAS.HEIGHT]> ∅).

(** An HTML canvas element, whose size properties are lower case. *)
Definition canvas_element (w h : Q) : gmap string Q :=
  <["width" := w]> (<["height" := h]> ∅).

Module GRID_SIZE.
Definition ROWS : nat := 5.
Definition COLUMNS : nat := 11.
End GRID_SIZE.

Module GRID_SPACING.
(** [Math.floor(200 / 5)] and [Math.floor(520 / 11 - 7)]. *)
Definition VERTICAL : Q := 40.
Definition HORIZONTAL : Q := 40.
End GRID_SPACING.

(** Objects that answer the four edge queries; [collisionDetected] only
    uses these. *)
Class Edges (A : Type) := {
  getTopEdge : A -> Q;
  getBottomEdge : A -> Q;
  getRightEdge : A -> Q;
  getLeftEdge : A -> Q
}.

(* ===================================================================== *)
(** * Enemy.js *)
(* ===================================================================== *)

Module Enemy.

Record t := mk {
  canvasWidth : Q;
  canvasHeight : Q;
  width : Q;
  height : Q;
  xPosition : Q;
  yPosition : Q;
  isGoingRight : bool;
  horizontalMoveSpeed : Q;
  verticalMoveSpeed : Q;
  spriteImageCount : Z;
  frameIndex : Z;
  frameCount : Z;
  maxFrameCount : Z
}.

Definition new (cw ch xOffset yOffset : Q) : t :=
  {| canvasWidth := cw; canvasHeight := ch;
     width := 30; height := 40;
     xPosition := xOffset; yPosition := yOffset;
     isGoingRight := true;
     horizontalMoveSpeed := Js.round64 (3 # 10); verticalMoveSpeed := 20;
     spriteImageCount := 3; frameIndex := 0; frameCount := 0;
     maxFrameCount := 20 |}.

Definition set_x (x : Q) (e : t) : t :=
  mk (canvasWidth e) (canvasHeight e) (width e) (height e) x (yPosition e)
     (isGoingRight e) (horizontalMoveSpeed e) (verticalMoveSpeed e)
     (spriteImageCount e) (frameIndex e) (frameCount e) (maxFrameCount e).

Definition set_y (y : Q) (e : t) : t :=
  mk (canvasWidth e) (canvasHeight e) (width e) (height e) (xPosition e) y
     (isGoingRight e) (horizontalMoveSpeed e) (verticalMoveSpeed e)
     (spriteImageCount e) (frameIndex e) (frameCount e) (maxFrameCount e).

Definition set_dir (d : bool) (e : t) : t :=
  mk (canvasWidth e) (canvasHeight e) (width e) (height e) (xPosition e)
     (yPosition e) d (horizontalMoveSpeed e) (verticalMoveSpeed e)
     (spriteImageCount e) (frameIndex e) (frameCount e) (maxFrameCount e).

Definition set_frame (fi fc : Z) (e : t) : t :=
  mk (canvasWidth e) (canvasHeight e) (width e) (height e) (xPosition e)
     (yPosition e) (isGoingRight e) (horizontalMoveSpeed e)
     (verticalMoveSpeed e) (spriteImageCount e) fi fc (maxFrameCount e).

Definition move (e : t) : t :=
  if isGoingRight e
  then set_x (Js.add (xPosition e) (horizontalMoveSpeed e)) e
  else set_x (Js.sub (xPosition e) (horizontalMoveSpeed e)) e.

(** The animation timer of [draw]. *)
Definition animate (e : t) : t :=
  let fc := (frameCount e + 1)%Z in
  let '(fi, fc) := if (maxFrameCount e <? fc)%Z
                   then ((frameIndex e + 1)%Z, 0%Z)
                   else (frameIndex e, fc) in
  let fi := if (spriteImageCount e - 1 <? fi)%Z then 0%Z else fi in
  set_frame fi fc e.

Definition draw (e : t) : t := move (animate e).

Definition moveDown (e : t) : t :=
  if Js.ltb 0 (verticalMoveSpeed e)
  then set_y (yPosition e + verticalMoveSpeed e) e
  else e.

Definition setDirectionRight (e : t) : t := set_dir true e.
Definition setDirectionLeft (e : t) : t := set_dir false e.

Definition getMiddlePosition (e : t) : Q := xPosition e + width e / 2.

End Enemy.

#[export] Instance Enemy_Edges : Edges Enemy.t := {|
  getTopEdge e := Enemy.yPosition e;
  getBottomEdge e := Enemy.yPosition e + Enemy.height e;
  getRightEdge e := Enemy.xPosition e + Enemy.width e;
  getLeftEdge e := Enemy.xPosition e
|}.

(* ===================================================================== *)
(** * Bullet.js *)
(* ===================================================================== *)

Module Bullet.

(** [oid] stands for the identity of the JavaScript object: [indexOf]
    compares references, and two bullets with equal fields are still two
    objects. *)
Record t := mk {
  oid : nat;
  x : Q;
  y : Q;
  speed : Q;
  width : Q;
  height : Q;
  shooter : string;
  spriteImageCount : Z;
  frameIndex : Z;
  frameCount : Z;
  maxFrameCount : Z
}.

(** Both branches of the constructor read an image count of 4 from
    [getSpriteDimensions]. *)
Definition new (id : nat) (x0 y0 speed0 : Q) (shooter0 : string) : t :=
  {| oid := id; x := x0; y := y0; speed := speed0;
     width := 20; height := 25; shooter := shooter0;
     spriteImageCount := 4; frameIndex := 0; frameCount := 0;
     maxFrameCount := 20 |}.

Definition draw (b : t) : t :=
  let fc := (frameCount b + 1)%Z in
  let '(fi, fc) := if (maxFrameCount b <? fc)%Z
                   then ((frameIndex b + 1)%Z, 0%Z)
                   else (frameIndex b, fc) in
  let fi := if (spriteImageCount b - 1 <? fi)%Z then 0%Z else fi in
  mk (oid b) (x b) (y b - speed b) (speed b) (width b) (height b)
     (shooter b) (spriteImageCount b) fi fc (maxFrameCount b).

End Bullet.

#[export] Instance Bullet_Edges : Edges Bullet.t := {|
  getTopEdge b := Bullet.y b;
  getBottomEdge b := Bullet.y b + Bullet.height b;
  getRightEdge b := Bullet.x b + Bullet.width b;
  getLeftEdge b := Bullet.x b
|}.

(* ===================================================================== *)
(** * BulletControl.js *)
(* ===================================================================== *)

Module BulletControl.

(** [fresh] is the identity the next [new Bullet] receives; [shooter] is
    [None] until the first call of [shoot] defines the property. *)
Record t := mk {
  canvas : gmap string Q;
  bullets : list Bullet.t;
  waitTime : Z;
  shooter : option string;
  fresh : nat
}.

Definition new (canvas0 : gmap string Q) : t :=
  {| canvas := canvas0; bullets := []; waitTime := 0; shooter := None;
     fresh := 0%nat |}.

Definition set_bullets (bs : list Bullet.t) (bc : t) : t :=
  mk (canvas bc) bs (waitTime bc) (shooter bc) (fresh bc).

Definition set_waitTime (w : Z) (bc : t) : t :=
  mk (canvas bc) (bullets bc) w (shooter bc) (fresh bc).

Definition set_shooter (sh : option string) (bc : t) : t :=
  mk (canvas bc) (bullets bc) (waitTime bc) sh (fresh bc).

(** [this.bullets.push(new Bullet(x, y, speed, shooter))]. *)
Definition push_new (x y speed : Q) (sh : string) (bc : t) : t :=
  mk (canvas bc) (bullets bc ++ [Bullet.new (fresh bc) x y speed sh])
     (waitTime bc) (shooter bc) (S (fresh bc)).

Definition shoot (x y speed : Q) (delay : Z) (sh : string) (bc : t) : t :=
  let bc := set_shooter (Some sh) bc in
  let bc := if (waitTime bc <=? 0)%Z
            then set_waitTime delay (push_new x y speed sh bc)
            else bc in
  if negb (String.eqb sh "player")
  then set_waitTime (waitTime bc - 1) bc
  else bc.

(** [Bullet.y <= -this.canvas.height]. When the canvas object has no
    [height] property the right-hand side is [-undefined], that is [NaN],
    and every comparison with [NaN] is false. *)
Definition isOffScreen (bc : t) (b : Bullet.t) : bool :=
  match canvas bc !! "height" with
  | Some h => Js.leb (Bullet.y b) (- h)
  | None => false
  end.

(** [arr.indexOf(b)]: the first position holding the same object;
    [None] is JavaScript's [-1]. *)
Fixpoint indexOf (bs : list Bullet.t) (b : Bullet.t) : option nat :=
  match bs with
  | [] => None
  | b' :: bs' =>
      if Nat.eqb (Bullet.oid b') (Bullet.oid b) then Some 0%nat
      else S <$> indexOf bs' b
  end.

(** A method that mutates the object [b] is seen through every reference
    to it that the array still holds. *)
Definition mutate (f : Bullet.t -> Bullet.t) (b : Bullet.t)
    (bs : list Bullet.t) : list Bullet.t :=
  map (fun b' => if Nat.eqb (Bullet.oid b') (Bullet.oid b) then f b' else b') bs.

(** The callback of the [forEach] in [draw]. The result of [indexOf] goes
    to [splice] unchecked, so [-1] would remove the last element. *)
Definition draw_callback (b : Bullet.t) (k : nat) (bc : t) : t :=
  let bc :=
    if isOffScreen bc b then
      match indexOf (bullets bc) b with
      | Some i => set_bullets (Js.splice1 i (bullets bc)) bc
      | None => set_bullets (Js.splice_last (bullets bc)) bc
      end
    else bc in
  set_bullets (mutate Bullet.draw b (bullets bc)) bc.

Definition draw (bc : t) : t :=
  let bc := match shooter bc with
            | Some sh => if String.eqb sh "player"
                         then set_waitTime (waitTime bc - 1) bc else bc
            | None => bc
            end in
  Js.forEach bullets draw_callback bc.

Definition getBulletInfo (bc : t) : list Bullet.t := bullets bc.

Definition destroyBullet (b : Bullet.t) (bc : t) : t :=
  match indexOf (bullets bc) b with
  | Some i => set_bullets (Js.splice1 i (bullets bc)) bc
  | None => bc
  end.

Definition clearBullets (bc : t) : t := set_bullets [] bc.

End BulletControl.

(* ===================================================================== *)
(** * Lives.js and Scoreboard.js *)
(* ===================================================================== *)

Module Lives.

(** The three module-level variables of Lives.js. *)
Record t := mk {
  maxHP : Z;
  hp : Z;
  tempHPBlock : bool
}.

Definition initial : t := {| maxHP := 3; hp := 3; tempHPBlock := false |}.

Definition healthModifier (i : Z) (l : t) : t :=
  let hp' := (hp l + i)%Z in
  let maxHP' := if tempHPBlock l then maxHP l else (maxHP l + i)%Z in
  let maxHP' := if (3 <? maxHP')%Z then 3%Z else maxHP' in
  {| maxHP := maxHP'; hp := hp'; tempHPBlock := tempHPBlock l |}.

(** The effect of [drawLives] on the state is that of its inner [tempHP].
    [Scoreboard.score] reads a property of the class object, which nothing
    defines, so [s >= 10000] compares [undefined] and is false. *)
Definition drawLives (l : t) : t :=
  {| maxHP := maxHP l; hp := hp l; tempHPBlock := (3 <? hp l)%Z |}.

Definition getCurrenthp (l : t) : Z := hp l.

Definition resetHp (l : t) : t :=
  {| maxHP := 3; hp := 3; tempHPBlock := tempHPBlock l |}.

End Lives.

Module Scoreboard.

Record t := mk {
  score : Z;
  scoreStorage : Z;
  highscore : Z
}.

Definition new (trueHighscore : Z) : t :=
  {| score := 0; scoreStorage := 0; highscore := trueHighscore |}.

Definition addToScore (num : Z) (sb : t) : t :=
  {| score := score sb + num; scoreStorage := scoreStorage sb + num;
     highscore := highscore sb |}.

Definition addExtra (st : t * Lives.t) : t * Lives.t :=
  let '(sb, health) := st in
  if (scoreStorage sb =? 10000)%Z
  then ({| score := score sb; scoreStorage := scoreStorage sb - 10000;
           highscore := highscore sb |},
        Lives.healthModifier 1 health)
  else (sb, health).

Definition trackhighscore (sc : Z) (sb : t) : t :=
  if (highscore sb <? sc)%Z
  then {| score := score sb; scoreStorage := scoreStorage sb; highscore := sc |}
  else sb.

Definition resetScore (sb : t) : t :=
  {| score := 0; scoreStorage := 0; highscore := highscore sb |}.

Definition drawScoreboard (st : t * Lives.t) : t * Lives.t :=
  let '(sb, health) := st in
  addExtra (trackhighscore (score sb) sb, health).

End Scoreboard.

(* ===================================================================== *)
(** * Player.js *)
(* ===================================================================== *)

Module Player.

Import Stdlib.Strings.Ascii.

Record t := mk {
  width : Q;
  height : Q;
  xPosition : Q;
  yPosition : Q;
  movementSpeed : Q;
  rightPressed : bool;
  leftPressed : bool;
  shooting : bool
}.

Definition new : t :=
  {| width := 30; height := 50;
     xPosition := (CANVAS.WIDTH - 30) / 2;
     yPosition := (CANVAS.HEIGHT - 50) / (11 # 10);
     movementSpeed := 5;
     rightPressed := false; leftPressed := false; shooting := false |}.

Definition set_x (x : Q) (p : t) : t :=
  mk (width p) (height p) x (yPosition p) (movementSpeed p)
     (rightPressed p) (leftPressed p) (shooting p).

Definition set_rightPressed (v : bool) (p : t) : t :=
  mk (width p) (height p) (xPosition p) (yPosition p) (movementSpeed p)
     v (leftPressed p) (shooting p).

Definition set_leftPressed (v : bool) (p : t) : t :=
  mk (width p) (height p) (xPosition p) (yPosition p) (movementSpeed p)
     (rightPressed p) v (shooting p).

Definition set_shooting (v : bool) (p : t) : t :=
  mk (width p) (height p) (xPosition p) (yPosition p) (movementSpeed p)
     (rightPressed p) (leftPressed p) v.

(** [event.key.match(/v/i)]: the name of the key holds a [v] or a [V]. *)
Fixpoint matches_v (key : string) : bool :=
  match key with
  | EmptyString => false
  | String c rest =>
      Ascii.eqb c "v"%char || Ascii.eqb c "V"%char || matches_v rest
  end.

(** The handler also reaches the [Lives] object the player was built
    with: the keys [p] and [o] add and take a point of health. *)
Definition keyDownHandler (key : string) (st : t * Lives.t) : t * Lives.t :=
  let '(p, lives) := st in
  let p := if String.eqb key "ArrowRight" || String.eqb key "Right"
           then set_rightPressed true p
           else if String.eqb key "ArrowLeft" || String.eqb key "Left"
           then set_leftPressed true p
           else p in
  let p := if matches_v key then set_shooting true p else p in
  let lives := if String.eqb key "p"
               then Lives.healthModifier 1 lives else lives in
  let lives := if String.eqb key "o"
               then Lives.healthModifier (-1) lives else lives in
  (p, lives).

Definition keyUpHandler (key : string) (p : t) : t :=
  if String.eqb key "ArrowRight" || String.eqb key "Right"
  then set_rightPressed false p
  else if String.eqb key "ArrowLeft" || String.eqb key "Left"
  then set_leftPressed false p
  else if matches_v key then set_shooting false p
  else p.

Definition movePlayer (p : t) : t :=
  if rightPressed p
     && Js.ltb (xPosition p) (CANVAS.WIDTH - (PADDING.SIDE + width p))
  then set_x (xPosition p + movementSpeed p) p
  else if leftPressed p && Js.ltb PADDING.SIDE (xPosition p)
  then set_x (xPosition p - movementSpeed p) p
  else p.

(** [shoot] only changes the player's projectile controller. *)
Definition shoot (p : t) (bc : BulletControl.t) : BulletControl.t :=
  let bc :=
    if shooting p then
      BulletControl.shoot (xPosition p + width p / 2)
                          (yPosition p - height p) 5 39 "player" bc
    else bc in
  BulletControl.draw bc.

Definition drawPlayer (p : t) (bc : BulletControl.t) : t * BulletControl.t :=
  let p := movePlayer p in
  (p, shoot p bc).

End Player.

#[export] Instance Player_Edges : Edges Player.t := {|
  getTopEdge p := Player.yPosition p;
  getBottomEdge p := Player.yPosition p + Player.height p;
  getRightEdge p := Player.xPosition p + Player.width p;
  getLeftEdge p := Player.xPosition p
|}.

(* ===================================================================== *)
(** * enemy/EnemyGridController.js *)
(* ===================================================================== *)

Module EnemyGridController.

Import Js.

(** [this.enemyGrid]: rows of cells, row 0 on top; a cell is an [Enemy] or
    the tombstone [false]. *)
Abbreviation grid := (list (list (option Enemy.t))).

(** [row[i]] when it holds an enemy: a tombstone and a missing index are
    both falsy. *)
Definition cell_at (row : list (option Enemy.t)) (i : Z) : option Enemy.t :=
  mjoin (Js.index row i).

Definition alive (c : option Enemy.t) : bool :=
  match c with Some _ => true | None => false end.

Definition createEnemies : grid :=
  map (fun i : nat =>
         map (fun j : nat =>
                Some (Enemy.new CANVAS.WIDTH CANVAS.HEIGHT
                        (PADDING.SIDE + GRID_SPACING.HORIZONTAL * inject_Z (Z.of_nat j))
                        (GRID_SPACING.VERTICAL * inject_Z (Z.of_nat i))))
             (seq 1 GRID_SIZE.COLUMNS))
      (seq 1 GRID_SIZE.ROWS).

Definition anyEnemiesAlive (g : grid) : nat := length g.

(* --------------------------- grid retrievals -------------------------- *)

Definition findLeftMostEnemies (g : grid) : list Enemy.t :=
  omap (fun row => cell_at row 0) g.

Definition findRightMostEnemies (g : grid) : list Enemy.t :=
  omap (fun row => cell_at row (Z.of_nat (length row) - 1)) g.

(** The inner loop of [findBottomMostEnemies]: rows [n - 1] down to [0]. *)
Fixpoint search_upwards (g : grid) (col : nat) (n : nat) : option Enemy.t :=
  match n with
  | O => None
  | S row =>
      match g !! row with
      | Some r =>
          match cell_at r (Z.of_nat col) with
          | Some nextEnemy => Some nextEnemy
          | None => search_upwards g col row
          end
      | None => search_upwards g col row
      end
  end.

Definition findBottomMostEnemies (g : grid) : completion (list Enemy.t) :=
  let bottomRowIndex := (Z.of_nat (length g) - 1)%Z in
  match Js.index g bottomRowIndex with
  | None => Throw TypeError
  | Some bottomRow =>
      Normal (omap (fun col : nat =>
                      match cell_at bottomRow (Z.of_nat col) with
                      | Some enemy => Some enemy
                      | None => search_upwards g col (Z.to_nat bottomRowIndex)
                      end)
                   (seq 0 (length bottomRow)))
  end.

(* ---------------------------- grid modifiers -------------------------- *)

(** Reading [this.enemyGrid[bottomRowIndex].length] raises when the grid
    has no row: the index is [-1] and the row is [undefined]. *)
Definition clearEnemyGridRows (g : grid) : completion (bool * grid) :=
  let bottomRowIndex := (Z.of_nat (length g) - 1)%Z in
  match Js.index g bottomRowIndex with
  | None => Throw TypeError
  | Some bottomRow =>
      if existsb alive bottomRow
      then Normal (false, g)
      else Normal (true, Js.pop g)
  end.

(** Entries of the tracker array [emptyColumnIndexes]: a count, [NaN]
    (an incremented [undefined]) or a hole left by a write past the end. *)
Inductive tracker_entry :=
| Num (n : nat)
| NaN
| Undefined.

Definition truthy (c : tracker_entry) : bool :=
  match c with
  | Num (S _) => true
  | _ => false
  end.

Definition increment (c : tracker_entry) : tracker_entry :=
  match c with
  | Num n => Num (S n)
  | NaN | Undefined => NaN
  end.

(** [emptyColumnIndexes[col]++]; past the end the array grows. *)
Definition increment_at (col : nat) (tr : list tracker_entry) : list tracker_entry :=
  if decide (col < length tr)%nat
  then alter increment col tr
  else tr ++ replicate (col - length tr) Undefined ++ [NaN].

Fixpoint count_row (col : nat) (row : list (option Enemy.t))
    (tr : list tracker_entry) : list tracker_entry :=
  match row with
  | [] => tr
  | isEnemyAlive :: row' =>
      count_row (S col) row'
        (if alive isEnemyAlive then increment_at col tr else tr)
  end.

Definition count_columns (g : grid) : list tracker_entry :=
  foldl (fun tr row => count_row 0 row tr)
        (replicate GRID_SIZE.COLUMNS (Num 0)) g.

(** [enemyRow.splice(colIdx, 1)] in every row. *)
Definition remove_column (colIdx : nat) (g : grid) : grid :=
  map (Js.splice1 colIdx) g.

(** The second loop, over the tracker from [colIdx] on. The tracker is not
    recomputed: after a removal the later indices still name the columns
    of the grid as it was before the pass. *)
Fixpoint clear_columns_from (tr : list tracker_entry) (colIdx : nat)
    (st : bool * grid) : bool * grid :=
  match tr with
  | [] => st
  | isNotEmpty :: tr' =>
      clear_columns_from tr' (S colIdx)
        (if truthy isNotEmpty then st
         else (true, remove_column colIdx (snd st)))
  end.

Definition clearEnemyGridColumns (g : grid) : bool * grid :=
  clear_columns_from (count_columns g) 0 (false, g).

(* ------------------------------ movement ------------------------------ *)

(** What [changeEnemyDirection] does to one enemy. *)
Definition turn (toGoRight : bool) (enemy : Enemy.t) : Enemy.t :=
  Enemy.moveDown
    (if toGoRight then Enemy.setDirectionRight enemy
     else Enemy.setDirectionLeft enemy).

Definition changeEnemyDirection (toGoRight : bool) (g : grid) : grid :=
  map (map (fmap (turn toGoRight))) g.

(** The two conditions of [move], each on element [0] of its list. *)
Definition leftBoundHit (leftMostEnemies : list Enemy.t) : bool :=
  match leftMostEnemies !! 0%nat with
  | Some e => Js.leb (getLeftEdge e) PADDING.SIDE
  | None => false
  end.

Definition rightBoundHit (rightMostEnemies : list Enemy.t) : bool :=
  match rightMostEnemies !! 0%nat with
  | Some e => Js.leb (CANVAS.WIDTH - PADDING.SIDE) (getRightEdge e)
  | None => false
  end.

(** The enemies in [rightMostEnemies] are the objects of the grid, so by
    the time the second condition reads them a change of direction made by
    the first one has reached them as well. *)
Definition rightMost_seen_by_second_check (g : grid) : list Enemy.t :=
  if leftBoundHit (findLeftMostEnemies g)
  then map (turn true) (findRightMostEnemies g)
  else findRightMostEnemies g.

Definition move (g : grid) : grid :=
  let leftMostEnemies := findLeftMostEnemies g in
  let rightMostEnemies := rightMost_seen_by_second_check g in
  let g := if leftBoundHit leftMostEnemies
           then changeEnemyDirection true g else g in
  if rightBoundHit rightMostEnemies
  then changeEnemyDirection false g else g.

(* ------------------------------ shooting ------------------------------ *)

(** [random k] is [Math.floor(Math.random() * 500)] as drawn for the
    [k]-th firing enemy of the tick. *)
Fixpoint fire_all (random : nat -> Z) (k : nat) (enemies : list Enemy.t)
    (pc : BulletControl.t) : BulletControl.t :=
  match enemies with
  | [] => pc
  | enemy :: rest =>
      fire_all random (S k) rest
        (BulletControl.shoot (Enemy.getMiddlePosition enemy)
           (getBottomEdge enemy) (-3) (random k) "enemy_1" pc)
  end.

Definition shoot (random : nat -> Z) (g : grid) (pc : BulletControl.t)
    : completion BulletControl.t :=
  bottomMostEnemies ← findBottomMostEnemies g;
  Normal (BulletControl.draw (fire_all random 0 bottomMostEnemies pc)).

(* -------------------------------- tick -------------------------------- *)

Definition draw_enemies (g : grid) : grid := map (map (fmap Enemy.draw)) g.

Definition draw (random : nat -> Z) (g : grid) (pc : BulletControl.t)
    : completion (grid * BulletControl.t) :=
  let g := draw_enemies g in
  r ← clearEnemyGridRows g;
  let g := snd (clearEnemyGridColumns (snd r)) in
  if Nat.eqb (anyEnemiesAlive g) 0
  then Normal (g, pc)
  else
    let g := move g in
    pc ← shoot random g pc;
    Normal (g, pc).

Definition checkIfEnemyMovesPastPlayer (g : grid) : completion bool :=
  if Nat.eqb (anyEnemiesAlive g) 0 then Normal false
  else
    let playerSpace := CANVAS.HEIGHT - PADDING.BOTTOM in
    match Js.index g (Z.of_nat (length g) - 1) with
    | None => Throw TypeError
    | Some bottomRow =>
        Normal (existsb (fun c => match c with
                                  | Some enemy => Js.ltb playerSpace (getBottomEdge enemy)
                                  | None => false
                                  end) bottomRow)
    end.

End EnemyGridController.

(* ===================================================================== *)
(** * script.js: the frame and the collision loop *)
(* ===================================================================== *)

Module Game.

Import Js.

Inductive GAME_STATE := MENU | RUNNING | GAME_OVER.

(** The module-level objects of script.js. *)
Record t := mk {
  gameState : GAME_STATE;
  Bulletcon : BulletControl.t;
  enemyProjectileController : BulletControl.t;
  health : Lives.t;
  player : Player.t;
  scoreboard : Scoreboard.t;
  enemyGrid : EnemyGridController.grid
}.

Definition initial : t :=
  {| gameState := MENU;
     Bulletcon := BulletControl.new CANVAS_object;
     enemyProjectileController := BulletControl.new CANVAS_object;
     health := Lives.initial;
     player := Player.new;
     scoreboard := Scoreboard.new 0;
     enemyGrid := EnemyGridController.createEnemies |}.

Definition set_gameState (st : GAME_STATE) (w : t) : t :=
  mk st (Bulletcon w) (enemyProjectileController w) (health w) (player w)
     (scoreboard w) (enemyGrid w).

Definition set_Bulletcon (bc : BulletControl.t) (w : t) : t :=
  mk (gameState w) bc (enemyProjectileController w) (health w) (player w)
     (scoreboard w) (enemyGrid w).

Definition set_enemyProjectileController (pc : BulletControl.t) (w : t) : t :=
  mk (gameState w) (Bulletcon w) pc (health w) (player w) (scoreboard w)
     (enemyGrid w).

Definition set_health (h : Lives.t) (w : t) : t :=
  mk (gameState w) (Bulletcon w) (enemyProjectileController w) h (player w)
     (scoreboard w) (enemyGrid w).

Definition set_player (p : Player.t) (w : t) : t :=
  mk (gameState w) (Bulletcon w) (enemyProjectileController w) (health w) p
     (scoreboard w) (enemyGrid w).

Definition set_scoreboard (sb : Scoreboard.t) (w : t) : t :=
  mk (gameState w) (Bulletcon w) (enemyProjectileController w) (health w)
     (player w) sb (enemyGrid w).

Definition set_enemyGrid (g : EnemyGridController.grid) (w : t) : t :=
  mk (gameState w) (Bulletcon w) (enemyProjectileController w) (health w)
     (player w) (scoreboard w) g.

Definition collisionDetected {A B} `{Edges A} `{Edges B}
    (sprite : A) (projectile : B) : bool :=
  let spriteTop := getTopEdge sprite in
  let spriteBottom := getBottomEdge sprite in
  let spriteRight := getRightEdge sprite in
  let spriteLeft := getLeftEdge sprite in
  let projectileTop := getTopEdge projectile in
  let projectileBottom := getBottomEdge projectile in
  let projectileRight := getRightEdge projectile in
  let projectileLeft := getLeftEdge projectile in
  if Js.leb projectileBottom spriteTop
     || Js.leb spriteBottom projectileTop
     || Js.leb spriteRight projectileLeft
     || Js.leb projectileRight spriteLeft
  then false
  else true.

(** [enemyGrid[rowIndex][index] = false]. *)
Definition tombstone (rowIndex index : nat) (g : EnemyGridController.grid)
    : EnemyGridController.grid :=
  alter (fun row => <[index := None]> row) rowIndex g.

(** The body of the inner callback of [enemyCollisionHandler]. *)
Definition enemy_cell_callback (projectile : Bullet.t) (rowIndex : nat)
    (enemy : option Enemy.t) (index : nat) (w : t) : t :=
  match enemy with
  | Some e =>
      if collisionDetected e projectile then
        let w := set_Bulletcon (BulletControl.destroyBullet projectile (Bulletcon w)) w in
        let w := set_enemyGrid (tombstone rowIndex index (enemyGrid w)) w in
        set_scoreboard (Scoreboard.addToScore 250 (scoreboard w)) w
      else w
  | None => w
  end.

(** The row array a callback received stays the array stored at
    [enemyGrid[rowIndex]]. *)
Definition row_of (rowIndex : nat) (w : t) : list (option Enemy.t) :=
  default [] (enemyGrid w !! rowIndex).

Definition enemyCollisionHandler (projectile : Bullet.t) (w : t) : t :=
  Js.forEach enemyGrid
    (fun _ rowIndex w =>
       Js.forEach (row_of rowIndex) (enemy_cell_callback projectile rowIndex) w)
    w.

Definition playerCollisionHandler (projectile : Bullet.t) (w : t) : t :=
  if collisionDetected (player w) projectile then
    let w := set_enemyProjectileController
               (BulletControl.destroyBullet projectile (enemyProjectileController w)) w in
    set_health (Lives.healthModifier (-1) (health w)) w
  else w.

(** [searchForCollisions] iterates over the controller's own array while
    the handler may remove from it. *)
Definition searchForCollisions (controller : t -> BulletControl.t)
    (collisionHandler : Bullet.t -> t -> t) (w : t) : t :=
  Js.forEach (fun w => BulletControl.getBulletInfo (controller w))
    (fun projectile _ w => collisionHandler projectile w) w.

Definition checkForCollisions (w : t) : t :=
  let w := searchForCollisions enemyProjectileController playerCollisionHandler w in
  searchForCollisions Bulletcon enemyCollisionHandler w.

Definition checkHealth (w : t) : t :=
  if (Lives.getCurrenthp (health w) =? 0)%Z then set_gameState GAME_OVER w else w.

Definition createNewEnemyWave (w : t) : t :=
  let w := set_enemyGrid EnemyGridController.createEnemies w in
  let w := set_Bulletcon (BulletControl.clearBullets (Bulletcon w)) w in
  set_enemyProjectileController
    (BulletControl.clearBullets (enemyProjectileController w)) w.

Definition drawGameUiComponents (w : t) : t :=
  let '(sb, h) := Scoreboard.drawScoreboard (scoreboard w, health w) in
  set_health (Lives.drawLives h) (set_scoreboard sb w).

(** The [RUNNING] case of [startGame]. *)
Definition running_frame (random : nat -> Z) (w : t) : completion t :=
  let w := drawGameUiComponents w in
  let '(p, bc) := Player.drawPlayer (player w) (Bulletcon w) in
  let w := set_Bulletcon bc (set_player p w) in
  if Nat.eqb (EnemyGridController.anyEnemiesAlive (enemyGrid w)) 0
  then Normal (createNewEnemyWave w)
  else
    r ← EnemyGridController.draw random (enemyGrid w) (enemyProjectileController w);
    let w := set_enemyProjectileController (snd r) (set_enemyGrid (fst r) w) in
    let w := checkForCollisions w in
    let w := checkHealth w in
    past ← EnemyGridController.checkIfEnemyMovesPastPlayer (enemyGrid w);
    Normal (if past : bool then set_gameState GAME_OVER w else w).

(** The switch of [startGame] as far as the core goes, with the menu
    reduced to its two answers. What [menu.draw] itself does in the [MENU]
    and [GAME_OVER] cases before the answers are read (its controls screen
    draws the player, its game-over screen the scoreboard, and without a
    callback it raises) is not in here: [Session.startGame] is the whole
    call. *)
Definition startGame (hasGameStarted toPlayAgain : bool) (random : nat -> Z)
    (w : t) : completion t :=
  match gameState w with
  | MENU =>
      Normal (if hasGameStarted
              then createNewEnemyWave (set_gameState RUNNING w)
              else w)
  | RUNNING => running_frame random w
  | GAME_OVER =>
      Normal (if toPlayAgain
              then set_scoreboard (Scoreboard.resetScore (scoreboard w))
                     (set_health (Lives.resetHp (health w))
                        (set_gameState MENU w))
              else w)
  end.

End Game.

(* ===================================================================== *)
(** * menu/Menu.js *)
(* ===================================================================== *)

Module Menu.

Import Js.
Import Stdlib.Strings.Ascii.

(** [MENU_OPTIONS.PLAY], [HOW_TO_PLAY], [CONTROLS] and [GAME_OVER], the
    numbers 1 to 4. *)
Inductive option_id := PLAY | HOW_TO_PLAY | CONTROLS | GAME_OVER.

(** [this.menuState]: the string ["Main Menu"] or the number of an
    option. *)
Inductive screen :=
| MainMenu
| Screen (o : option_id).

Record t := mk {
  menuState : screen;
  selection : option_id;
  playGame : bool;
  retry : bool
}.

Definition new : t :=
  {| menuState := MainMenu; selection := PLAY; playGame := false;
     retry := false |}.

Definition set_menuState (st : screen) (m : t) : t :=
  mk st (selection m) (playGame m) (retry m).

Definition set_selection (o : option_id) (m : t) : t :=
  mk (menuState m) o (playGame m) (retry m).

(** [draw(scoreboard)] reaches the game through the player the menu was
    built with ([controlsSamplePlayer] is the player of the game, whose
    projectile controller is [Bulletcon]) and through the callback
    [scoreboard], when the caller passes one; [displayScore] tells whether
    it does. Without one, the game-over screen calls [undefined]. The other
    screens only paint. [removeMenuEventListeners] hands a new function to
    [removeEventListener], which therefore removes nothing. *)
Definition draw (displayScore : bool) (m : t) (w : Game.t)
    : completion (t * Game.t) :=
  match menuState m with
  | Screen PLAY => Normal (mk (menuState m) (selection m) true false, w)
  | Screen HOW_TO_PLAY => Normal (m, w)
  | Screen CONTROLS =>
      let '(p, bc) := Player.drawPlayer (Game.player w) (Game.Bulletcon w) in
      Normal (m, Game.set_Bulletcon bc (Game.set_player p w))
  | Screen GAME_OVER =>
      if displayScore then
        let '(sb, h) :=
          Scoreboard.drawScoreboard (Game.scoreboard w, Game.health w) in
        Normal (m, Game.set_health h (Game.set_scoreboard sb w))
      else Throw TypeError
  | MainMenu => Normal (m, w)
  end.

Definition setupGameOverMenuScreen (m : t) : t :=
  mk (Screen GAME_OVER) GAME_OVER false (retry m).

Definition keydownHandler (key : string) (m : t) : t :=
  let m :=
    if String.eqb key "ArrowUp" || String.eqb key "Up" then
      match selection m with
      | PLAY => set_selection CONTROLS m
      | HOW_TO_PLAY => set_selection PLAY m
      | CONTROLS => set_selection HOW_TO_PLAY m
      | GAME_OVER => m
      end
    else if String.eqb key "ArrowDown" || String.eqb key "Down" then
      match selection m with
      | PLAY => set_selection HOW_TO_PLAY m
      | HOW_TO_PLAY => set_selection CONTROLS m
      | CONTROLS => set_selection PLAY m
      | GAME_OVER => m
      end
    else m in
  let m :=
    if String.eqb key "Enter" then
      match selection m with
      | GAME_OVER => mk MainMenu PLAY false true
      | _ => set_menuState (Screen (selection m)) m
      end
    else m in
  if String.eqb key "Escape" || String.eqb key "Esc"
  then set_menuState MainMenu m
  else m.

Definition hasGameStarted (m : t) : bool := playGame m.
Definition toPlayAgain (m : t) : bool := retry m.

(** [text.split(" ")]: the pieces between the spaces, at least one. *)
Fixpoint split (text : string) : list string :=
  match text with
  | EmptyString => [EmptyString]
  | String c rest =>
      if Ascii.eqb c " "%char then EmptyString :: split rest
      else match split rest with
           | word :: words => String c word :: words
           | [] => [String c EmptyString]
           end
  end.

(** The loop of [wordWrap] from word [1] on; [measure] is the width the
    canvas reports for a text. *)
Fixpoint wrap (measure : string -> Q) (lineCutOffPoint : Q)
    (currentLine : string) (words : list string) : list string :=
  match words with
  | [] => [currentLine]
  | word :: words' =>
      if Js.ltb (measure (currentLine +:+ " " +:+ word)) lineCutOffPoint
      then wrap measure lineCutOffPoint (currentLine +:+ " " +:+ word) words'
      else currentLine :: wrap measure lineCutOffPoint word words'
  end.

(** [split] never returns the empty array, so [words[0]] is a string. *)
Definition wordWrap (measure : string -> Q) (text : string) : list string :=
  let lineCutOffPoint := CANVAS.WIDTH - 50 * 2 in
  match split text with
  | first :: words => wrap measure lineCutOffPoint first words
  | [] => []
  end.

End Menu.

(* ===================================================================== *)
(** * script.js with its menu: key events and frames *)
(* ===================================================================== *)

Module Session.

Import Js.

(** The objects of script.js together with [menu]. *)
Record t := mk {
  game : Game.t;
  menu : Menu.t
}.

Definition initial : t := {| game := Game.initial; menu := Menu.new |}.

(** One call of [startGame], the menu included. In the running state the
    two places that set [GAME_OVER] ([checkHealth] and the invasion test)
    both call [setupGameOverMenuScreen], and nothing else touches the
    menu. *)
Definition startGame (random : nat -> Z) (s : t) : completion t :=
  match Game.gameState (game s) with
  | Game.MENU =>
      r ← Menu.draw false (menu s) (game s);
      Normal (if Menu.hasGameStarted (fst r)
              then mk (Game.createNewEnemyWave
                         (Game.set_gameState Game.RUNNING (snd r))) (fst r)
              else mk (snd r) (fst r))
  | Game.RUNNING =>
      w ← Game.running_frame random (game s);
      Normal (mk w (match Game.gameState w with
                    | Game.GAME_OVER => Menu.setupGameOverMenuScreen (menu s)
                    | _ => menu s
                    end))
  | Game.GAME_OVER =>
      r ← Menu.draw true (menu s) (game s);
      Normal (if Menu.toPlayAgain (fst r)
              then mk (Game.set_scoreboard
                         (Scoreboard.resetScore (Game.scoreboard (snd r)))
                         (Game.set_health (Lives.resetHp (Game.health (snd r)))
                            (Game.set_gameState Game.MENU (snd r))))
                      (fst r)
              else mk (snd r) (fst r))
  end.

(** What happens to the page: a key goes down (the player's listener and
    the menu's both receive it), a key goes up, or the timer calls
    [startGame]; [random] stands for the delays drawn in that frame. *)
Inductive input :=
| KeyDown (key : string)
| KeyUp (key : string)
| Tick (random : nat -> Z).

Definition step (i : input) (s : t) : completion t :=
  match i with
  | KeyDown key =>
      let '(p, h) :=
        Player.keyDownHandler key (Game.player (game s), Game.health (game s)) in
      Normal (mk (Game.set_health h (Game.set_player p (game s)))
                 (Menu.keydownHandler key (menu s)))
  | KeyUp key =>
      Normal (mk (Game.set_player
                    (Player.keyUpHandler key (Game.player (game s))) (game s))
                 (menu s))
  | Tick random => startGame random s
  end.

Fixpoint run (inputs : list input) (s : t) : completion t :=
  match inputs with
  | [] => Normal s
  | i :: rest => s' ← step i s; run rest s'
  end.

End Session.

(* ===================================================================== *)
(** * Vocabulary of the specification *)
(* ===================================================================== *)

Module Spec.

Import EnemyGridController.

(** Two intervals share a sub-interval of positive length. *)
Definition positive_overlap (lo1 hi1 lo2 hi2 : Q) : Prop :=
  exists a b, a < b /\ lo1 <= a /\ b <= hi1 /\ lo2 <= a /\ b <= hi2.

(** A box with positive width and height. *)
Definition proper_box {A} `{Edges A} (o : A) : Prop :=
  getLeftEdge o < getRightEdge o /\ getTopEdge o < getBottomEdge o.

(** The enemy stored at row [r], column [c]. *)
Definition enemy_at (g : grid) (r c : nat) : option Enemy.t :=
  row ← g !! r; mjoin (row !! c).

(** [e] is a live cell of [g]. *)
Definition live (g : grid) (e : Enemy.t) : Prop :=
  exists r c, enemy_at g r c = Some e.

(** Column [c] holds no enemy in any row. *)
Definition column_dead (g : grid) (c : nat) : bool :=
  forallb (fun row => negb (alive (mjoin (row !! c)))) g.

(** All rows have length [n]. *)
Definition rectangular (n : nat) (g : grid) : Prop :=
  Forall (fun row => length row = n) g.

(** What a projectile does to one cell: a live cell it overlaps is
    tombstoned, every other cell stays. *)
Definition struck (projectile : Bullet.t) (c : option Enemy.t) : bool :=
  match c with
  | Some e => Game.collisionDetected e projectile
  | None => false
  end.

Definition after_hit (projectile : Bullet.t) (c : option Enemy.t) : option Enemy.t :=
  if struck projectile c then None else c.

(** Number of live cells of the grid that the projectile overlaps. *)
Definition hits_in_row (projectile : Bullet.t) (row : list (option Enemy.t)) : nat :=
  length (filter (fun c => struck projectile c = true) row).

Definition hits (projectile : Bullet.t) (g : grid) : nat :=
  foldr (fun row n => (hits_in_row projectile row + n)%nat) 0%nat g.

(** The state once [n] hits have been applied and the grid has become [g]. *)
Definition after_hits (projectile : Bullet.t) (n : nat) (g : grid) (w : Game.t) : Game.t :=
  Game.mk (Game.gameState w)
    (Nat.iter n (BulletControl.destroyBullet projectile) (Game.Bulletcon w))
    (Game.enemyProjectileController w) (Game.health w) (Game.player w)
    (Nat.iter n (Scoreboard.addToScore 250) (Game.scoreboard w))
    g.

(** An enemy after one bounce: new direction, one step down. *)
Definition bounced (toGoRight : bool) (e : Enemy.t) : Enemy.t :=
  Enemy.set_y (Enemy.yPosition e + Enemy.verticalMoveSpeed e)
    (Enemy.set_dir toGoRight e).

(** The live cells fit in the corridor between the two side bounds: from
    the left edge of any of them to the right edge of any other is less
    than the distance between the bounds. *)
Definition fits_between_bounds (g : grid) : Prop :=
  forall e1 e2, live g e1 -> live g e2 ->
    getRightEdge e2 - getLeftEdge e1 < CANVAS.WIDTH - 2 * PADDING.SIDE.

(** The grids the game builds keep the enemies in formation: all rows have
    [n] cells, cells of one column share their x position, all live enemies
    move the same way with the same width and speed, they descend by a
    positive step, and the block fits between the bounds. *)
Record formation (n : nat) (g : grid) : Prop := {
  formation_rect : rectangular n g;
  formation_columns : forall r1 r2 c e1 e2,
      enemy_at g r1 c = Some e1 -> enemy_at g r2 c = Some e2 ->
      Enemy.xPosition e1 == Enemy.xPosition e2;
  formation_uniform : forall e1 e2, live g e1 -> live g e2 ->
      Enemy.isGoingRight e1 = Enemy.isGoingRight e2
      /\ Enemy.horizontalMoveSpeed e1 == Enemy.horizontalMoveSpeed e2
      /\ Enemy.width e1 == Enemy.width e2;
  formation_step : forall e, live g e -> 0 < Enemy.verticalMoveSpeed e;
  formation_fits : fits_between_bounds g
}.

(** The make of an enemy: the width and the two speeds its constructor
    gives it, which no method changes. *)
Definition stock (e : Enemy.t) : Prop :=
  Enemy.width e = 30
  /\ Enemy.horizontalMoveSpeed e = Js.round64 (3 # 10)
  /\ Enemy.verticalMoveSpeed e = 20.

(** What a wave keeps whatever the rounding of its moves: rows of [n]
    cells, the cells of a column at the very same x, all live enemies going
    the same way, each with the make of a new enemy. *)
Record aligned (n : nat) (g : grid) : Prop := {
  aligned_rect : rectangular n g;
  aligned_columns : forall r1 r2 c e1 e2,
      enemy_at g r1 c = Some e1 -> enemy_at g r2 c = Some e2 ->
      Enemy.xPosition e1 = Enemy.xPosition e2;
  aligned_direction : forall e1 e2, live g e1 -> live g e2 ->
      Enemy.isGoingRight e1 = Enemy.isGoingRight e2;
  aligned_stock : forall e, live g e -> stock e
}.

(** A session of at most this many key events and frames: nineteen days
    of play at 60 frames a second. *)
Definition long_session : Z := 100000000.

(** How far from the middle an enemy can have gone after [k] frames, and
    by how much the rounding of [k] moves can have widened a wave: each
    move of an enemy that stays below 2^27 is off by at most 2^-27, so the
    distance between two enemies changes by at most 2^-26 a frame. *)
Definition reach (k : nat) : Q := 600 + inject_Z (Z.of_nat k).
Definition drift (k : nat) : Q := inject_Z (Z.of_nat k) * (1 # 67108864).

(** After [k] frames the live enemies are within reach and the wave, 400
    from its first column to its last when created, is wider by the drift
    at most. *)
Definition ranged (k : nat) (g : grid) : Prop :=
  (forall e, live g e ->
     - reach k <= Enemy.xPosition e /\ Enemy.xPosition e <= reach k)
  /\ (forall e1 e2, live g e1 -> live g e2 ->
        Enemy.xPosition e2 - Enemy.xPosition e1 <= 400 + drift k).

(** The grid of a session after [k] events: aligned for ever, and ranged
    as long as the session is not longer than [long_session]. *)
Definition marching (k n : nat) (g : grid) : Prop :=
  aligned n g /\ ((Z.of_nat k <= long_session)%Z -> ranged k g).

(** The grid that [draw] hands to [move]: the enemies drawn, then the dead
    bottom row and the dead columns cleared; none when no row is left. *)
Definition handed_to_move (g : grid) : option grid :=
  match clearEnemyGridRows (draw_enemies g) with
  | Js.Normal r =>
      let g := snd (clearEnemyGridColumns (snd r)) in
      if Nat.eqb (anyEnemiesAlive g) 0 then None else Some g
  | Js.Throw _ => None
  end.

(** A game started from the menu, the fire key held down, and three
    frames of play with every enemy of the front firing at once. *)
Definition three_frames_of_play : list Session.input :=
  [Session.KeyDown "Enter"; Session.Tick (fun _ => 0%Z);
   Session.KeyDown "v";
   Session.Tick (fun _ => 0%Z); Session.Tick (fun _ => 0%Z);
   Session.Tick (fun _ => 0%Z)].

(** A game started from the menu and left alone for 166 frames of play,
    the enemies' fire delayed for good after their first shot. *)
Definition frames_to_the_right_bound : list Session.input :=
  Session.KeyDown "Enter"
  :: repeat (Session.Tick (fun _ => 100000%Z)) 167.

(** What one tick of a pool makes of its array when the test [off] decides
    which bullets are off screen: a bullet that stays is drawn; a bullet
    that is removed takes the place of none, so the bullet after it slides
    into the index just visited and is passed over, neither tested nor
    drawn. *)
Fixpoint sweep (off : Bullet.t -> bool) (bs : list Bullet.t) : list Bullet.t :=
  match bs with
  | [] => []
  | b :: rest =>
      if off b then
        match rest with
        | [] => []
        | passed :: rest' => passed :: sweep off rest'
        end
      else Bullet.draw b :: sweep off rest
  end.

(** No bullet that is off screen is directly followed by another one. *)
Fixpoint spaced (off : Bullet.t -> bool) (bs : list Bullet.t) : bool :=
  match bs with
  | [] => true
  | b :: rest =>
      match rest with
      | [] => true
      | b' :: _ => negb (off b && off b') && spaced off rest
      end
  end.

(** The bullets of a pool are distinct objects, all created before the
    next one to come. *)
Definition pool_ok (bc : BulletControl.t) : Prop :=
  NoDup (map Bullet.oid (BulletControl.bullets bc))
  /\ Forall (fun i => (i < BulletControl.fresh bc)%nat)
       (map Bullet.oid (BulletControl.bullets bc)).

(** The lowest live cell of column [c]: going down the rows, the last
    enemy met. *)
Definition lowest (g : grid) (c : nat) : option Enemy.t :=
  foldl (fun found row =>
           match mjoin (row !! c) with
           | Some e => Some e
           | None => found
           end) None g.

(** Number of live cells in column [c]. *)
Definition live_in_column (g : grid) (c : nat) : nat :=
  length (filter (fun row => alive (mjoin (row !! c)) = true) g).

(** Number of live cells of the grid. *)
Definition live_cells (g : grid) : nat :=
  foldr (fun row n => (length (filter (fun c => alive c = true) row) + n)%nat)
        0%nat g.

(** What a pass for hits makes of a pool when [hit] decides which bullets
    strike: a bullet that strikes is removed, and the bullet after it
    slides into the index just visited and is passed over untested. The
    result is the bullets left and the number of strikes. *)
Fixpoint hit_scan (hit : Bullet.t -> bool) (bs : list Bullet.t)
    : list Bullet.t * nat :=
  match bs with
  | [] => ([], 0%nat)
  | b :: rest =>
      if hit b then
        match rest with
        | [] => ([], 1%nat)
        | passed :: rest' =>
            let '(kept, n) := hit_scan hit rest' in (passed :: kept, S n)
        end
      else let '(kept, n) := hit_scan hit rest in (b :: kept, n)
  end.

(** What reaches the player object: key events at any time, and the
    [movePlayer] of each frame. *)
Inductive player_input :=
| KeyDown (key : string)
| KeyUp (key : string)
| Frame.

Definition player_step (st : Player.t * Lives.t) (i : player_input)
    : Player.t * Lives.t :=
  match i with
  | KeyDown key => Player.keyDownHandler key st
  | KeyUp key => (Player.keyUpHandler key (fst st), snd st)
  | Frame => (Player.movePlayer (fst st), snd st)
  end.

Definition player_run (inputs : list player_input) (st : Player.t * Lives.t)
    : Player.t * Lives.t :=
  foldl player_step st inputs.

(** The player's pool after the frames of the players [ps], one frame
    each. *)
Definition shoot_frames (ps : list Player.t) (bc : BulletControl.t)
    : BulletControl.t :=
  foldl (fun bc p => Player.shoot p bc) bc ps.

(** The player stands on one of the 99 stops, 5 pixels apart, between the
    side bounds. *)
Definition on_stop (p : Player.t) : Prop :=
  Player.width p = 30
  /\ Player.movementSpeed p = 5
  /\ exists k : Z, (0 <= k <= 98)%Z
       /\ Player.xPosition p == PADDING.SIDE + 5 * inject_Z k.

(** The scoreboard and the health over a run of frames: in each frame the
    kills add [gain] to the score, then the scoreboard is drawn. *)
Definition score_frames (gains : list Z) (st : Scoreboard.t * Lives.t)
    : Scoreboard.t * Lives.t :=
  foldl (fun st gain =>
           Scoreboard.drawScoreboard (Scoreboard.addToScore gain (fst st), snd st))
        st gains.

(** The hearts agree with the health: the ceiling is the health, capped at
    3, and the flag of the bonus block is up to date. *)
Definition hearts_agree (l : Lives.t) : Prop :=
  Lives.maxHP l = Z.min 3 (Lives.hp l)
  /\ Lives.tempHPBlock l = (3 <? Lives.hp l)%Z.

(** What the menu object and the state of the game agree on between two
    events: in the menu state the game has not been started and the
    game-over screen is neither selected nor shown; in the running state no
    retry is pending and the game-over option is not selected; a retry that
    is pending in the game-over state was asked for on the game-over
    screen, which has been left since. *)
Definition menu_in_step (s : Session.t) : Prop :=
  let m := Session.menu s in
  match Game.gameState (Session.game s) with
  | Game.MENU =>
      Menu.playGame m = false
      /\ Menu.selection m <> Menu.GAME_OVER
      /\ Menu.menuState m <> Menu.Screen Menu.GAME_OVER
  | Game.RUNNING =>
      Menu.retry m = false /\ Menu.selection m <> Menu.GAME_OVER
  | Game.GAME_OVER =>
      Menu.retry m = true ->
      Menu.playGame m = false
      /\ Menu.selection m <> Menu.GAME_OVER
      /\ Menu.menuState m <> Menu.Screen Menu.GAME_OVER
  end.

(** A game that is started from the menu, lost at once through the key
    [o], and answered on the game-over screen with Enter pressed twice
    before the next frame. *)
Definition enter_twice_at_game_over : list Session.input :=
  [Session.KeyDown "Enter"; Session.Tick (fun _ => 0%Z);
   Session.KeyDown "o"; Session.KeyDown "o"; Session.KeyDown "o";
   Session.Tick (fun _ => 0%Z);
   Session.KeyDown "Enter"; Session.KeyDown "Enter";
   Session.Tick (fun _ => 0%Z)].

End Spec.

(* ===================================================================== *)
(** * Basic facts *)
(* ===================================================================== *)

Section Comparisons.

Lemma leb_true (a b : Q) : Js.leb a b = true <-> a <= b.
Proof. unfold Js.leb. apply Qle_bool_iff. Qed.

Lemma leb_false (a b : Q) : Js.leb a b = false <-> b < a.
Proof.
  rewrite <- not_true_iff_false, leb_true. split.
  - apply Qnot_le_lt.
  - apply Qlt_not_le.
Qed.

Lemma ltb_true (a b : Q) : Js.ltb a b = true <-> a < b.
Proof. unfold Js.ltb. rewrite negb_true_iff. apply leb_false. Qed.

Lemma ltb_false (a b : Q) : Js.ltb a b = false <-> b <= a.
Proof. unfold Js.ltb. rewrite negb_false_iff. apply leb_true. Qed.

End Comparisons.

(* ===================================================================== *)
(** * Collision detection *)
(* ===================================================================== *)

Section Collision.

Context {A B : Type} `{Edges A} `{Edges B}.

Lemma collisionDetected_true (sprite : A) (projectile : B) :
  Game.collisionDetected sprite projectile = true <->
  getTopEdge sprite < getBottomEdge projectile
  /\ getTopEdge projectile < getBottomEdge sprite
  /\ getLeftEdge projectile < getRightEdge sprite
  /\ getLeftEdge sprite < getRightEdge projectile.
Proof.
  unfold Game.collisionDetected.
  destruct (Js.leb (getBottomEdge projectile) (getTopEdge sprite)) eqn:E1;
  destruct (Js.leb (getBottomEdge sprite) (getTopEdge projectile)) eqn:E2;
  destruct (Js.leb (getRightEdge sprite) (getLeftEdge projectile)) eqn:E3;
  destruct (Js.leb (getRightEdge projectile) (getLeftEdge sprite)) eqn:E4;
  simpl;
  rewrite ?leb_true, ?leb_false in *;
  split; try discriminate; try tauto; intros (? & ? & ? & ?); lra.
Qed.

Lemma positive_overlap_iff (lo1 hi1 lo2 hi2 : Q) :
  lo1 < hi1 -> lo2 < hi2 ->
  Spec.positive_overlap lo1 hi1 lo2 hi2 <-> lo1 < hi2 /\ lo2 < hi1.
Proof.
  intros H1 H2. split.
  - intros (a & b & Hab & ? & ? & ? & ?). split; lra.
  - intros [Ha Hb].
    destruct (Qlt_le_dec lo1 lo2), (Qlt_le_dec hi1 hi2).
    + exists lo2, hi1. repeat split; lra.
    + exists lo2, hi2. repeat split; lra.
    + exists lo1, hi1. repeat split; lra.
    + exists lo1, hi2. repeat split; lra.
Qed.

(** C5. For a sprite box and a projectile box (each of positive width and
    height), [collisionDetected] answers true exactly when the boxes share
    a stretch of positive length on the x axis and on the y axis; when the
    projectile only touches the sprite (its bottom on the sprite's top, its
    top on the sprite's bottom, its left on the sprite's right or its right
    on the sprite's left) the answer is false. *)
Theorem collisionDetected_positive_overlap (sprite : A) (projectile : B) :
  Spec.proper_box sprite -> Spec.proper_box projectile ->
  (Game.collisionDetected sprite projectile = true <->
     Spec.positive_overlap (getLeftEdge sprite) (getRightEdge sprite)
       (getLeftEdge projectile) (getRightEdge projectile)
     /\ Spec.positive_overlap (getTopEdge sprite) (getBottomEdge sprite)
          (getTopEdge projectile) (getBottomEdge projectile))
  /\ (getBottomEdge projectile == getTopEdge sprite ->
      Game.collisionDetected sprite projectile = false)
  /\ (getTopEdge projectile == getBottomEdge sprite ->
      Game.collisionDetected sprite projectile = false)
  /\ (getLeftEdge projectile == getRightEdge sprite ->
      Game.collisionDetected sprite projectile = false)
  /\ (getRightEdge projectile == getLeftEdge sprite ->
      Game.collisionDetected sprite projectile = false).
Proof.
  intros [Hsx Hsy] [Hpx Hpy]. split.
  - rewrite collisionDetected_true.
    rewrite (positive_overlap_iff _ _ _ _ Hsx Hpx).
    rewrite (positive_overlap_iff _ _ _ _ Hsy Hpy).
    tauto.
  - repeat split; intros Heq; apply not_true_iff_false;
      rewrite collisionDetected_true; intros (? & ? & ? & ?); lra.
Qed.

End Collision.

(** The scenario of the specification: a cell at (100,100) of size 30x40
    and a projectile at (105,130) of size 20x25. *)
Lemma collisionDetected_positive_overlap_witness :
  Game.collisionDetected
    (Enemy.new CANVAS.WIDTH CANVAS.HEIGHT 100 100)
    (Bullet.new 0 105 130 5 "player") = true.
Proof.
  pose proof (collisionDetected_positive_overlap
                (Enemy.new CANVAS.WIDTH CANVAS.HEIGHT 100 100)
                (Bullet.new 0 105 130 5 "player")) as Hc.
  destruct Hc as [Hiff _].
  - split; reflexivity.
  - split; reflexivity.
  - apply Hiff. split.
    + exists 105, 125. repeat split; discriminate.
    + exists 130, 140. repeat split; discriminate.
Defined.

(* ===================================================================== *)
(** * Loops *)
(* ===================================================================== *)

Section ForEach.

Context {S A : Type} (get : S -> list A) (cb : A -> nat -> S -> S).

(** The step [forEach] makes at index [k]. *)
Lemma forEach_from_succ (n k : nat) (s : S) :
  Js.forEach_from get cb (Datatypes.S n) k s =
  Js.forEach_from get cb n (Datatypes.S k)
    (match get s !! k with Some a => cb a k s | None => s end).
Proof. reflexivity. Qed.

(** Invariant rule: a property indexed by the position of the loop that
    every step carries forward holds at the end. *)
Lemma forEach_from_invariant (I : nat -> S -> Prop) (n k : nat) (s : S) :
  I k s ->
  (forall j t, (k <= j < k + n)%nat -> I j t ->
     I (Datatypes.S j) (match get t !! j with Some a => cb a j t | None => t end)) ->
  I (k + n)%nat (Js.forEach_from get cb n k s).
Proof.
  revert k s. induction n as [|n IH]; intros k s Hk Hstep.
  - rewrite Nat.add_0_r. exact Hk.
  - rewrite forEach_from_succ.
    replace (k + Datatypes.S n)%nat with (Datatypes.S k + n)%nat by lia.
    apply IH.
    + apply Hstep; [lia | exact Hk].
    + intros j t Hj. apply Hstep. lia.
Qed.

(** The rule for a whole [forEach]. *)
Lemma forEach_invariant (I : nat -> S -> Prop) (s : S) :
  I 0%nat s ->
  (forall j t, (j < length (get s))%nat -> I j t ->
     I (Datatypes.S j) (match get t !! j with Some a => cb a j t | None => t end)) ->
  I (length (get s)) (Js.forEach get cb s).
Proof.
  intros H0 Hstep. unfold Js.forEach.
  apply (forEach_from_invariant I (length (get s)) 0 s H0).
  intros j t [_ Hj]. apply Hstep. exact Hj.
Qed.

(** The same rule for a property that does not depend on the position. *)
Lemma forEach_preserves (P : S -> Prop) (s : S) :
  P s ->
  (forall a j t, P t -> P (cb a j t)) ->
  P (Js.forEach get cb s).
Proof.
  intros Hs Hcb. unfold Js.forEach.
  apply (forEach_from_invariant (fun _ => P) (length (get s)) 0 s Hs).
  intros j t _ Ht. destruct (get t !! j); auto.
Qed.

End ForEach.

(* ===================================================================== *)
(** * Projectile pool *)
(* ===================================================================== *)

Section Pool.

Import BulletControl.

Lemma draw_callback_frame (b : Bullet.t) (k : nat) (bc : t) :
  canvas (draw_callback b k bc) = canvas bc
  /\ waitTime (draw_callback b k bc) = waitTime bc
  /\ shooter (draw_callback b k bc) = shooter bc
  /\ fresh (draw_callback b k bc) = fresh bc.
Proof.
  unfold draw_callback.
  destruct (isOffScreen bc b); [destruct (indexOf (bullets bc) b)|]; auto.
Qed.

Lemma draw_frame (bc : t) :
  canvas (draw bc) = canvas bc
  /\ shooter (draw bc) = shooter bc
  /\ waitTime (draw bc) =
     match shooter bc with
     | Some sh => if String.eqb sh "player" then (waitTime bc - 1)%Z else waitTime bc
     | None => waitTime bc
     end.
Proof.
  unfold draw.
  set (bc0 := match shooter bc with
              | Some sh => if String.eqb sh "player"
                           then set_waitTime (waitTime bc - 1) bc else bc
              | None => bc
              end).
  assert (H0 : canvas bc0 = canvas bc /\ shooter bc0 = shooter bc
               /\ waitTime bc0 = match shooter bc with
                                 | Some sh => if String.eqb sh "player"
                                              then (waitTime bc - 1)%Z else waitTime bc
                                 | None => waitTime bc
                                 end).
  { subst bc0. destruct (shooter bc) as [sh|] eqn:E;
      [destruct (String.eqb sh "player")|]; simpl; rewrite ?E; repeat split. }
  destruct H0 as (Hc & Hs & Hw). rewrite <- Hw, <- Hc, <- Hs.
  apply (forEach_preserves bullets draw_callback
           (fun s => canvas s = canvas bc0 /\ shooter s = shooter bc0
                     /\ waitTime s = waitTime bc0)); [auto|].
  intros a j t (? & ? & ?).
  destruct (draw_callback_frame a j t) as (-> & -> & -> & _). auto.
Qed.

(** A pool whose canvas object has no [height] property never sees a
    bullet as off screen. *)
Lemma isOffScreen_without_height (bc : t) (b : Bullet.t) :
  canvas bc !! "height" = None -> isOffScreen bc b = false.
Proof. unfold isOffScreen. intros ->. reflexivity. Qed.

Lemma draw_without_height_keeps_all (bc : t) :
  canvas bc !! "height" = None ->
  length (bullets (draw bc)) = length (bullets bc).
Proof.
  intros Hh. unfold draw.
  set (bc0 := match shooter bc with
              | Some sh => if String.eqb sh "player"
                           then set_waitTime (waitTime bc - 1) bc else bc
              | None => bc
              end).
  assert (H0 : canvas bc0 = canvas bc /\ bullets bc0 = bullets bc).
  { subst bc0. destruct (shooter bc) as [sh|];
      [destruct (String.eqb sh "player")|]; repeat split. }
  destruct H0 as [Hc Hb]. rewrite <- Hb.
  apply (forEach_preserves bullets draw_callback
           (fun s => canvas s = canvas bc /\ length (bullets s) = length (bullets bc0))).
  - auto.
  - intros a j t [Hct Hlt]. split.
    + destruct (draw_callback_frame a j t) as (-> & _). exact Hct.
    + unfold draw_callback.
      rewrite isOffScreen_without_height by (rewrite Hct; exact Hh).
      simpl. unfold mutate. rewrite length_map. exact Hlt.
Qed.

Lemma iter_draw_player (n : nat) (bc : t) :
  shooter bc = Some "player" ->
  shooter (Nat.iter n draw bc) = Some "player"
  /\ waitTime (Nat.iter n draw bc) = (waitTime bc - Z.of_nat n)%Z.
Proof.
  intros Hs. induction n as [|n [IHs IHw]].
  - simpl. split; [exact Hs | lia].
  - simpl. destruct (draw_frame (Nat.iter n draw bc)) as (_ & Hs' & Hw').
    rewrite Hs', Hw', IHs, IHw. simpl. split; [reflexivity | lia].
Qed.

End Pool.

Section Cooldown.

Import BulletControl.

(** C6 (as amended). A fire request admits a new projectile exactly when
    the cooldown counter is [<= 0]; on admission the counter is set to the
    given cooldown and, as after every request of a shooter other than the
    player, decremented once in the same call. A request that arrives with
    the counter at 5 leaves the pool contents unchanged, and once the
    counter has been decremented 5 times (by five ticks of the player's
    pool, or by five rejected requests of an enemy) an identical request is
    admitted. *)
Theorem shoot_cooldown (x y speed : Q) (delay : Z) (sh : string) (bc : t) :
  let admitted := (waitTime bc <=? 0)%Z in
  bullets (shoot x y speed delay sh bc) =
    (if admitted then bullets bc ++ [Bullet.new (fresh bc) x y speed sh]
     else bullets bc)
  /\ waitTime (shoot x y speed delay sh bc) =
     ((if admitted then delay else waitTime bc)
      - (if String.eqb sh "player" then 0 else 1))%Z
  /\ (let rejected := shoot x y speed delay "player" (set_waitTime 5 bc) in
      bullets rejected = bullets bc
      /\ let later := Nat.iter 5 draw rejected in
         waitTime later = 0%Z
         /\ bullets (shoot x y speed delay "player" later) =
            bullets later ++ [Bullet.new (fresh later) x y speed "player"])
  /\ (let later := Nat.iter 5 (shoot x y speed delay "enemy_1") (set_waitTime 5 bc) in
      bullets later = bullets bc
      /\ waitTime later = 0%Z
      /\ bullets (shoot x y speed delay "enemy_1" later) =
         bullets later ++ [Bullet.new (fresh later) x y speed "enemy_1"]).
Proof.
  cbv zeta. split; [|split; [|split]].
  - unfold shoot. simpl.
    destruct (waitTime bc <=? 0)%Z; destruct (String.eqb sh "player"); reflexivity.
  - unfold shoot. simpl.
    destruct (waitTime bc <=? 0)%Z; destruct (String.eqb sh "player"); simpl; lia.
  - assert (Hr : shoot x y speed delay "player" (set_waitTime 5 bc)
                 = set_shooter (Some "player") (set_waitTime 5 bc)) by reflexivity.
    rewrite Hr. split; [reflexivity|].
    destruct (iter_draw_player 5 (set_shooter (Some "player") (set_waitTime 5 bc)))
      as [_ Hw]; [reflexivity|].
    set (later := Nat.iter 5 draw _) in *.
    change (waitTime (set_shooter (Some "player") (set_waitTime 5 bc))) with 5%Z in Hw.
    split; [rewrite Hw; reflexivity|].
    unfold shoot. cbn [waitTime set_shooter]. rewrite Hw. reflexivity.
  - assert (Hl : Nat.iter 5 (shoot x y speed delay "enemy_1") (set_waitTime 5 bc)
                 = set_shooter (Some "enemy_1") (set_waitTime 0 bc)) by reflexivity.
    rewrite Hl. repeat split.
Qed.

(** C6, the statement as given fails: an enemy's request that is admitted
    with cooldown 10 leaves the counter at 9. *)
Lemma shoot_enemy_counter_below_delay :
  let bc := shoot 0 0 (-3) 10 "enemy_1" (new CANVAS_object) in
  length (bullets bc) = 1%nat /\ waitTime bc = 9%Z /\ waitTime bc <> 10%Z.
Proof.
  cbv zeta. split; [reflexivity|]. split; [reflexivity|].
  vm_compute. discriminate.
Qed.

End Cooldown.

Section OffScreen.

Import BulletControl.

Lemma CANVAS_object_height : CANVAS_object !! "height" = None.
Proof. vm_compute. reflexivity. Qed.

(** C3 (fails on the code). The game builds both pools with the [CANVAS]
    constants object, which has [HEIGHT] but no [height]: in such a pool
    [isOffScreen] is false for every bullet and a tick removes none, as for
    a player bullet at y = -480 on the 480 pixel canvas. In a pool built
    with a canvas that does have a height, the tick removes an off-screen
    bullet but skips the bullet that follows it in the array: of two
    off-screen bullets in a row the second stays in the pool. *)
Theorem draw_leaves_offscreen_bullets :
  (forall bc b, canvas bc = CANVAS_object -> isOffScreen bc b = false)
  /\ (forall bc, canvas bc = CANVAS_object ->
        length (bullets (draw bc)) = length (bullets bc))
  /\ (let Bulletcon := shoot 320 (-480) 5 39 "player" (new CANVAS_object) in
      map Bullet.oid (bullets Bulletcon) = [0%nat]
      /\ Forall (fun b => Bullet.y b <= - CANVAS.HEIGHT) (bullets Bulletcon)
      /\ map Bullet.oid (bullets (draw Bulletcon)) = [0%nat])
  /\ (let pool := shoot 0 (-480) 5 0 "enemy_1"
                    (shoot 0 (-480) 5 0 "enemy_1"
                       (new (canvas_element 640 480))) in
      map Bullet.oid (bullets pool) = [0%nat; 1%nat]
      /\ Forall (fun b => isOffScreen pool b = true) (bullets pool)
      /\ map Bullet.oid (bullets (draw pool)) = [1%nat]
      /\ Forall (fun b => isOffScreen pool b = true) (bullets (draw pool))).
Proof.
  split; [|split; [|split]].
  - intros bc b Hc. apply isOffScreen_without_height. rewrite Hc.
    apply CANVAS_object_height.
  - intros bc Hc. apply draw_without_height_keeps_all. rewrite Hc.
    apply CANVAS_object_height.
  - cbv zeta. split; [vm_compute; reflexivity|]. split; [|vm_compute; reflexivity].
    vm_compute. repeat constructor. discriminate.
  - cbv zeta. split; [vm_compute; reflexivity|]. split.
    + vm_compute. repeat constructor.
    + split; [vm_compute; reflexivity|]. vm_compute. repeat constructor.
Qed.

End OffScreen.

Section Health.

Import Lives.

Lemma healthModifier_damage_iter (n : nat) :
  Nat.iter n (healthModifier (-1)) initial =
  {| maxHP := 3 - Z.of_nat n; hp := 3 - Z.of_nat n; tempHPBlock := false |}.
Proof.
  induction n as [|n IH].
  - reflexivity.
  - rewrite Nat.iter_succ, IH. unfold healthModifier. cbn [maxHP hp tempHPBlock].
    destruct (3 <? 3 - Z.of_nat n + -1)%Z eqn:E.
    + apply Z.ltb_lt in E. lia.
    + f_equal; lia.
Qed.

(** C10 (as amended). A hit on the player runs [healthModifier(-1)], which
    lowers [hp] by one and, whenever [tempHPBlock] is false, lowers [maxHP]
    by one as well; [maxHP] never exceeds 3 afterwards but has no lower
    bound: after [n] hits from a fresh game both [hp] and [maxHP] are
    [3 - n], zero at three hits and negative beyond. The ceiling is not
    lowered for good: while [tempHPBlock] is false a later
    [healthModifier(1)] raises it by one again, up to 3, and [resetHp] puts
    it back to 3 whatever it was. *)
Theorem healthModifier_lowers_ceiling :
  (forall projectile w,
     Game.health (Game.playerCollisionHandler projectile w) =
     if Game.collisionDetected (Game.player w) projectile
     then healthModifier (-1) (Game.health w)
     else Game.health w)
  /\ (forall i l, hp (healthModifier i l) = (hp l + i)%Z)
  /\ (forall m h, maxHP (healthModifier (-1) (mk m h false)) = Z.min 3 (m - 1))
  /\ (forall m h, maxHP (healthModifier (-1) (mk m h true)) = Z.min 3 m)
  /\ (forall i l, (maxHP (healthModifier i l) <= 3)%Z)
  /\ (forall n, Nat.iter n (healthModifier (-1)) initial =
                mk (3 - Z.of_nat n) (3 - Z.of_nat n) false)
  /\ (forall m h, maxHP (healthModifier 1 (mk m h false)) = Z.min 3 (m + 1))
  /\ (forall l, maxHP (resetHp l) = 3%Z /\ hp (resetHp l) = 3%Z).
Proof.
  split; [|split; [|split; [|split; [|split; [|split; [|split]]]]]].
  - intros projectile w. unfold Game.playerCollisionHandler.
    destruct (Game.collisionDetected (Game.player w) projectile); reflexivity.
  - reflexivity.
  - intros m h. unfold healthModifier. cbn [maxHP hp tempHPBlock].
    destruct (3 <? m + -1)%Z eqn:E;
      [apply Z.ltb_lt in E | apply Z.ltb_ge in E]; lia.
  - intros m h. unfold healthModifier. cbn [maxHP hp tempHPBlock].
    destruct (3 <? m)%Z eqn:E;
      [apply Z.ltb_lt in E | apply Z.ltb_ge in E]; lia.
  - intros i l. unfold healthModifier. cbn [maxHP].
    destruct (tempHPBlock l).
    + destruct (3 <? maxHP l)%Z eqn:E; [lia | apply Z.ltb_ge in E; lia].
    + destruct (3 <? maxHP l + i)%Z eqn:E; [lia | apply Z.ltb_ge in E; lia].
  - apply healthModifier_damage_iter.
  - intros m h. unfold healthModifier. cbn [maxHP hp tempHPBlock].
    destruct (3 <? m + 1)%Z eqn:E;
      [apply Z.ltb_lt in E | apply Z.ltb_ge in E]; lia.
  - intros l. split; reflexivity.
Qed.

(** C10, the statement as given fails where it says that the damage lowers
    the ceiling for good. An enemy projectile that overlaps the player of a
    fresh game takes [hp] and [maxHP] from 3 to 2; the key [p], whose
    handler calls [healthModifier(1)], brings both back to 3, and so does
    the bonus life that [addExtra] grants at a score of 10000; after two
    such hits [resetHp], which runs when the game is played again, restores
    a ceiling of 3. *)
Lemma healthModifier_ceiling_comes_back :
  let projectile :=
    Bullet.new 0 (Player.xPosition Player.new) (Player.yPosition Player.new)
      (-3) "enemy_1" in
  let w := Game.set_enemyProjectileController
             (BulletControl.shoot (Player.xPosition Player.new)
                (Player.yPosition Player.new) (-3) 0 "enemy_1"
                (Game.enemyProjectileController Game.initial)) Game.initial in
  let hit := Game.playerCollisionHandler projectile in
  let key_p w := snd (Player.keyDownHandler "p" (Game.player w, Game.health w)) in
  let bonus w :=
    snd (Scoreboard.addExtra
           (Scoreboard.addToScore 10000 (Game.scoreboard w), Game.health w)) in
  BulletControl.bullets (Game.enemyProjectileController w) = [projectile]
  /\ Game.collisionDetected (Game.player w) projectile = true
  /\ Game.health w = mk 3 3 false
  /\ Game.health (hit w) = mk 2 2 false
  /\ key_p (hit w) = mk 3 3 false
  /\ bonus (hit w) = mk 3 3 false
  /\ Game.health (hit (hit w)) = mk 1 1 false
  /\ resetHp (Game.health (hit (hit w))) = mk 3 3 false.
Proof. cbv zeta. repeat split; vm_compute; reflexivity. Qed.

End Health.

(* ===================================================================== *)
(** * Enemy grid: rows *)
(* ===================================================================== *)

Section GridRows.

Import Js EnemyGridController.

Lemma index_bottom {A} (rows : list A) (row : A) :
  Js.index (rows ++ [row]) (Z.of_nat (length (rows ++ [row])) - 1) = Some row.
Proof.
  unfold Js.index. rewrite length_app. simpl.
  destruct (Z.ltb_spec (Z.of_nat (length rows + 1) - 1) 0); [lia|].
  replace (Z.to_nat (Z.of_nat (length rows + 1) - 1)) with (length rows) by lia.
  apply list_lookup_middle. reflexivity.
Qed.

Lemma nonempty_snoc {A} (l : list A) :
  l <> [] -> exists rows row, l = rows ++ [row].
Proof.
  intros Hl. destruct (exists_last Hl) as (rows & row & ->). eauto.
Qed.

Lemma clearEnemyGridRows_snoc (rows : grid) (bottomRow : list (option Enemy.t)) :
  clearEnemyGridRows (rows ++ [bottomRow]) =
  if existsb alive bottomRow
  then Normal (false, rows ++ [bottomRow])
  else Normal (true, rows).
Proof.
  unfold clearEnemyGridRows. rewrite index_bottom.
  destruct (existsb alive bottomRow); [reflexivity|].
  unfold Js.pop. rewrite removelast_last. reflexivity.
Qed.

Lemma existsb_alive_dead (row : list (option Enemy.t)) :
  Forall (fun c => c = None) row -> existsb alive row = false.
Proof.
  induction 1 as [|c row Hc _ IH]; [reflexivity|].
  subst c. simpl. exact IH.
Qed.

Lemma existsb_alive_fmap (f : Enemy.t -> Enemy.t) (row : list (option Enemy.t)) :
  existsb alive (map (fmap f) row) = existsb alive row.
Proof.
  induction row as [|[e|] row IH]; simpl; [reflexivity|reflexivity|exact IH].
Qed.

Lemma clear_columns_from_length (tr : list tracker_entry) (colIdx : nat)
    (st : bool * grid) :
  length (snd (clear_columns_from tr colIdx st)) = length (snd st).
Proof.
  revert colIdx st. induction tr as [|c tr IH]; intros colIdx st; [reflexivity|].
  simpl. rewrite IH. destruct (truthy c); [reflexivity|].
  simpl. unfold remove_column. apply length_map.
Qed.

Lemma clearEnemyGridColumns_length (g : grid) :
  length (snd (clearEnemyGridColumns g)) = length g.
Proof. unfold clearEnemyGridColumns. apply clear_columns_from_length. Qed.

Lemma changeEnemyDirection_length (toGoRight : bool) (g : grid) :
  length (changeEnemyDirection toGoRight g) = length g.
Proof. unfold changeEnemyDirection. apply length_map. Qed.

Lemma move_length (g : grid) : length (move g) = length g.
Proof.
  unfold move.
  destruct (rightBoundHit _), (leftBoundHit _);
    rewrite ?changeEnemyDirection_length; reflexivity.
Qed.

Lemma findBottomMostEnemies_nonempty (g : grid) :
  g <> [] -> exists l, findBottomMostEnemies g = Normal l.
Proof.
  intros Hg. destruct (nonempty_snoc g Hg) as (rows & row & ->).
  unfold findBottomMostEnemies. rewrite index_bottom. eauto.
Qed.

Lemma shoot_nonempty (random : nat -> Z) (g : grid) (pc : BulletControl.t) :
  g <> [] -> exists pc', shoot random g pc = Normal pc'.
Proof.
  intros Hg. destruct (findBottomMostEnemies_nonempty g Hg) as [l Hl].
  unfold shoot. rewrite Hl. simpl. eauto.
Qed.

(** A tick on a grid with a bottom row completes, and the grid it leaves
    has lost that row exactly when no cell of it was alive. *)
Lemma draw_snoc (random : nat -> Z) (rows : grid)
    (bottomRow : list (option Enemy.t)) (pc : BulletControl.t) :
  exists g' pc',
    draw random (rows ++ [bottomRow]) pc = Normal (g', pc')
    /\ length g' = if existsb alive bottomRow
                   then length (rows ++ [bottomRow]) else length rows.
Proof.
  unfold draw, draw_enemies. rewrite map_app. simpl map.
  rewrite clearEnemyGridRows_snoc, existsb_alive_fmap.
  set (rows' := map (map (fmap Enemy.draw)) rows).
  set (bottom' := map (fmap Enemy.draw) bottomRow).
  assert (Hlen : length rows' = length rows) by apply length_map.
  destruct (existsb alive bottomRow); simpl.
  - set (g1 := snd (clearEnemyGridColumns (rows' ++ [bottom']))).
    assert (H1 : length g1 = length (rows ++ [bottomRow])).
    { subst g1. rewrite clearEnemyGridColumns_length, !length_app, Hlen. reflexivity. }
    unfold anyEnemiesAlive.
    destruct (Nat.eqb_spec (length g1) 0) as [E|E].
    + rewrite length_app in H1. simpl in H1. lia.
    + destruct (shoot_nonempty random (move g1) pc) as [pc' Hpc'].
      { intros E'. apply E. rewrite <- (move_length g1), E'. reflexivity. }
      rewrite Hpc'. simpl. exists (move g1), pc'. split; [reflexivity|].
      rewrite move_length. exact H1.
  - set (g1 := snd (clearEnemyGridColumns rows')).
    assert (H1 : length g1 = length rows).
    { subst g1. rewrite clearEnemyGridColumns_length. exact Hlen. }
    unfold anyEnemiesAlive.
    destruct (Nat.eqb_spec (length g1) 0) as [E|E].
    + exists g1, pc. split; [reflexivity | exact H1].
    + destruct (shoot_nonempty random (move g1) pc) as [pc' Hpc'].
      { intros E'. apply E. rewrite <- (move_length g1), E'. reflexivity. }
      rewrite Hpc'. simpl. exists (move g1), pc'. split; [reflexivity|].
      rewrite move_length. exact H1.
Qed.

(** C9. When the bottom row of the grid is entirely dead,
    [clearEnemyGridRows] removes that row and no other, so the row count
    goes down by exactly one, in the call and in the whole tick; no call
    ever removes more than one row; and when the dead row was the only row
    the grid is left empty and [anyEnemiesAlive] returns 0. *)
Theorem clearEnemyGridRows_removes_dead_bottom_row
    (random : nat -> Z) (pc : BulletControl.t)
    (rows : grid) (bottomRow : list (option Enemy.t)) :
  Forall (fun c => c = None) bottomRow ->
  let g := rows ++ [bottomRow] in
  clearEnemyGridRows g = Normal (true, rows)
  /\ length rows = (length g - 1)%nat
  /\ (exists g' pc', draw random g pc = Normal (g', pc')
                     /\ length g' = (length g - 1)%nat)
  /\ (forall g0 removed g1, clearEnemyGridRows g0 = Normal (removed, g1) ->
        (length g0 - 1 <= length g1 <= length g0)%nat)
  /\ (rows = [] ->
      anyEnemiesAlive rows = 0%nat
      /\ exists g' pc', draw random g pc = Normal (g', pc')
                        /\ anyEnemiesAlive g' = 0%nat).
Proof.
  intros Hdead g. subst g.
  pose proof (existsb_alive_dead bottomRow Hdead) as He.
  assert (Hlen : length rows = (length (rows ++ [bottomRow]) - 1)%nat).
  { rewrite length_app. simpl. lia. }
  split; [|split; [|split; [|split]]].
  - rewrite clearEnemyGridRows_snoc, He. reflexivity.
  - exact Hlen.
  - destruct (draw_snoc random rows bottomRow pc) as (g' & pc' & Hd & Hl).
    rewrite He in Hl. exists g', pc'. split; [exact Hd | lia].
  - intros g0 removed g1 Hc.
    destruct g0 as [|r0 g0'] using rev_ind; [discriminate Hc|].
    rewrite clearEnemyGridRows_snoc in Hc. rewrite length_app. simpl.
    destruct (existsb alive r0); inversion Hc; subst;
      rewrite ?length_app; simpl; lia.
  - intros ->. split; [reflexivity|].
    destruct (draw_snoc random [] bottomRow pc) as (g' & pc' & Hd & Hl).
    rewrite He in Hl. exists g', pc'. split; [exact Hd | exact Hl].
Qed.

Lemma clearEnemyGridRows_removes_dead_bottom_row_witness :
  clearEnemyGridRows
    [[Some (Enemy.new CANVAS.WIDTH CANVAS.HEIGHT 100 40)]; [None; None]]
  = Normal (true, [[Some (Enemy.new CANVAS.WIDTH CANVAS.HEIGHT 100 40)]]).
Proof.
  apply (clearEnemyGridRows_removes_dead_bottom_row
           (fun _ => 0%Z) (BulletControl.new CANVAS_object)
           [[Some (Enemy.new CANVAS.WIDTH CANVAS.HEIGHT 100 40)]] [None; None]).
  repeat constructor.
Defined.

(** A frame of the running game never reads the bottom row of an empty
    grid. *)
Lemma checkIfEnemyMovesPastPlayer_total (g : grid) :
  exists b, checkIfEnemyMovesPastPlayer g = Normal b.
Proof.
  unfold checkIfEnemyMovesPastPlayer, anyEnemiesAlive.
  destruct g as [|r g'] using rev_ind; [simpl; eauto|].
  destruct (Nat.eqb_spec (length (g' ++ [r])) 0); [eauto|].
  rewrite index_bottom. eauto.
Qed.

Lemma running_frame_total (random : nat -> Z) (w : Game.t) :
  exists w', Game.running_frame random w = Normal w'.
Proof.
  unfold Game.running_frame.
  destruct (Player.drawPlayer _ _) as [p bc].
  set (w1 := Game.set_Bulletcon bc (Game.set_player p (Game.drawGameUiComponents w))).
  destruct (Nat.eqb_spec (anyEnemiesAlive (Game.enemyGrid w1)) 0) as [E|E]; [eauto|].
  destruct (nonempty_snoc (Game.enemyGrid w1)) as (rows & row & Hg).
  { intros E'. apply E. rewrite E'. reflexivity. }
  rewrite Hg.
  destruct (draw_snoc random rows row (Game.enemyProjectileController w1))
    as (g' & pc' & Hd & _).
  rewrite Hd. simpl.
  match goal with
  | |- context [checkIfEnemyMovesPastPlayer ?g] =>
      destruct (checkIfEnemyMovesPastPlayer_total g) as [b Hb]; rewrite Hb
  end.
  simpl. eauto.
Qed.

(** C4 (as amended). On every grid with at least one row the operations of
    the grid controller, and the tick [draw] that calls them, complete
    without raising; the operations that never read the bottom row
    complete on every grid, the empty one included; and a frame of the game
    completes in every state, because it tests [anyEnemiesAlive] before it
    calls [draw]. *)
Theorem grid_operations_total :
  (forall random g pc, g <> [] ->
     terminates (clearEnemyGridRows g)
     /\ terminates (findBottomMostEnemies g)
     /\ terminates (shoot random g pc)
     /\ terminates (draw random g pc))
  /\ (forall g, terminates (checkIfEnemyMovesPastPlayer g))
  /\ (forall started again random w,
        terminates (Game.startGame started again random w)).
Proof.
  split; [|split].
  - intros random g pc Hg.
    destruct (nonempty_snoc g Hg) as (rows & row & ->).
    split; [|split; [|split]].
    + rewrite clearEnemyGridRows_snoc. destruct (existsb alive row); exact I.
    + destruct (findBottomMostEnemies_nonempty (rows ++ [row]) Hg) as [l ->]. exact I.
    + destruct (shoot_nonempty random (rows ++ [row]) pc Hg) as [pc' ->]. exact I.
    + destruct (draw_snoc random rows row pc) as (g' & pc' & -> & _). exact I.
  - intros g. destruct (checkIfEnemyMovesPastPlayer_total g) as [b ->]. exact I.
  - intros started again random w. unfold Game.startGame.
    destruct (Game.gameState w); try exact I.
    destruct (running_frame_total random w) as [w' ->]. exact I.
Qed.

(** C4, the statement as given fails: on the grid with no row
    [clearEnemyGridRows] raises a [TypeError], and so does the tick. *)
Lemma clearEnemyGridRows_raises_on_empty_grid :
  clearEnemyGridRows [] = Throw TypeError
  /\ draw (fun _ => 0%Z) [] (BulletControl.new CANVAS_object) = Throw TypeError
  /\ findBottomMostEnemies [] = Throw TypeError.
Proof. repeat split. Qed.

End GridRows.

(* ===================================================================== *)
(** * Collision of a player projectile with the grid *)
(* ===================================================================== *)

Section EnemyCollision.

Import Js EnemyGridController Spec Game.

Variable projectile : Bullet.t.

Lemma alter_after_insert {A} (f : A -> A) (l : list A) (i : nat) (x : A) :
  alter f i (<[i := x]> l) = <[i := f x]> l.
Proof.
  revert i. induction l as [|a l IH]; intros [|i]; simpl; try reflexivity.
  f_equal. apply IH.
Qed.

Lemma scan_step {A} (f : A -> A) (l : list A) (j : nat) (c : A) :
  l !! j = Some c ->
  <[j := f c]> (map f (take j l) ++ drop j l)
  = map f (take (S j) l) ++ drop (S j) l.
Proof.
  intros Hj.
  assert (Hlt : (j < length l)%nat) by (eapply lookup_lt_Some; eauto).
  rewrite (take_S_r l j c Hj), (drop_S l c j Hj), map_app. simpl.
  rewrite insert_app_r_alt by (rewrite length_map, length_take; lia).
  rewrite length_map, length_take.
  replace (j - j `min` length l)%nat with 0%nat by lia.
  simpl. rewrite <- app_assoc. reflexivity.
Qed.

Lemma scan_lookup {A} (f : A -> A) (l : list A) (j : nat) :
  (map f (take j l) ++ drop j l) !! j = l !! j.
Proof.
  destruct (decide (j < length l)%nat) as [Hlt|Hge].
  - rewrite lookup_app_r by (rewrite length_map, length_take; lia).
    rewrite length_map, length_take, lookup_drop. f_equal. lia.
  - rewrite (lookup_ge_None_2 l j) by lia.
    apply lookup_ge_None_2.
    rewrite length_app, length_map, length_take, length_drop. lia.
Qed.

Lemma scan_length {A} (f : A -> A) (l : list A) (j : nat) :
  length (map f (take j l) ++ drop j l) = length l.
Proof. rewrite length_app, length_map, length_take, length_drop. lia. Qed.

Lemma hits_in_row_snoc (row : list (option Enemy.t)) (c : option Enemy.t) :
  hits_in_row projectile (row ++ [c]) =
  (hits_in_row projectile row + if struck projectile c then 1 else 0)%nat.
Proof.
  unfold hits_in_row. rewrite filter_app, length_app. f_equal.
  destruct (struck projectile c) eqn:E.
  - rewrite filter_cons_True by exact E. reflexivity.
  - rewrite filter_cons_False by (rewrite E; discriminate). reflexivity.
Qed.

Lemma hits_snoc (g : grid) (row : list (option Enemy.t)) :
  hits projectile (g ++ [row]) =
  (hits projectile g + hits_in_row projectile row)%nat.
Proof.
  unfold hits. induction g as [|r g IH]; simpl; [lia|].
  rewrite IH. lia.
Qed.

(** One cell: what the callback does to the state reached after [j] cells
    of row [r]. *)
Lemma enemy_cell_callback_step (w0 : Game.t) (g : grid) (n r j : nat)
    (row0 : list (option Enemy.t)) (c : option Enemy.t) :
  (r < length g)%nat ->
  row0 !! j = Some c ->
  enemy_cell_callback projectile r c j
    (after_hits projectile (n + hits_in_row projectile (take j row0))
       (<[r := map (after_hit projectile) (take j row0) ++ drop j row0]> g) w0)
  = after_hits projectile (n + hits_in_row projectile (take (S j) row0))
      (<[r := map (after_hit projectile) (take (S j) row0) ++ drop (S j) row0]> g) w0.
Proof.
  intros Hr Hj.
  rewrite (take_S_r row0 j c Hj) at 1. rewrite hits_in_row_snoc.
  rewrite <- (scan_step (after_hit projectile) row0 j c Hj).
  destruct (struck projectile c) eqn:E.
  - assert (Ha : after_hit projectile c = None)
      by (unfold after_hit; rewrite E; reflexivity).
    rewrite Ha. unfold enemy_cell_callback.
    destruct c as [e|]; simpl in E; [rewrite E | discriminate E].
    unfold after_hits, set_scoreboard, set_enemyGrid, set_Bulletcon. simpl.
    replace (n + (hits_in_row projectile (take j row0) + 1))%nat
      with (S (n + hits_in_row projectile (take j row0))) by lia.
    rewrite !Nat.iter_succ. f_equal.
    unfold tombstone. rewrite alter_after_insert. reflexivity.
  - assert (Ha : after_hit projectile c = c)
      by (unfold after_hit; rewrite E; reflexivity).
    rewrite Ha, Nat.add_0_r.
    assert (Hcb : forall t, enemy_cell_callback projectile r c j t = t).
    { intros t. unfold enemy_cell_callback.
      destruct c as [e|]; simpl in E; [rewrite E|]; reflexivity. }
    rewrite Hcb. f_equal. f_equal.
    symmetry. apply list_insert_id. rewrite scan_lookup. exact Hj.
Qed.

(** One row: the inner [forEach]. *)
Lemma enemy_row_scan (w0 : Game.t) (g : grid) (n r : nat)
    (row0 : list (option Enemy.t)) :
  g !! r = Some row0 ->
  Js.forEach (row_of r) (enemy_cell_callback projectile r) (after_hits projectile n g w0)
  = after_hits projectile (n + hits_in_row projectile row0)
      (<[r := map (after_hit projectile) row0]> g) w0.
Proof.
  intros Hg.
  assert (Hr : (r < length g)%nat) by (eapply lookup_lt_Some; eauto).
  assert (Hlen : length (row_of r (after_hits projectile n g w0)) = length row0).
  { unfold row_of. simpl. rewrite Hg. reflexivity. }
  pose proof (forEach_invariant (row_of r) (enemy_cell_callback projectile r)
    (fun j t => (j <= length row0)%nat ->
       t = after_hits projectile (n + hits_in_row projectile (take j row0))
             (<[r := map (after_hit projectile) (take j row0) ++ drop j row0]> g) w0)
    (after_hits projectile n g w0)) as Hinv.
  rewrite Hlen in Hinv. rewrite Hinv; [| | |lia].
  - rewrite firstn_all, drop_all, app_nil_r. reflexivity.
  - intros _. rewrite take_0, drop_0. simpl. rewrite Nat.add_0_r.
    rewrite list_insert_id by exact Hg. reflexivity.
  - intros j t Hj Ht HSj. rewrite Ht by lia.
    unfold row_of at 1. simpl.
    rewrite list_lookup_insert_eq by exact Hr. simpl.
    rewrite scan_lookup.
    destruct (row0 !! j) as [c|] eqn:Hc.
    + apply enemy_cell_callback_step; assumption.
    + apply lookup_ge_None_1 in Hc. lia.
Qed.

(** The whole grid: the outer [forEach]. *)
Lemma enemyCollisionHandler_scan (w : Game.t) :
  enemyCollisionHandler projectile w
  = after_hits projectile (hits projectile (enemyGrid w))
      (map (map (after_hit projectile)) (enemyGrid w)) w.
Proof.
  unfold enemyCollisionHandler.
  pose proof (forEach_invariant enemyGrid
    (fun _ rowIndex w =>
       Js.forEach (row_of rowIndex) (enemy_cell_callback projectile rowIndex) w)
    (fun k t => (k <= length (enemyGrid w))%nat ->
       t = after_hits projectile (hits projectile (take k (enemyGrid w)))
             (map (map (after_hit projectile)) (take k (enemyGrid w))
              ++ drop k (enemyGrid w)) w)
    w) as Hinv.
  rewrite Hinv; [| | |lia].
  - rewrite firstn_all, drop_all, app_nil_r. reflexivity.
  - intros _. rewrite take_0, drop_0. simpl. destruct w. reflexivity.
  - intros k t Hk Ht HSk. rewrite Ht by lia.
    cbn [enemyGrid after_hits]. rewrite scan_lookup.
    destruct (enemyGrid w !! k) as [row0|] eqn:Hrow.
    + rewrite (enemy_row_scan _ _ _ _ row0) by (rewrite scan_lookup; exact Hrow).
      rewrite (scan_step (map (after_hit projectile)) (enemyGrid w) k row0 Hrow).
      rewrite (take_S_r (enemyGrid w) k row0 Hrow), hits_snoc. reflexivity.
    + apply lookup_ge_None_1 in Hrow. lia.
Qed.

Lemma score_after_hits (n : nat) (sb : Scoreboard.t) :
  Scoreboard.score (Nat.iter n (Scoreboard.addToScore 250) sb)
  = (Scoreboard.score sb + 250 * Z.of_nat n)%Z.
Proof.
  induction n as [|n IH]; [simpl; lia|].
  rewrite Nat.iter_succ. unfold Scoreboard.addToScore at 1. simpl Scoreboard.score.
  rewrite IH. lia.
Qed.

(** C2 (as amended). A projectile takes effect on every live cell it
    overlaps, not only on the first one in scan order: each overlapped live
    cell is tombstoned, the score goes up by 250 for each of them, the
    projectile is destroyed at each hit, and every other cell and every
    other part of the state is unchanged. With exactly one overlapped cell
    that is one tombstone and 250 points. *)
Theorem enemyCollisionHandler_strikes_every_overlapped_cell (w : Game.t) :
  let w' := enemyCollisionHandler projectile w in
  let n := hits projectile (enemyGrid w) in
  enemyGrid w' = map (map (after_hit projectile)) (enemyGrid w)
  /\ Scoreboard.score (scoreboard w')
     = (Scoreboard.score (scoreboard w) + 250 * Z.of_nat n)%Z
  /\ Bulletcon w'
     = Nat.iter n (BulletControl.destroyBullet projectile) (Bulletcon w)
  /\ gameState w' = gameState w
  /\ enemyProjectileController w' = enemyProjectileController w
  /\ health w' = health w
  /\ player w' = player w.
Proof.
  cbv zeta. rewrite enemyCollisionHandler_scan. unfold after_hits. simpl.
  rewrite score_after_hits. repeat split.
Qed.

End EnemyCollision.

(** C2, the statement as given fails: a projectile that overlaps two
    neighbouring enemies tombstones both and scores 500. *)
Lemma enemyCollisionHandler_strikes_two_cells :
  let e1 := Enemy.new CANVAS.WIDTH CANVAS.HEIGHT 100 100 in
  let e2 := Enemy.new CANVAS.WIDTH CANVAS.HEIGHT 140 100 in
  let projectile := Bullet.new 0 125 110 5 "player" in
  let w := Game.set_enemyGrid [[Some e1; Some e2]]
             (Game.set_Bulletcon
                (BulletControl.shoot 125 110 5 39 "player"
                   (Game.Bulletcon Game.initial)) Game.initial) in
  let w' := Game.enemyCollisionHandler projectile w in
  Game.collisionDetected e1 projectile = true
  /\ Game.collisionDetected e2 projectile = true
  /\ BulletControl.bullets (Game.Bulletcon w) = [projectile]
  /\ Game.enemyGrid w' = [[None; None]]
  /\ Scoreboard.score (Game.scoreboard w')
     = (Scoreboard.score (Game.scoreboard w) + 500)%Z
  /\ BulletControl.bullets (Game.Bulletcon w') = [].
Proof. cbv zeta. repeat split; vm_compute; reflexivity. Qed.

(* ===================================================================== *)
(** * Enemy grid: movement *)
(* ===================================================================== *)

Section Movement.

Import Js EnemyGridController Spec.

Lemma cell_at_nat (row : list (option Enemy.t)) (c : nat) :
  cell_at row (Z.of_nat c) = mjoin (row !! c).
Proof.
  unfold cell_at, Js.index.
  destruct (Z.ltb_spec (Z.of_nat c) 0); [lia|].
  rewrite Nat2Z.id. reflexivity.
Qed.

Lemma cell_at_last (row : list (option Enemy.t)) :
  cell_at row (Z.of_nat (length row) - 1) = mjoin (row !! (length row - 1)%nat).
Proof.
  destruct row as [|c row]; [reflexivity|].
  replace (Z.of_nat (length (c :: row)) - 1)%Z
    with (Z.of_nat (length (c :: row) - 1)) by (simpl; lia).
  apply cell_at_nat.
Qed.

Lemma enemy_at_lookup (g : grid) (r c : nat) (e : Enemy.t) :
  enemy_at g r c = Some e <->
  exists row, g !! r = Some row /\ row !! c = Some (Some e).
Proof.
  unfold enemy_at. split.
  - destruct (g !! r) as [row|] eqn:Hr; simpl; [|discriminate].
    destruct (row !! c) as [[e'|]|] eqn:Hc; simpl; try discriminate.
    intros [= ->]. eauto.
  - intros (row & -> & Hc). simpl. rewrite Hc. reflexivity.
Qed.

Lemma live_of_elem (g : grid) (row : list (option Enemy.t)) (e : Enemy.t) :
  row ∈ g -> Some e ∈ row -> live g e.
Proof.
  intros Hrow He.
  apply list_elem_of_lookup in Hrow as [r Hr].
  apply list_elem_of_lookup in He as [c Hc].
  exists r, c. apply enemy_at_lookup. eauto.
Qed.

Lemma elem_findLeftMostEnemies (g : grid) (e : Enemy.t) :
  e ∈ findLeftMostEnemies g <-> exists r, enemy_at g r 0 = Some e.
Proof.
  unfold findLeftMostEnemies. rewrite list_elem_of_omap. split.
  - intros (row & Hrow & He). apply list_elem_of_lookup in Hrow as [r Hr].
    exists r. unfold enemy_at. rewrite Hr. simpl.
    rewrite <- (cell_at_nat row 0). exact He.
  - intros (r & Hr). unfold enemy_at in Hr.
    destruct (g !! r) as [row|] eqn:Hg; simpl in Hr; [|discriminate].
    exists row. split; [eapply list_elem_of_lookup_2; eauto|].
    rewrite <- Hr. apply (cell_at_nat row 0).
Qed.

Lemma elem_findRightMostEnemies (n : nat) (g : grid) (e : Enemy.t) :
  rectangular n g ->
  e ∈ findRightMostEnemies g <-> exists r, enemy_at g r (n - 1) = Some e.
Proof.
  intros Hrect. unfold findRightMostEnemies. rewrite list_elem_of_omap.
  unfold rectangular in Hrect. rewrite Forall_lookup in Hrect. split.
  - intros (row & Hrow & He). apply list_elem_of_lookup in Hrow as [r Hr].
    exists r. unfold enemy_at. rewrite Hr. simpl.
    rewrite cell_at_last, (Hrect _ _ Hr) in He. exact He.
  - intros (r & Hr). unfold enemy_at in Hr.
    destruct (g !! r) as [row|] eqn:Hg; simpl in Hr; [|discriminate].
    exists row. split; [eapply list_elem_of_lookup_2; eauto|].
    rewrite cell_at_last, (Hrect _ _ Hg). exact Hr.
Qed.

Lemma live_findLeftMostEnemies (g : grid) (e : Enemy.t) :
  e ∈ findLeftMostEnemies g -> live g e.
Proof.
  unfold findLeftMostEnemies. rewrite list_elem_of_omap.
  intros (row & Hrow & He). apply list_elem_of_lookup in Hrow as [r Hr].
  exists r, 0%nat. unfold enemy_at. rewrite Hr. simpl.
  rewrite <- (cell_at_nat row 0). exact He.
Qed.

Lemma live_findRightMostEnemies (g : grid) (e : Enemy.t) :
  e ∈ findRightMostEnemies g -> live g e.
Proof.
  unfold findRightMostEnemies. rewrite list_elem_of_omap.
  intros (row & Hrow & He). apply list_elem_of_lookup in Hrow as [r Hr].
  exists r, (length row - 1)%nat. unfold enemy_at. rewrite Hr. simpl.
  rewrite <- cell_at_last. exact He.
Qed.

Lemma first_of_nonempty {A} (l : list A) (x : A) :
  x ∈ l -> exists x0, l !! 0%nat = Some x0.
Proof. destruct l as [|x0 l]; [intros H; inversion H | eauto]. Qed.

Lemma first_elem {A} (l : list A) (x : A) : l !! 0%nat = Some x -> x ∈ l.
Proof. intros H. eapply list_elem_of_lookup_2; eauto. Qed.

Lemma leftBoundHit_true (l : list Enemy.t) :
  leftBoundHit l = true <->
  exists e, l !! 0%nat = Some e /\ getLeftEdge e <= PADDING.SIDE.
Proof.
  unfold leftBoundHit. destruct (l !! 0%nat) as [e|].
  - rewrite leb_true. split; [eauto|]. intros (e' & [= <-] & H). exact H.
  - split; [discriminate|]. intros (e' & [=] & _).
Qed.

Lemma rightBoundHit_true (l : list Enemy.t) :
  rightBoundHit l = true <->
  exists e, l !! 0%nat = Some e /\ CANVAS.WIDTH - PADDING.SIDE <= getRightEdge e.
Proof.
  unfold rightBoundHit. destruct (l !! 0%nat) as [e|].
  - rewrite leb_true. split; [eauto|]. intros (e' & [= <-] & H). exact H.
  - split; [discriminate|]. intros (e' & [=] & _).
Qed.

Lemma turn_frame (toGoRight : bool) (e : Enemy.t) :
  Enemy.xPosition (turn toGoRight e) = Enemy.xPosition e
  /\ Enemy.width (turn toGoRight e) = Enemy.width e
  /\ Enemy.isGoingRight (turn toGoRight e) = toGoRight
  /\ Enemy.horizontalMoveSpeed (turn toGoRight e) = Enemy.horizontalMoveSpeed e
  /\ Enemy.verticalMoveSpeed (turn toGoRight e) = Enemy.verticalMoveSpeed e.
Proof.
  unfold turn, Enemy.moveDown.
  destruct toGoRight; simpl;
    destruct (Js.ltb 0 (Enemy.verticalMoveSpeed e)); simpl; repeat split.
Qed.

Lemma turn_right_edge (toGoRight : bool) (e : Enemy.t) :
  getRightEdge (turn toGoRight e) = getRightEdge e.
Proof.
  destruct (turn_frame toGoRight e) as (Hx & Hw & _).
  simpl. rewrite Hx, Hw. reflexivity.
Qed.

Lemma turn_bounced (toGoRight : bool) (e : Enemy.t) :
  0 < Enemy.verticalMoveSpeed e -> turn toGoRight e = bounced toGoRight e.
Proof.
  intros Hv. unfold turn, bounced, Enemy.moveDown.
  apply ltb_true in Hv.
  destruct toGoRight; simpl; rewrite Hv; reflexivity.
Qed.

Lemma grid_map_ext (f h : Enemy.t -> Enemy.t) (g : grid) :
  (forall e, live g e -> f e = h e) ->
  map (map (fmap f)) g = map (map (fmap h)) g.
Proof.
  intros Hext. apply map_ext_in. intros row Hrow.
  apply map_ext_in. intros [e|] He; [|reflexivity].
  simpl. f_equal. apply Hext.
  apply (live_of_elem g row e); apply list_elem_of_In; assumption.
Qed.

Lemma enemy_at_map (f : Enemy.t -> Enemy.t) (g : grid) (r c : nat) :
  enemy_at (map (map (fmap f)) g) r c = f <$> enemy_at g r c.
Proof.
  unfold enemy_at. rewrite list_lookup_fmap.
  destruct (g !! r) as [row|]; simpl; [|reflexivity].
  rewrite list_lookup_fmap.
  destruct (row !! c) as [[e|]|]; reflexivity.
Qed.

(** When the left check fires on a grid that fits between the bounds, the
    right check does not. *)
Lemma left_hit_excludes_right (g : grid) :
  fits_between_bounds g ->
  leftBoundHit (findLeftMostEnemies g) = true ->
  rightBoundHit (map (turn true) (findRightMostEnemies g)) = false
  /\ rightBoundHit (findRightMostEnemies g) = false.
Proof.
  intros Hfits Hleft.
  apply leftBoundHit_true in Hleft as (e1 & H1 & Hedge).
  apply first_elem, live_findLeftMostEnemies in H1.
  assert (Hall : forall e2, e2 ∈ findRightMostEnemies g ->
                   ~ CANVAS.WIDTH - PADDING.SIDE <= getRightEdge e2).
  { intros e2 H2 Habs. apply live_findRightMostEnemies in H2.
    pose proof (Hfits e1 e2 H1 H2) as Hf.
    unfold CANVAS.WIDTH, PADDING.SIDE in *. lra. }
  split; apply not_true_iff_false; rewrite rightBoundHit_true;
    intros (e2 & H2 & Hedge2).
  - rewrite list_lookup_fmap in H2.
    destruct (findRightMostEnemies g !! 0%nat) as [e2'|] eqn:H2'; [|discriminate].
    simpl in H2. injection H2 as <-.
    rewrite turn_right_edge in Hedge2.
    apply (Hall e2'); [eapply first_elem; eauto | exact Hedge2].
  - apply (Hall e2); [eapply first_elem; eauto | exact Hedge2].
Qed.

Lemma move_when_left_hit (g : grid) :
  fits_between_bounds g ->
  leftBoundHit (findLeftMostEnemies g) = true ->
  move g = changeEnemyDirection true g.
Proof.
  intros Hfits Hl. destruct (left_hit_excludes_right g Hfits Hl) as [Hno _].
  unfold move, rightMost_seen_by_second_check. rewrite Hl, Hno. reflexivity.
Qed.

Lemma move_when_right_hit (g : grid) :
  leftBoundHit (findLeftMostEnemies g) = false ->
  rightBoundHit (findRightMostEnemies g) = true ->
  move g = changeEnemyDirection false g.
Proof.
  intros Hl Hr.
  unfold move, rightMost_seen_by_second_check. rewrite Hl, Hr. reflexivity.
Qed.


(** Why the width of the wave matters: the two checks are two [if]
    statements with no [else] between them. A row wider than the corridor,
    which no wave of the game is, would touch both bounds, both checks
    would take effect in one call, and the row would descend twice and end
    up moving left. *)
Lemma move_wider_than_corridor :
  let a := Enemy.set_dir false (Enemy.new CANVAS.WIDTH CANVAS.HEIGHT 50 40) in
  let b := Enemy.set_dir false (Enemy.new CANVAS.WIDTH CANVAS.HEIGHT 560 40) in
  let g := [[Some a; Some b]] in
  leftBoundHit (findLeftMostEnemies g) = true
  /\ rightBoundHit (rightMost_seen_by_second_check g) = true
  /\ move g = changeEnemyDirection false (changeEnemyDirection true g)
  /\ map (map (fmap Enemy.isGoingRight)) (move g) = [[Some false; Some false]]
  /\ map (map (fmap Enemy.yPosition)) (move g) = [[Some (40 + 20 + 20); Some (40 + 20 + 20)]].
Proof. cbv zeta. repeat split. Qed.

(** In formation the first cell of a list stands for all of them. *)
Lemma first_cell_at_left_bound (n : nat) (g : grid) :
  formation n g ->
  (exists e, e ∈ findLeftMostEnemies g /\ getLeftEdge e <= PADDING.SIDE) ->
  leftBoundHit (findLeftMostEnemies g) = true.
Proof.
  intros Hf (e & He & Hedge).
  destruct (first_of_nonempty _ _ He) as [e0 H0].
  pose proof (first_elem _ _ H0) as He0.
  apply elem_findLeftMostEnemies in He as [r Hr].
  apply elem_findLeftMostEnemies in He0 as [r0 Hr0].
  pose proof (formation_columns n g Hf _ _ _ _ _ Hr0 Hr) as Hx.
  apply leftBoundHit_true. exists e0. split; [exact H0|].
  simpl in *. lra.
Qed.

Lemma first_cell_at_right_bound (n : nat) (g : grid) :
  formation n g ->
  (exists e, e ∈ findRightMostEnemies g
             /\ CANVAS.WIDTH - PADDING.SIDE <= getRightEdge e) ->
  rightBoundHit (findRightMostEnemies g) = true.
Proof.
  intros Hf (e & He & Hedge).
  destruct (first_of_nonempty _ _ He) as [e0 H0].
  pose proof (first_elem _ _ H0) as He0.
  pose proof (live_findRightMostEnemies _ _ He) as Le.
  pose proof (live_findRightMostEnemies _ _ He0) as Le0.
  apply (elem_findRightMostEnemies n g e (formation_rect n g Hf)) in He as [r Hr].
  apply (elem_findRightMostEnemies n g e0 (formation_rect n g Hf)) in He0 as [r0 Hr0].
  pose proof (formation_columns n g Hf _ _ _ _ _ Hr0 Hr) as Hx.
  destruct (formation_uniform n g Hf _ _ Le0 Le) as (_ & _ & Hw).
  apply rightBoundHit_true. exists e0. split; [exact H0|].
  simpl in *. lra.
Qed.

Lemma changeEnemyDirection_bounced (n : nat) (g : grid) (d : bool) :
  formation n g ->
  changeEnemyDirection d g = map (map (fmap (bounced d))) g.
Proof.
  intros Hf. unfold changeEnemyDirection. apply grid_map_ext.
  intros e He. apply turn_bounced, (formation_step n g Hf), He.
Qed.


(** Why the alignment of the columns matters: [move] looks only at the
    first enemy of the left-most list. Were the first cells of two rows to
    stand at different x, which the cells of a column of a wave never do,
    the lower one could be past the left bound while the upper one is not,
    and no cell would change. *)
Lemma move_reads_first_cell_only :
  let a := Enemy.set_dir false (Enemy.new CANVAS.WIDTH CANVAS.HEIGHT 100 40) in
  let b := Enemy.set_dir false (Enemy.new CANVAS.WIDTH CANVAS.HEIGHT 50 80) in
  let g := [[Some a]; [Some b]] in
  findLeftMostEnemies g = [a; b]
  /\ getLeftEdge b <= PADDING.SIDE
  /\ move g = g
  /\ map (map (fmap Enemy.isGoingRight)) (move g) = [[Some false]; [Some false]]
  /\ map (map (fmap Enemy.yPosition)) (move g) = [[Some 40]; [Some 80]].
Proof. cbv zeta. repeat split. discriminate. Qed.

End Movement.

(* ===================================================================== *)
(** * Enemy grid: columns *)
(* ===================================================================== *)

Section GridColumns.

Import Js EnemyGridController Spec.

Lemma length_splice1 {A} (k : nat) (l : list A) :
  length (Js.splice1 k l)
  = if decide (k < length l)%nat then (length l - 1)%nat else length l.
Proof.
  unfold Js.splice1. rewrite delete_take_drop, length_app, length_take, length_drop.
  destruct (decide (k < length l)%nat); lia.
Qed.

Lemma remove_column_rectangular (n k : nat) (g : grid) :
  rectangular n g ->
  rectangular (if decide (k < n)%nat then n - 1 else n) (remove_column k g).
Proof.
  unfold rectangular, remove_column. intros Hrect.
  apply Forall_map. eapply Forall_impl; [exact Hrect|].
  intros row Hrow. simpl in Hrow. rewrite length_splice1, Hrow. reflexivity.
Qed.

Lemma clear_columns_from_rectangular (tr : list tracker_entry) (k n : nat)
    (st : bool * grid) :
  rectangular n (snd st) ->
  exists m, (m <= n)%nat /\ rectangular m (snd (clear_columns_from tr k st)).
Proof.
  revert k n st. induction tr as [|c tr IH]; intros k n st Hrect.
  - exists n. split; [lia | exact Hrect].
  - simpl. destruct (truthy c).
    + apply IH. exact Hrect.
    + destruct (IH (S k) (if decide (k < n)%nat then (n - 1)%nat else n)
                  (true, remove_column k (snd st))) as (m & Hm & Hr).
      { apply remove_column_rectangular. exact Hrect. }
      exists m. split; [|exact Hr].
      destruct (decide (k < n)%nat); lia.
Qed.

(** C1 (fails on the code). The pass keeps rows of equal length, but it
    removes columns by the indices they had before the pass while every
    removal shifts the later columns one place to the left. With two dead
    columns side by side the second removal therefore takes the live column
    that follows them and leaves a dead column in the grid: from one row
    dead, dead, live only a dead cell remains (a row that one projectile
    overlapping two neighbours produces), and in a fresh wave whose
    first two columns are dead the column at x = 180 is deleted although
    all its enemies are alive, while column 0 of the result is entirely
    dead. *)
Theorem clearEnemyGridColumns_keeps_dead_column :
  (forall n g, rectangular n g ->
     exists m, (m <= n)%nat /\ rectangular m (snd (clearEnemyGridColumns g)))
  /\ clearEnemyGridColumns
       [[None; None; Some (Enemy.new CANVAS.WIDTH CANVAS.HEIGHT 180 40)]]
     = (true, [[None]])
  /\ (let e := Enemy.new CANVAS.WIDTH CANVAS.HEIGHT in
      let projectile := Bullet.new 0 125 50 5 "player" in
      let w := Game.set_enemyGrid [[Some (e 100 40); Some (e 140 40); Some (e 180 40)]]
                 Game.initial in
      let hit := Game.enemyGrid (Game.enemyCollisionHandler projectile w) in
      hit = [[None; None; Some (e 180 40)]]
      /\ snd (clearEnemyGridColumns hit) = [[None]])
  /\ (let g := map (fun row => <[1%nat := None]> (<[0%nat := None]> row))
                 createEnemies in
      let g' := snd (clearEnemyGridColumns g) in
      rectangular 11 g
      /\ column_dead g 0 = true
      /\ column_dead g 1 = true
      /\ column_dead g 2 = false
      /\ rectangular 9 g'
      /\ column_dead g' 0 = true
      /\ map (map (fmap Enemy.xPosition)) g'
         = replicate 5 [None; Some 220; Some 260; Some 300; Some 340;
                        Some 380; Some 420; Some 460; Some 500]).
Proof.
  split; [|split; [|split]].
  - intros n g Hrect. unfold clearEnemyGridColumns.
    apply clear_columns_from_rectangular. exact Hrect.
  - vm_compute. reflexivity.
  - cbv zeta. split; vm_compute; reflexivity.
  - cbv zeta.
    split; [repeat constructor|].
    split; [vm_compute; reflexivity|].
    split; [vm_compute; reflexivity|].
    split; [vm_compute; reflexivity|].
    split; [vm_compute; repeat constructor|].
    split; vm_compute; reflexivity.
Qed.

End GridColumns.

(* ===================================================================== *)
(** * Double arithmetic: how far a rounded sum is from the exact one *)
(* ===================================================================== *)

Section Doubles.

Import Js.

Lemma pow2_pos (e : Z) : 0 < pow2 e.
Proof. apply Qpower_0_lt. reflexivity. Qed.

Lemma pow2_of_nat (n : Z) : (0 <= n)%Z -> pow2 n == inject_Z (2 ^ n).
Proof. intros Hn. unfold pow2. rewrite Zpower_Qpower by exact Hn. reflexivity. Qed.

(** [binade q] is the binade of [q]: 2^e <= q < 2^(e+1). *)
Lemma binade_below (q : Q) : 0 < q -> pow2 (binade q) <= q.
Proof.
  intros Hq. unfold binade. destruct q as [a b].
  cbn [Qnum Qden].
  assert (Ha : (0 < a)%Z).
  { unfold Qlt in Hq. simpl in Hq. lia. }
  destruct (Qle_bool _ _) eqn:E; [apply Qle_bool_iff, E|].
  pose proof (Z.log2_spec a Ha) as [Hla _].
  pose proof (Z.log2_spec (Z.pos b) (Pos2Z.is_pos b)) as [_ Hlb].
  pose proof (Z.log2_nonneg a) as Hna.
  pose proof (Z.log2_nonneg (Z.pos b)) as Hnb.
  set (la := Z.log2 a) in *. set (lb := Z.log2 (Z.pos b)) in *.
  replace (la - lb - 1)%Z with (la - Z.succ lb)%Z by lia.
  unfold pow2. rewrite Qpower_minus by discriminate.
  fold (pow2 la). fold (pow2 (Z.succ lb)).
  rewrite !pow2_of_nat by lia. rewrite (Qmake_Qdiv a b).
  assert (Hb : 0 < inject_Z (Z.pos b)) by reflexivity.
  assert (HB : 0 < inject_Z (2 ^ Z.succ lb)).
  { change 0 with (inject_Z 0). rewrite <- Zlt_Qlt. lia. }
  apply Qle_shift_div_r; [exact HB|].
  unfold Qdiv. rewrite <- Qmult_assoc, (Qmult_comm (/ _)), Qmult_assoc.
  apply Qle_shift_div_l; [exact Hb|].
  rewrite <- !inject_Z_mult, <- Zle_Qle. nia.
Qed.

Lemma binade_above (q : Q) : 0 < q -> q < pow2 (binade q + 1).
Proof.
  intros Hq. unfold binade. destruct q as [a b].
  cbn [Qnum Qden].
  assert (Ha : (0 < a)%Z).
  { unfold Qlt in Hq. simpl in Hq. lia. }
  destruct (Qle_bool _ _) eqn:E.
  - pose proof (Z.log2_spec a Ha) as [_ Hla].
    pose proof (Z.log2_spec (Z.pos b) (Pos2Z.is_pos b)) as [Hlb _].
    pose proof (Z.log2_nonneg a) as Hna.
    pose proof (Z.log2_nonneg (Z.pos b)) as Hnb.
    set (la := Z.log2 a) in *. set (lb := Z.log2 (Z.pos b)) in *.
    replace (la - lb + 1)%Z with (Z.succ la - lb)%Z by lia.
    unfold pow2. rewrite Qpower_minus by discriminate.
    fold (pow2 (Z.succ la)). fold (pow2 lb).
    rewrite !pow2_of_nat by lia. rewrite (Qmake_Qdiv a b).
    assert (Hb : 0 < inject_Z (Z.pos b)) by reflexivity.
    assert (HB : 0 < inject_Z (2 ^ lb)).
    { change 0 with (inject_Z 0). rewrite <- Zlt_Qlt. lia. }
    apply Qlt_shift_div_r; [exact Hb|].
    unfold Qdiv. rewrite <- Qmult_assoc, (Qmult_comm (/ _)), Qmult_assoc.
    apply Qlt_shift_div_l; [exact HB|].
    rewrite <- !inject_Z_mult, <- Zlt_Qlt. nia.
  - match goal with
    | |- _ < pow2 (?d - 1 + 1) => replace (d - 1 + 1)%Z with d by lia
    end.
    apply Qnot_le_lt. intros Hle. apply Qle_bool_iff in Hle.
    rewrite Hle in E. discriminate E.
Qed.

Lemma nearest_even_near (t : Q) :
  - (1 # 2) <= inject_Z (nearest_even t) - t <= 1 # 2.
Proof.
  unfold nearest_even.
  pose proof (Qfloor_le t) as Hlo. pose proof (Qlt_floor t) as Hhi.
  rewrite inject_Z_plus in Hhi. change (inject_Z 1) with 1 in Hhi.
  destruct (Qcompare_spec (t - inject_Z (Qfloor t)) (1 # 2)) as [E|E|E].
  - destruct (Z.even (Qfloor t)); [|rewrite inject_Z_plus; change (inject_Z 1) with 1];
      lra.
  - lra.
  - rewrite inject_Z_plus. change (inject_Z 1) with 1. lra.
Qed.

(** A number below 2^m in size is rounded by at most half a unit of its
    last place, which is 2^(m-54) at most. *)
Lemma round64_error (m : Z) (q : Q) :
  (-1021 <= m)%Z -> Qabs q < pow2 m ->
  Qabs (round64 q - q) <= pow2 (m - 54).
Proof.
  intros Hm Hq. unfold round64.
  destruct (Qeq_bool q 0) eqn:E.
  - apply Qeq_bool_eq in E. rewrite E. apply Qlt_le_weak, pow2_pos.
  - apply Qeq_bool_neq in E.
    assert (Hpos : 0 < Qabs q).
    { apply Qabs_case; intros Hs.
      - apply Qle_lt_or_eq in Hs as [Hs|Hs]; [exact Hs|].
        exfalso. apply E. symmetry. exact Hs.
      - apply Qle_lt_or_eq in Hs as [Hs|Hs]; [lra|].
        exfalso. apply E. exact Hs. }
    set (e := (Z.max (binade (Qabs q)) (-1022) - 52)%Z).
    assert (He : (e - 1 <= m - 54)%Z).
    { assert (binade (Qabs q) < m)%Z; [|lia].
      apply (Qpower_lt_compat_l_inv 2); [|reflexivity].
      eapply Qle_lt_trans; [apply binade_below, Hpos | exact Hq]. }
    rewrite Qred_correct.
    pose proof (pow2_pos e) as Hp.
    pose proof (nearest_even_near (q / pow2 e)) as [Hlo Hhi].
    set (z := inject_Z (nearest_even (q / pow2 e))) in *.
    assert (Hq' : q == (q / pow2 e) * pow2 e).
    { field. intros H0. rewrite H0 in Hp. discriminate Hp. }
    set (t := q / pow2 e) in *.
    assert (Hhalf : pow2 e * (1 # 2) == pow2 (e - 1)).
    { unfold pow2. rewrite Qpower_minus by discriminate. reflexivity. }
    apply Qle_trans with (pow2 (e - 1)).
    + rewrite <- Hhalf. apply Qabs_Qle_condition.
      assert (H1 : 0 <= (z - t + (1 # 2)) * pow2 e)
        by (apply Qmult_le_0_compat; lra).
      assert (H2 : 0 <= ((1 # 2) - (z - t)) * pow2 e)
        by (apply Qmult_le_0_compat; lra).
      lra.
    + apply Qpower_le_compat_l; [exact He | discriminate].
Qed.

(** Below 2^27 a rounded number is within 2^-27 of the exact one. *)
Lemma round64_near (q : Q) :
  - 134217728 < q -> q < 134217728 ->
  q - (1 # 134217728) <= round64 q /\ round64 q <= q + (1 # 134217728).
Proof.
  intros Hlo Hhi.
  assert (H : Qabs (round64 q - q) <= pow2 (27 - 54)).
  { apply round64_error; [lia|].
    apply Qabs_case; intros; change (pow2 27) with (134217728 # 1); lra. }
  apply Qabs_Qle_condition in H.
  change (pow2 (27 - 54)) with (1 # 134217728) in H. lra.
Qed.

(** The double [0.3]. *)
Lemma step_size :
  round64 (3 # 10) = 5404319552844595 # 18014398509481984.
Proof. vm_compute. reflexivity. Qed.

(** The rounding at work: 0.1 + 0.2 is 0.30000000000000004, and 300 moves
    take an enemy from x = 460 to 549.9999999999962, short of the 550 of
    exact arithmetic. *)
Lemma double_arithmetic_at_work :
  add (round64 (1 # 10)) (round64 (2 # 10))
  = 1351079888211149 # 4503599627370496
  /\ Enemy.xPosition
       (Nat.iter 300 Enemy.move (Enemy.new CANVAS.WIDTH CANVAS.HEIGHT 460 40))
     = 4837851162214367 # 8796093022208
  /\ 4837851162214367 # 8796093022208 < 550.
Proof. repeat split; vm_compute; reflexivity. Qed.

End Doubles.

(* ===================================================================== *)
(** * The formation is an invariant of the game *)
(* ===================================================================== *)

Section Formation.

Import Js EnemyGridController Spec.

Lemma live_map (f : Enemy.t -> Enemy.t) (g : grid) (e' : Enemy.t) :
  live (map (map (fmap f)) g) e' -> exists e, live g e /\ e' = f e.
Proof.
  intros (r & c & H). rewrite enemy_at_map in H.
  destruct (enemy_at g r c) as [e|] eqn:He; simpl in H; [|discriminate].
  injection H as <-. exists e. split; [exists r, c; exact He | reflexivity].
Qed.

Lemma rectangular_map_cells (f : option Enemy.t -> option Enemy.t) (n : nat) (g : grid) :
  rectangular n g -> rectangular n (map (map f) g).
Proof.
  unfold rectangular. intros Hrect. apply Forall_map.
  eapply Forall_impl; [exact Hrect|]. intros row Hrow. simpl in *.
  rewrite length_map. exact Hrow.
Qed.

Lemma reach_succ (k : nat) : reach (S k) == reach k + 1.
Proof.
  unfold reach. rewrite Nat2Z.inj_succ. unfold Z.succ.
  rewrite inject_Z_plus. change (inject_Z 1) with 1. ring.
Qed.

Lemma drift_succ (k : nat) : drift (S k) == drift k + (1 # 67108864).
Proof.
  unfold drift. rewrite Nat2Z.inj_succ. unfold Z.succ.
  rewrite inject_Z_plus. change (inject_Z 1) with 1. ring.
Qed.

Lemma count_bounds (k : nat) :
  (Z.of_nat k <= long_session)%Z ->
  0 <= inject_Z (Z.of_nat k) /\ inject_Z (Z.of_nat k) <= 100000000.
Proof.
  unfold long_session. intros Hk.
  change 0 with (inject_Z 0). change 100000000 with (inject_Z 100000000).
  rewrite <- !Zle_Qle. lia.
Qed.

Lemma count_mono (k k' : nat) :
  (k <= k')%nat -> inject_Z (Z.of_nat k) <= inject_Z (Z.of_nat k').
Proof. intros Hk. rewrite <- Zle_Qle. lia. Qed.

(** A grid whose live cells all come from another grid, rows to rows and
    columns to columns, inherits what the other keeps. *)
Lemma marching_embed (k n m : nat) (g g' : grid) (fr fc : nat -> nat) :
  marching k n g ->
  rectangular m g' ->
  (forall r c e, enemy_at g' r c = Some e -> enemy_at g (fr r) (fc c) = Some e) ->
  marching k m g'.
Proof.
  intros [[Hrect Hcols Hdir Hstock] Hranged] Hrect' Hemb.
  assert (Hlive : forall e, live g' e -> live g e).
  { intros e (r & c & H). exists (fr r), (fc c). apply Hemb, H. }
  split; [split|].
  - exact Hrect'.
  - intros r1 r2 c e1 e2 H1 H2.
    apply (Hcols (fr r1) (fr r2) (fc c)); apply Hemb; assumption.
  - intros e1 e2 L1 L2. apply Hdir; apply Hlive; assumption.
  - intros e L. apply Hstock, Hlive, L.
  - intros Hk. destruct (Hranged Hk) as [Hreach Hspread]. split.
    + intros e L. apply Hreach, Hlive, L.
    + intros e1 e2 L1 L2. apply Hspread; apply Hlive; assumption.
Qed.

Lemma marching_mono (k k' n : nat) (g : grid) :
  (k <= k')%nat -> marching k n g -> marching k' n g.
Proof.
  intros Hk [Hal Hranged]. split; [exact Hal|]. intros Hk'.
  destruct Hranged as [Hreach Hspread]; [lia|].
  pose proof (count_mono k k' Hk) as Hc. split.
  - intros e L. destruct (Hreach e L). unfold reach in *. split; lra.
  - intros e1 e2 L1 L2. pose proof (Hspread e1 e2 L1 L2).
    unfold drift in *. lra.
Qed.

Lemma animate_set_frame (e : Enemy.t) :
  exists fi fc, Enemy.animate e = Enemy.set_frame fi fc e.
Proof.
  unfold Enemy.animate.
  destruct (Enemy.maxFrameCount e <? Enemy.frameCount e + 1)%Z; eauto.
Qed.

Lemma draw_frame_enemy (e : Enemy.t) :
  Enemy.width (Enemy.draw e) = Enemy.width e
  /\ Enemy.horizontalMoveSpeed (Enemy.draw e) = Enemy.horizontalMoveSpeed e
  /\ Enemy.verticalMoveSpeed (Enemy.draw e) = Enemy.verticalMoveSpeed e
  /\ Enemy.isGoingRight (Enemy.draw e) = Enemy.isGoingRight e
  /\ Enemy.xPosition (Enemy.draw e)
     = if Enemy.isGoingRight e
       then Js.add (Enemy.xPosition e) (Enemy.horizontalMoveSpeed e)
       else Js.sub (Enemy.xPosition e) (Enemy.horizontalMoveSpeed e).
Proof.
  unfold Enemy.draw. destruct (animate_set_frame e) as (fi & fc & ->).
  unfold Enemy.move. simpl.
  destruct (Enemy.isGoingRight e) eqn:E; simpl; repeat split; exact E.
Qed.

(** One move of an enemy of stock make that is within reach: it goes the
    double 0.3 to its side, give or take 2^-27. *)
Lemma draw_moves_enemy (k : nat) (e : Enemy.t) :
  (Z.of_nat k <= long_session)%Z ->
  stock e ->
  - reach k <= Enemy.xPosition e -> Enemy.xPosition e <= reach k ->
  let step := if Enemy.isGoingRight e
              then 5404319552844595 # 18014398509481984
              else - (5404319552844595 # 18014398509481984) in
  Enemy.xPosition e + step - (1 # 134217728) <= Enemy.xPosition (Enemy.draw e)
  /\ Enemy.xPosition (Enemy.draw e) <= Enemy.xPosition e + step + (1 # 134217728).
Proof.
  intros Hk (_ & Hs & _) Hlo Hhi.
  destruct (draw_frame_enemy e) as (_ & _ & _ & _ & ->).
  rewrite Hs, step_size.
  destruct (count_bounds k Hk) as [Hk0 Hk1]. unfold reach in *.
  destruct (Enemy.isGoingRight e); unfold Js.add, Js.sub; cbv zeta.
  - destruct (round64_near (Enemy.xPosition e + (5404319552844595 # 18014398509481984)));
      [lra | lra | split; lra].
  - destruct (round64_near (Enemy.xPosition e - (5404319552844595 # 18014398509481984)));
      [lra | lra | split; lra].
Qed.

Lemma marching_draw_enemies (k n : nat) (g : grid) :
  marching k n g -> marching (S k) n (draw_enemies g).
Proof.
  intros [[Hrect Hcols Hdir Hstock] Hranged]. unfold draw_enemies.
  assert (Hat : forall r c e', enemy_at (map (map (fmap Enemy.draw)) g) r c = Some e' ->
                  exists e, enemy_at g r c = Some e /\ e' = Enemy.draw e).
  { intros r c e'. rewrite enemy_at_map.
    destruct (enemy_at g r c) as [e|]; simpl; [|discriminate].
    intros [= <-]. eauto. }
  split; [split|].
  - apply rectangular_map_cells, Hrect.
  - intros r1 r2 c e1' e2' H1 H2.
    destruct (Hat _ _ _ H1) as (e1 & He1 & ->).
    destruct (Hat _ _ _ H2) as (e2 & He2 & ->).
    assert (L1 : live g e1) by (exists r1, c; exact He1).
    assert (L2 : live g e2) by (exists r2, c; exact He2).
    destruct (draw_frame_enemy e1) as (_ & _ & _ & _ & ->).
    destruct (draw_frame_enemy e2) as (_ & _ & _ & _ & ->).
    rewrite (Hcols _ _ _ _ _ He1 He2), (Hdir e1 e2 L1 L2).
    destruct (Hstock e1 L1) as (_ & -> & _).
    destruct (Hstock e2 L2) as (_ & -> & _). reflexivity.
  - intros e1' e2' L1 L2.
    destruct (live_map _ _ _ L1) as (e1 & Le1 & ->).
    destruct (live_map _ _ _ L2) as (e2 & Le2 & ->).
    destruct (draw_frame_enemy e1) as (_ & _ & _ & -> & _).
    destruct (draw_frame_enemy e2) as (_ & _ & _ & -> & _).
    apply Hdir; assumption.
  - intros e' L. destruct (live_map _ _ _ L) as (e & Le & ->).
    unfold stock. destruct (draw_frame_enemy e) as (-> & -> & -> & _).
    apply Hstock, Le.
  - intros Hk.
    assert (Hk' : (Z.of_nat k <= long_session)%Z) by lia.
    destruct (Hranged Hk') as [Hreach Hspread].
    pose proof (reach_succ k) as HR. pose proof (drift_succ k) as HD.
    split.
    + intros e' L. destruct (live_map _ _ _ L) as (e & Le & ->).
      destruct (Hreach e Le) as [Hlo Hhi].
      destruct (draw_moves_enemy k e Hk' (Hstock e Le) Hlo Hhi) as [H1 H2].
      destruct (Enemy.isGoingRight e); cbv zeta in H1, H2; split; lra.
    + intros e1' e2' L1 L2.
      destruct (live_map _ _ _ L1) as (e1 & Le1 & ->).
      destruct (live_map _ _ _ L2) as (e2 & Le2 & ->).
      destruct (Hreach e1 Le1) as [Hlo1 Hhi1].
      destruct (Hreach e2 Le2) as [Hlo2 Hhi2].
      destruct (draw_moves_enemy k e1 Hk' (Hstock e1 Le1) Hlo1 Hhi1) as [H1 _].
      destruct (draw_moves_enemy k e2 Hk' (Hstock e2 Le2) Hlo2 Hhi2) as [_ H2].
      pose proof (Hspread e1 e2 Le1 Le2) as Hsp.
      rewrite (Hdir e1 e2 Le1 Le2) in H1.
      destruct (Enemy.isGoingRight e2); cbv zeta in H1, H2; lra.
Qed.

Lemma marching_changeEnemyDirection (k n : nat) (g : grid) (d : bool) :
  marching k n g -> marching k n (changeEnemyDirection d g).
Proof.
  intros [[Hrect Hcols Hdir Hstock] Hranged]. unfold changeEnemyDirection.
  assert (Hat : forall r c e', enemy_at (map (map (fmap (turn d))) g) r c = Some e' ->
                  exists e, enemy_at g r c = Some e /\ e' = turn d e).
  { intros r c e'. rewrite enemy_at_map.
    destruct (enemy_at g r c) as [e|]; simpl; [|discriminate].
    intros [= <-]. eauto. }
  split; [split|].
  - apply rectangular_map_cells, Hrect.
  - intros r1 r2 c e1' e2' H1 H2.
    destruct (Hat _ _ _ H1) as (e1 & He1 & ->).
    destruct (Hat _ _ _ H2) as (e2 & He2 & ->).
    destruct (turn_frame d e1) as (-> & _).
    destruct (turn_frame d e2) as (-> & _).
    apply (Hcols _ _ _ _ _ He1 He2).
  - intros e1' e2' L1 L2.
    destruct (live_map _ _ _ L1) as (e1 & Le1 & ->).
    destruct (live_map _ _ _ L2) as (e2 & Le2 & ->).
    destruct (turn_frame d e1) as (_ & _ & -> & _).
    destruct (turn_frame d e2) as (_ & _ & -> & _). reflexivity.
  - intros e' L. destruct (live_map _ _ _ L) as (e & Le & ->).
    destruct (turn_frame d e) as (_ & Hw & _ & Hs & Hv).
    unfold stock. rewrite Hw, Hs, Hv. apply Hstock, Le.
  - intros Hk. destruct (Hranged Hk) as [Hreach Hspread]. split.
    + intros e' L. destruct (live_map _ _ _ L) as (e & Le & ->).
      destruct (turn_frame d e) as (-> & _). apply Hreach, Le.
    + intros e1' e2' L1 L2.
      destruct (live_map _ _ _ L1) as (e1 & Le1 & ->).
      destruct (live_map _ _ _ L2) as (e2 & Le2 & ->).
      destruct (turn_frame d e1) as (-> & _).
      destruct (turn_frame d e2) as (-> & _).
      apply Hspread; assumption.
Qed.

Lemma marching_move (k n : nat) (g : grid) :
  marching k n g -> marching k n (move g).
Proof.
  intros Hf. unfold move.
  destruct (rightBoundHit _), (leftBoundHit _);
    repeat apply marching_changeEnemyDirection; exact Hf.
Qed.

Lemma rectangular_removelast (n : nat) (g : grid) :
  rectangular n g -> rectangular n (removelast g).
Proof.
  unfold rectangular. destruct g as [|row g'] using rev_ind; [auto|].
  rewrite removelast_last. intros H. apply Forall_app in H. tauto.
Qed.

Lemma enemy_at_removelast (g : grid) (r c : nat) (e : Enemy.t) :
  enemy_at (removelast g) r c = Some e -> enemy_at g r c = Some e.
Proof.
  destruct g as [|row g'] using rev_ind; [auto|].
  rewrite removelast_last. unfold enemy_at.
  destruct (g' !! r) as [row'|] eqn:Hr; simpl; [|discriminate].
  rewrite (lookup_app_l_Some _ _ _ _ Hr). simpl. auto.
Qed.

Lemma marching_clearEnemyGridRows (k n : nat) (g g' : grid) (removed : bool) :
  marching k n g ->
  clearEnemyGridRows g = Normal (removed, g') ->
  marching k n g'.
Proof.
  intros Hf Hc. unfold clearEnemyGridRows in Hc.
  destruct (Js.index g _) as [bottomRow|]; [|discriminate Hc].
  destruct (existsb alive bottomRow); injection Hc as <- <-; [exact Hf|].
  apply (marching_embed k n n g (Js.pop g) id id Hf).
  - apply rectangular_removelast, (aligned_rect n g (proj1 Hf)).
  - intros r c e. apply enemy_at_removelast.
Qed.

Lemma enemy_at_remove_column (k : nat) (g : grid) (r c : nat) :
  enemy_at (remove_column k g) r c
  = enemy_at g r (if decide (c < k)%nat then c else S c).
Proof.
  unfold enemy_at, remove_column. rewrite list_lookup_fmap.
  destruct (g !! r) as [row|]; simpl; [|reflexivity].
  unfold Js.splice1. rewrite list_lookup_delete. reflexivity.
Qed.

Lemma marching_clear_columns_from (tr : list tracker_entry) (k j n : nat)
    (st : bool * grid) :
  marching j n (snd st) ->
  exists m, marching j m (snd (clear_columns_from tr k st)).
Proof.
  revert k n st. induction tr as [|c tr IH]; intros k n st Hf.
  - exists n. exact Hf.
  - simpl. destruct (truthy c); [apply (IH _ n), Hf|].
    apply (IH _ (if decide (k < n)%nat then (n - 1)%nat else n)). simpl.
    apply (marching_embed j n _ (snd st) _ id
             (fun c => if decide (c < k)%nat then c else S c) Hf).
    + apply remove_column_rectangular, (aligned_rect n _ (proj1 Hf)).
    + intros r c0 e. rewrite enemy_at_remove_column. auto.
Qed.

Lemma marching_clearEnemyGridColumns (k n : nat) (g : grid) :
  marching k n g -> exists m, marching k m (snd (clearEnemyGridColumns g)).
Proof. intros Hf. apply (marching_clear_columns_from _ _ _ n). exact Hf. Qed.

Lemma enemy_at_after_hit (g : grid) (projectile : Bullet.t) (r c : nat)
    (e : Enemy.t) :
  enemy_at (map (map (after_hit projectile)) g) r c = Some e ->
  enemy_at g r c = Some e.
Proof.
  unfold enemy_at. rewrite list_lookup_fmap.
  destruct (g !! r) as [row|]; simpl; [|discriminate].
  rewrite list_lookup_fmap.
  destruct (row !! c) as [cell|]; simpl; [|discriminate].
  unfold after_hit. destruct (struck projectile cell); simpl; [discriminate | auto].
Qed.

Lemma marching_after_hit (k n : nat) (g : grid) (projectile : Bullet.t) :
  marching k n g -> marching k n (map (map (after_hit projectile)) g).
Proof.
  intros Hf. apply (marching_embed k n n g _ id id Hf).
  - apply rectangular_map_cells, (aligned_rect n g (proj1 Hf)).
  - intros r c e. apply enemy_at_after_hit.
Qed.

Lemma lookup_map {A B} (f : A -> B) (l : list A) (i : nat) :
  map f l !! i = f <$> l !! i.
Proof. apply list_lookup_fmap. Qed.

Lemma enemy_at_createEnemies (r c : nat) (e : Enemy.t) :
  enemy_at createEnemies r c = Some e ->
  (c < GRID_SIZE.COLUMNS)%nat
  /\ e = Enemy.new CANVAS.WIDTH CANVAS.HEIGHT
           (PADDING.SIDE + GRID_SPACING.HORIZONTAL * inject_Z (Z.of_nat (1 + c)))
           (GRID_SPACING.VERTICAL * inject_Z (Z.of_nat (1 + r))).
Proof.
  unfold enemy_at, createEnemies. rewrite lookup_map.
  destruct (seq 1 GRID_SIZE.ROWS !! r) as [i|] eqn:Hi;
    cbn [fmap option_fmap option_map mbind option_bind]; [|discriminate].
  apply lookup_seq in Hi as [-> Hr].
  rewrite lookup_map.
  destruct (seq 1 GRID_SIZE.COLUMNS !! c) as [j|] eqn:Hj;
    cbn [fmap option_fmap option_map mjoin option_join]; [|discriminate].
  apply lookup_seq in Hj as [-> Hc]. intros [= <-]. split; [exact Hc | reflexivity].
Qed.

Lemma column_number_bounds (c : nat) :
  (c < GRID_SIZE.COLUMNS)%nat ->
  1 <= inject_Z (Z.of_nat (1 + c)) /\ inject_Z (Z.of_nat (1 + c)) <= 11.
Proof.
  unfold GRID_SIZE.COLUMNS. intros Hc.
  change 1 with (inject_Z 1). change 11 with (inject_Z 11).
  rewrite <- !Zle_Qle. lia.
Qed.

(** A fresh wave: aligned, between x = 100 and x = 500. *)
Lemma marching_createEnemies (k : nat) :
  marching k GRID_SIZE.COLUMNS createEnemies.
Proof.
  apply (marching_mono 0 k); [lia|]. split; [split|].
  - unfold rectangular, createEnemies. apply Forall_map, Forall_forall.
    intros i _. rewrite length_map, length_seq. reflexivity.
  - intros r1 r2 c e1 e2 H1 H2.
    apply enemy_at_createEnemies in H1 as (_ & ->).
    apply enemy_at_createEnemies in H2 as (_ & ->). reflexivity.
  - intros e1 e2 (r1 & c1 & H1) (r2 & c2 & H2).
    apply enemy_at_createEnemies in H1 as (_ & ->).
    apply enemy_at_createEnemies in H2 as (_ & ->). reflexivity.
  - intros e (r & c & H). apply enemy_at_createEnemies in H as (_ & ->).
    repeat split.
  - intros _. split.
    + intros e (r & c & H). apply enemy_at_createEnemies in H as (Hc & ->).
      destruct (column_number_bounds c Hc) as [Hlo Hhi].
      set (q := inject_Z (Z.of_nat (1 + c))) in *. clearbody q.
      unfold reach. change (inject_Z (Z.of_nat 0)) with 0. simpl.
      unfold PADDING.SIDE, GRID_SPACING.HORIZONTAL. split; lra.
    + intros e1 e2 (r1 & c1 & H1) (r2 & c2 & H2).
      apply enemy_at_createEnemies in H1 as (Hc1 & ->).
      apply enemy_at_createEnemies in H2 as (Hc2 & ->).
      destruct (column_number_bounds c1 Hc1) as [Hlo1 Hhi1].
      destruct (column_number_bounds c2 Hc2) as [Hlo2 Hhi2].
      set (q1 := inject_Z (Z.of_nat (1 + c1))) in *.
      set (q2 := inject_Z (Z.of_nat (1 + c2))) in *.
      clearbody q1 q2. unfold drift. change (inject_Z (Z.of_nat 0)) with 0.
      simpl. unfold PADDING.SIDE, GRID_SPACING.HORIZONTAL. lra.
Qed.

(** In [draw], [move] is called on the grid that [handed_to_move]
    describes. *)
Lemma draw_hands_to_move (random : nat -> Z) (g g1 : grid)
    (pc : BulletControl.t) :
  handed_to_move g = Some g1 ->
  draw random g pc
  = (pc' ← shoot random (move g1) pc; Normal (move g1, pc')).
Proof.
  unfold handed_to_move, draw.
  destruct (clearEnemyGridRows (draw_enemies g)) as [r|]; [|discriminate].
  cbn [mbind completion_bind Js.bind]. cbv zeta.
  destruct (Nat.eqb _ 0); [discriminate|]. intros [= <-]. reflexivity.
Qed.

Lemma marching_handed_to_move (k n : nat) (g g1 : grid) :
  marching k n g ->
  handed_to_move g = Some g1 ->
  exists m, marching (S k) m g1.
Proof.
  intros Hf. unfold handed_to_move.
  destruct (clearEnemyGridRows (draw_enemies g)) as [[removed g0]|] eqn:Hrows;
    [|discriminate].
  cbv zeta. cbn [snd].
  pose proof (marching_clearEnemyGridRows (S k) n _ _ _
                (marching_draw_enemies k n g Hf) Hrows) as Hf0.
  destruct (marching_clearEnemyGridColumns (S k) n g0 Hf0) as [m Hf1].
  destruct (Nat.eqb _ 0); [discriminate|]. intros [= <-]. eauto.
Qed.

(** The tick keeps the wave marching. *)
Lemma marching_draw (random : nat -> Z) (k n : nat) (g g' : grid)
    (pc pc' : BulletControl.t) :
  marching k n g ->
  draw random g pc = Normal (g', pc') ->
  exists m, marching (S k) m g'.
Proof.
  intros Hf Hd. unfold draw in Hd.
  destruct (clearEnemyGridRows (draw_enemies g)) as [[removed g1]|] eqn:Hrows;
    [|discriminate Hd].
  simpl in Hd.
  pose proof (marching_clearEnemyGridRows (S k) n _ _ _
                (marching_draw_enemies k n g Hf) Hrows) as Hf1.
  destruct (marching_clearEnemyGridColumns (S k) n g1 Hf1) as [m Hf2].
  exists m.
  destruct (anyEnemiesAlive (snd (clearEnemyGridColumns g1)) =? 0)%nat.
  - injection Hd as <- _. exact Hf2.
  - destruct (shoot random _ pc) as [pc1|]; [|discriminate Hd].
    simpl in Hd. injection Hd as <- _. apply marching_move, Hf2.
Qed.

(** The collision loop keeps the wave marching. *)
Lemma marching_checkForCollisions (k : nat) (w : Game.t) :
  (exists n, marching k n (Game.enemyGrid w)) ->
  exists n, marching k n (Game.enemyGrid (Game.checkForCollisions w)).
Proof.
  intros Hw. unfold Game.checkForCollisions, Game.searchForCollisions.
  apply (forEach_preserves _ _ (fun w => exists n, marching k n (Game.enemyGrid w))).
  - apply (forEach_preserves _ _ (fun w => exists n, marching k n (Game.enemyGrid w)));
      [exact Hw|].
    intros p _ t Ht. unfold Game.playerCollisionHandler.
    destruct (Game.collisionDetected (Game.player t) p); exact Ht.
  - intros p _ t [n Ht]. exists n.
    rewrite enemyCollisionHandler_scan. simpl.
    apply marching_after_hit, Ht.
Qed.

Lemma marching_running_frame (random : nat -> Z) (k : nat) (w w' : Game.t) :
  (exists n, marching k n (Game.enemyGrid w)) ->
  Game.running_frame random w = Normal w' ->
  exists n, marching (S k) n (Game.enemyGrid w').
Proof.
  intros [n Hw] Hrun. unfold Game.running_frame in Hrun.
  destruct (Player.drawPlayer _ _) as [p bc].
  assert (Hui : Game.enemyGrid (Game.drawGameUiComponents w) = Game.enemyGrid w).
  { unfold Game.drawGameUiComponents.
    destruct (Scoreboard.drawScoreboard _) as [sb h]. reflexivity. }
  cbn [Game.enemyGrid Game.set_Bulletcon Game.set_player] in Hrun.
  cbn [Game.enemyProjectileController] in Hrun.
  rewrite Hui in Hrun.
  destruct (anyEnemiesAlive (Game.enemyGrid w) =? 0)%nat.
  - injection Hrun as <-. exists GRID_SIZE.COLUMNS. apply marching_createEnemies.
  - destruct (draw random (Game.enemyGrid w) _) as [[g1 pc1]|] eqn:Hd;
      [|discriminate Hrun].
    simpl in Hrun.
    destruct (marching_draw random k n _ _ _ _ Hw Hd) as [m Hg1].
    match type of Hrun with
    | context [Game.checkHealth (Game.checkForCollisions ?w1)] =>
        destruct (marching_checkForCollisions (S k) w1) as [j Hj];
          [exists m; exact Hg1|];
        set (w2 := Game.checkForCollisions w1) in *
    end.
    assert (Hh : Game.enemyGrid (Game.checkHealth w2) = Game.enemyGrid w2).
    { unfold Game.checkHealth.
      destruct (Lives.getCurrenthp (Game.health w2) =? 0)%Z; reflexivity. }
    destruct (checkIfEnemyMovesPastPlayer _) as [past|]; [|discriminate Hrun].
    simpl in Hrun. injection Hrun as <-. exists j.
    destruct past; simpl; rewrite ?Hh; exact Hj.
Qed.

(** A wave that is still marching within the bounds of a long session is
    in formation: it is at most 430 and a tiny drift wide, in a corridor
    of 520. *)
Lemma marching_formation (k n : nat) (g : grid) :
  (Z.of_nat k <= long_session)%Z -> marching k n g -> formation n g.
Proof.
  intros Hk [[Hrect Hcols Hdir Hstock] Hranged].
  destruct (Hranged Hk) as [_ Hspread]. split.
  - exact Hrect.
  - intros r1 r2 c e1 e2 H1 H2. rewrite (Hcols _ _ _ _ _ H1 H2). reflexivity.
  - intros e1 e2 L1 L2.
    destruct (Hstock e1 L1) as (-> & -> & _).
    destruct (Hstock e2 L2) as (-> & -> & _).
    split; [apply Hdir; assumption | split; reflexivity].
  - intros e L. destruct (Hstock e L) as (_ & _ & ->). reflexivity.
  - intros e1 e2 L1 L2. pose proof (Hspread e1 e2 L1 L2) as Hsp.
    destruct (Hstock e2 L2) as (Hw & _).
    destruct (count_bounds k Hk) as [Hk0 Hk1].
    simpl. rewrite Hw. unfold drift in Hsp.
    unfold CANVAS.WIDTH, PADDING.SIDE. lra.
Qed.

Lemma formation_createEnemies : formation GRID_SIZE.COLUMNS createEnemies.
Proof.
  apply (marching_formation 0); [unfold long_session; lia|].
  apply marching_createEnemies.
Qed.

End Formation.

(* ===================================================================== *)
(** * A wave at the bounds *)
(* ===================================================================== *)

Section Bounce.

Import Js EnemyGridController Spec.










End Bounce.

(* ===================================================================== *)
(** * A fresh wave and the invasion check *)
(* ===================================================================== *)

Section Wave.

Import Js EnemyGridController Spec.

(** After [createEnemies] the grid has [ROWS] rows of [COLUMNS] cells, all
    alive, the cell of row [r] and column [c] (counted from 0) standing at
    x = SIDE + HORIZONTAL * (c + 1) and y = VERTICAL * (r + 1). *)
Theorem createEnemies_full_grid :
  length createEnemies = GRID_SIZE.ROWS
  /\ Forall (fun row => length row = GRID_SIZE.COLUMNS
                        /\ Forall (fun c => alive c = true) row) createEnemies
  /\ (forall r c, (r < GRID_SIZE.ROWS)%nat -> (c < GRID_SIZE.COLUMNS)%nat ->
        enemy_at createEnemies r c
        = Some (Enemy.new CANVAS.WIDTH CANVAS.HEIGHT
                  (PADDING.SIDE
                   + GRID_SPACING.HORIZONTAL * inject_Z (Z.of_nat (1 + c)))
                  (GRID_SPACING.VERTICAL * inject_Z (Z.of_nat (1 + r))))).
Proof.
  split; [|split].
  - unfold createEnemies. rewrite length_map, length_seq. reflexivity.
  - unfold createEnemies. apply Forall_map, Forall_forall. intros i _.
    split.
    + rewrite length_map, length_seq. reflexivity.
    + apply Forall_map, Forall_forall. intros j _. reflexivity.
  - intros r c Hr Hc. unfold enemy_at, createEnemies.
    rewrite lookup_map, (lookup_seq_lt _ _ _ Hr).
    cbn [fmap option_fmap option_map mbind option_bind].
    rewrite lookup_map, (lookup_seq_lt _ _ _ Hc). reflexivity.
Qed.

(** [checkIfEnemyMovesPastPlayer] is false on the empty grid and, on a grid
    with a bottom row, true exactly when some live cell of that row has its
    bottom edge below the canvas height minus the bottom padding. *)
Theorem checkIfEnemyMovesPastPlayer_bottom_row :
  checkIfEnemyMovesPastPlayer [] = Normal false
  /\ (forall (rows : grid) (bottomRow : list (option Enemy.t)),
        exists b,
          checkIfEnemyMovesPastPlayer (rows ++ [bottomRow]) = Normal b
          /\ (b = true <->
              exists e, Some e ∈ bottomRow
                        /\ CANVAS.HEIGHT - PADDING.BOTTOM < getBottomEdge e)).
Proof.
  split; [reflexivity|].
  intros rows bottomRow. unfold checkIfEnemyMovesPastPlayer, anyEnemiesAlive.
  destruct (Nat.eqb_spec (length (rows ++ [bottomRow])) 0) as [E|_].
  { rewrite length_app in E. simpl in E. lia. }
  rewrite index_bottom. eexists. split; [reflexivity|].
  rewrite existsb_exists. split.
  - intros ([e|] & Hin & Hb); [|discriminate Hb].
    exists e. split; [apply list_elem_of_In, Hin | apply ltb_true, Hb].
  - intros (e & Hin & Hb). exists (Some e).
    split; [apply list_elem_of_In, Hin | apply ltb_true, Hb].
Qed.

End Wave.

(* ===================================================================== *)
(** * Projectile pool: the bullets as objects *)
(* ===================================================================== *)

Section PoolObjects.

Import BulletControl Spec.

Ltac distinct_oids :=
  vm_compute;
  repeat (apply NoDup_cons_2;
          [rewrite ?elem_of_cons, elem_of_nil; intuition discriminate|]);
  apply NoDup_nil_2.

Lemma indexOf_absent (bs : list Bullet.t) (b : Bullet.t) :
  Bullet.oid b ∉ map Bullet.oid bs -> indexOf bs b = None.
Proof.
  induction bs as [|b' bs IH]; intros Hb; [reflexivity|].
  simpl in *. apply not_elem_of_cons in Hb as [Hne Hb].
  destruct (Nat.eqb_spec (Bullet.oid b') (Bullet.oid b)) as [E|_]; [congruence|].
  rewrite (IH Hb). reflexivity.
Qed.

Lemma indexOf_middle (P R : list Bullet.t) (b b0 : Bullet.t) :
  Bullet.oid b0 = Bullet.oid b ->
  Bullet.oid b ∉ map Bullet.oid P ->
  indexOf (P ++ b0 :: R) b = Some (length P).
Proof.
  intros E. induction P as [|p P IH]; intros Hb; simpl.
  - rewrite E, Nat.eqb_refl. reflexivity.
  - simpl in Hb. apply not_elem_of_cons in Hb as [Hne Hb].
    destruct (Nat.eqb_spec (Bullet.oid p) (Bullet.oid b)) as [E'|_]; [congruence|].
    rewrite (IH Hb). reflexivity.
Qed.

Lemma mutate_absent (f : Bullet.t -> Bullet.t) (b : Bullet.t) (bs : list Bullet.t) :
  Bullet.oid b ∉ map Bullet.oid bs -> mutate f b bs = bs.
Proof.
  unfold mutate. induction bs as [|b' bs IH]; intros Hb; [reflexivity|].
  simpl in *. apply not_elem_of_cons in Hb as [Hne Hb].
  destruct (Nat.eqb_spec (Bullet.oid b') (Bullet.oid b)) as [E|_]; [congruence|].
  rewrite (IH Hb). reflexivity.
Qed.

Lemma mutate_middle (f : Bullet.t -> Bullet.t) (b : Bullet.t) (P R : list Bullet.t) :
  Bullet.oid b ∉ map Bullet.oid P ->
  Bullet.oid b ∉ map Bullet.oid R ->
  mutate f b (P ++ b :: R) = P ++ f b :: R.
Proof.
  intros HP HR. unfold mutate. rewrite map_app. simpl.
  rewrite Nat.eqb_refl.
  pose proof (mutate_absent f b P HP) as EP.
  pose proof (mutate_absent f b R HR) as ER.
  unfold mutate in EP, ER. rewrite EP, ER. reflexivity.
Qed.

Lemma NoDup_oid_middle (P R : list Bullet.t) (b : Bullet.t) :
  NoDup (map Bullet.oid (P ++ b :: R)) ->
  (Bullet.oid b ∉ map Bullet.oid P)
  /\ (Bullet.oid b ∉ map Bullet.oid R)
  /\ NoDup (map Bullet.oid (P ++ R)).
Proof.
  rewrite !map_app. simpl. rewrite !NoDup_app, NoDup_cons.
  intros (HP & Hdis & HbR & HR). split; [|split].
  - intros Hin. apply (Hdis _ Hin). left.
  - exact HbR.
  - split; [exact HP|]. split; [|exact HR].
    intros x Hx HxR. apply (Hdis _ Hx). right. exact HxR.
Qed.

Lemma draw_oid (b : Bullet.t) : Bullet.oid (Bullet.draw b) = Bullet.oid b.
Proof.
  unfold Bullet.draw.
  destruct (Bullet.maxFrameCount b <? Bullet.frameCount b + 1)%Z; reflexivity.
Qed.

Lemma NoDup_oid_replace (P R : list Bullet.t) (b b' : Bullet.t) :
  Bullet.oid b' = Bullet.oid b ->
  NoDup (map Bullet.oid (P ++ b :: R)) ->
  NoDup (map Bullet.oid (P ++ b' :: R)).
Proof. intros E. rewrite !map_app. simpl. rewrite E. auto. Qed.

(** The array a tick leaves, for a pool of distinct bullets. *)
Lemma draw_callbacks_sweep (bc : t) :
  NoDup (map Bullet.oid (bullets bc)) ->
  bullets (Js.forEach bullets draw_callback bc)
  = sweep (isOffScreen bc) (bullets bc).
Proof.
  intros Hnd.
  pose proof (forEach_invariant bullets draw_callback
    (fun k s =>
       canvas s = canvas bc
       /\ exists P R, bullets s = P ++ R
            /\ (length P <= k)%nat
            /\ (R = [] \/ length P = k)
            /\ (length (P ++ R) <= length (bullets bc))%nat
            /\ NoDup (map Bullet.oid (P ++ R))
            /\ P ++ sweep (isOffScreen bc) R = sweep (isOffScreen bc) (bullets bc))
    bc) as Hinv.
  destruct Hinv as (_ & P & R & HPR & HPk & Hcase & Hlen & _ & Hres).
  - split; [reflexivity|]. exists [], (bullets bc). simpl.
    repeat split; simpl; rewrite ?app_nil_r; auto; try lia.
  - intros k s Hk (Hc & P & R & HPR & HPk & Hcase & Hlen & Hnd' & Hres).
    destruct R as [|b R'].
    + rewrite app_nil_r in HPR, Hlen, Hnd'. simpl in Hres.
      rewrite app_nil_r in Hres.
      rewrite HPR, (lookup_ge_None_2 P k) by lia.
      split; [exact Hc|]. exists P, []. simpl. rewrite !app_nil_r.
      repeat split; auto; lia.
    + destruct Hcase as [Hcase|Hcase]; [discriminate Hcase|].
      rewrite HPR, (list_lookup_middle P R' b k) by (symmetry; exact Hcase).
      destruct (NoDup_oid_middle P R' b Hnd') as (HbP & HbR & Hnd'').
      unfold draw_callback.
      replace (isOffScreen s b) with (isOffScreen bc b)
        by (unfold isOffScreen; rewrite Hc; reflexivity).
      rewrite HPR, (indexOf_middle P R' b b eq_refl HbP).
      rewrite length_app in Hlen. simpl in Hlen, Hres.
      destruct (isOffScreen bc b) eqn:Hoff.
      * simpl. unfold Js.splice1. rewrite delete_middle.
        rewrite mutate_absent
          by (rewrite map_app, elem_of_app; tauto).
        split; [exact Hc|].
        destruct R' as [|b' R''].
        -- rewrite app_nil_r in Hres, Hnd''.
           exists P, []. simpl. rewrite !app_nil_r.
           repeat split; auto; lia.
        -- exists (P ++ [b']), R''. rewrite <- !app_assoc. simpl.
           rewrite !length_app. simpl in *.
           repeat split; auto; lia.
      * cbn [bullets set_bullets canvas]. rewrite HPR.
        rewrite (mutate_middle Bullet.draw b P R' HbP HbR).
        split; [exact Hc|].
        exists (P ++ [Bullet.draw b]), R'. rewrite <- !app_assoc. simpl.
        rewrite !length_app. simpl.
        repeat split; auto; try lia.
        apply (NoDup_oid_replace P R' b); [apply draw_oid | exact Hnd'].
  - destruct Hcase as [->|Hcase].
    + simpl in Hres. rewrite app_nil_r in Hres, HPR. rewrite HPR. exact Hres.
    + destruct R as [|b R'].
      * simpl in Hres. rewrite app_nil_r in Hres, HPR. rewrite HPR. exact Hres.
      * rewrite length_app in Hlen. simpl in Hlen. lia.
Qed.

Lemma draw_bullets_forEach (bc : t) :
  bullets (draw bc) = bullets (Js.forEach bullets draw_callback bc).
Proof.
  unfold draw.
  destruct (shooter bc) as [sh|]; [|reflexivity].
  destruct (String.eqb sh "player"); [|reflexivity].
  unfold Js.forEach. cbn [bullets set_waitTime].
  generalize (length (bullets bc)) 0%nat.
  intros n k. revert k.
  assert (H : forall n k s1 s2,
             bullets s1 = bullets s2 -> canvas s1 = canvas s2 ->
             bullets (Js.forEach_from bullets draw_callback n k s1)
             = bullets (Js.forEach_from bullets draw_callback n k s2)).
  { clear. induction n as [|n IH]; intros k s1 s2 Hb Hc; [exact Hb|].
    rewrite !forEach_from_succ, Hb.
    destruct (bullets s2 !! k) as [b|]; [|apply IH; assumption].
    apply IH.
    - unfold draw_callback, isOffScreen. rewrite Hb, Hc.
      destruct (canvas s2 !! "height") as [h|];
        [|cbn [bullets set_bullets]; rewrite Hb; reflexivity].
      destruct (Js.leb (Bullet.y b) (- h));
        [|cbn [bullets set_bullets]; rewrite Hb; reflexivity].
      destruct (indexOf (bullets s2) b); reflexivity.
    - destruct (draw_callback_frame b k s1) as (-> & _).
      destruct (draw_callback_frame b k s2) as (-> & _). exact Hc. }
  intros k. apply H; reflexivity.
Qed.

Lemma draw_fresh (bc : t) : fresh (draw bc) = fresh bc.
Proof.
  unfold draw.
  set (bc0 := match shooter bc with
              | Some sh => if String.eqb sh "player"
                           then set_waitTime (waitTime bc - 1) bc else bc
              | None => bc
              end).
  assert (H0 : fresh bc0 = fresh bc).
  { subst bc0. destruct (shooter bc) as [sh|];
      [destruct (String.eqb sh "player")|]; reflexivity. }
  rewrite <- H0.
  apply (forEach_preserves bullets draw_callback (fun s => fresh s = fresh bc0));
    [reflexivity|].
  intros a j t Ht. destruct (draw_callback_frame a j t) as (_ & _ & _ & ->).
  exact Ht.
Qed.

Lemma sweep_none (off : Bullet.t -> bool) (bs : list Bullet.t) :
  Forall (fun b => off b = false) bs -> sweep off bs = map Bullet.draw bs.
Proof.
  induction 1 as [|b bs Hb _ IH]; [reflexivity|].
  simpl. rewrite Hb, IH. reflexivity.
Qed.

Lemma spaced_tail (off : Bullet.t -> bool) (b : Bullet.t) (bs : list Bullet.t) :
  spaced off (b :: bs) = true -> spaced off bs = true.
Proof.
  destruct bs as [|b' bs]; [reflexivity|].
  cbn [spaced]. intros H. apply andb_true_iff in H as [_ H]. exact H.
Qed.

Lemma sweep_spaced (off : Bullet.t -> bool) (n : nat) (bs : list Bullet.t) :
  (length bs <= n)%nat ->
  spaced off bs = true ->
  map Bullet.oid (sweep off bs)
  = map Bullet.oid (filter (fun b => off b = false) bs).
Proof.
  revert bs. induction n as [|n IH]; intros bs Hlen Hsp.
  - destruct bs; [reflexivity | simpl in Hlen; lia].
  - destruct bs as [|b rest]; [reflexivity|].
    simpl in Hlen. cbn [sweep].
    destruct (off b) eqn:Hb.
    + rewrite filter_cons_False by (rewrite Hb; discriminate).
      destruct rest as [|b' rest']; [reflexivity|].
      assert (Hb' : off b' = false).
      { cbn [spaced] in Hsp. rewrite Hb in Hsp.
        destruct (off b'); [discriminate Hsp | reflexivity]. }
      rewrite filter_cons_True by exact Hb'. simpl. f_equal.
      apply IH; [simpl in Hlen; lia|].
      apply (spaced_tail off b'), (spaced_tail off b), Hsp.
    + rewrite filter_cons_True by exact Hb. simpl.
      rewrite draw_oid. f_equal.
      apply IH; [lia|]. apply (spaced_tail off b), Hsp.
Qed.

Lemma sweep_sublist (off : Bullet.t -> bool) (n : nat) (bs : list Bullet.t) :
  (length bs <= n)%nat ->
  map Bullet.oid (sweep off bs) `sublist_of` map Bullet.oid bs.
Proof.
  revert bs. induction n as [|n IH]; intros bs Hlen.
  - destruct bs; [reflexivity | simpl in Hlen; lia].
  - destruct bs as [|b rest]; [reflexivity|].
    simpl in Hlen. cbn [sweep].
    destruct (off b).
    + destruct rest as [|b' rest']; [apply sublist_nil_l|].
      simpl. apply sublist_cons, sublist_skip. apply IH. simpl in Hlen. lia.
    + simpl. rewrite draw_oid. apply sublist_skip. apply IH. lia.
Qed.

Lemma draw_bullets_sweep (bc : t) :
  NoDup (map Bullet.oid (bullets bc)) ->
  bullets (draw bc) = sweep (isOffScreen bc) (bullets bc).
Proof.
  intros Hnd. rewrite draw_bullets_forEach. apply draw_callbacks_sweep, Hnd.
Qed.

(** One tick of a pool of distinct bullets, exactly: the array is swept
    (a bullet that is on screen is drawn and so moved by its speed, a
    bullet that is off screen is removed, and the bullet right after a
    removed one is passed over unchanged), and the canvas, the shooter and
    the supply of identities are kept. *)
Theorem draw_is_sweep (bc : t) :
  NoDup (map Bullet.oid (bullets bc)) ->
  bullets (draw bc) = sweep (isOffScreen bc) (bullets bc)
  /\ canvas (draw bc) = canvas bc
  /\ shooter (draw bc) = shooter bc
  /\ fresh (draw bc) = fresh bc.
Proof.
  intros Hnd. destruct (draw_frame bc) as (Hc & Hs & _).
  rewrite (draw_bullets_sweep bc Hnd).
  repeat split; [exact Hc | exact Hs | apply draw_fresh].
Qed.

Lemma draw_is_sweep_witness :
  let pool := shoot 0 (-480) 5 0 "enemy_1"
                (shoot 0 (-480) 5 0 "enemy_1" (new (canvas_element 640 480))) in
  bullets (draw pool) = sweep (isOffScreen pool) (bullets pool).
Proof.
  intros pool. apply (draw_is_sweep pool).
  distinct_oids.
Defined.

(** In a pool whose canvas object has no [height], as both pools of the
    game, a tick draws every bullet once, in order, and removes none: each
    bullet's y goes down by its speed and nothing else about the array
    changes. *)
Theorem draw_without_height_advances_all (bc : t) :
  canvas bc !! "height" = None ->
  NoDup (map Bullet.oid (bullets bc)) ->
  bullets (draw bc) = map Bullet.draw (bullets bc)
  /\ map Bullet.y (bullets (draw bc))
     = map (fun b => Bullet.y b - Bullet.speed b) (bullets bc).
Proof.
  intros Hh Hnd.
  assert (E : bullets (draw bc) = map Bullet.draw (bullets bc)).
  { rewrite (draw_bullets_sweep bc Hnd). apply sweep_none, Forall_forall.
    intros b _. apply isOffScreen_without_height, Hh. }
  split; [exact E|]. rewrite E, map_map. apply map_ext. intros b.
  unfold Bullet.draw.
  destruct (Bullet.maxFrameCount b <? Bullet.frameCount b + 1)%Z; reflexivity.
Qed.

Lemma draw_without_height_advances_all_witness :
  let Bulletcon := shoot 320 340 5 39 "player" (new CANVAS_object) in
  map Bullet.y (bullets (draw Bulletcon)) = [340 - 5].
Proof.
  intros Bulletcon.
  destruct (draw_without_height_advances_all Bulletcon) as [_ Hy].
  - apply CANVAS_object_height.
  - distinct_oids.
  - exact Hy.
Defined.

(** In a pool of distinct bullets in which no off-screen bullet directly
    follows another one, a tick removes every off-screen bullet and keeps
    every other bullet, in order. *)
Theorem draw_removes_spaced_offscreen (bc : t) :
  NoDup (map Bullet.oid (bullets bc)) ->
  spaced (isOffScreen bc) (bullets bc) = true ->
  map Bullet.oid (bullets (draw bc))
  = map Bullet.oid (filter (fun b => isOffScreen bc b = false) (bullets bc)).
Proof.
  intros Hnd Hsp. rewrite (draw_bullets_sweep bc Hnd).
  apply (sweep_spaced _ (length (bullets bc))); [lia | exact Hsp].
Qed.

Lemma draw_removes_spaced_offscreen_witness :
  let pool := shoot 0 100 5 0 "enemy_1"
                (shoot 0 (-480) 5 0 "enemy_1" (new (canvas_element 640 480))) in
  map Bullet.oid (bullets (draw pool)) = [1%nat].
Proof.
  intros pool.
  rewrite (draw_removes_spaced_offscreen pool).
  - vm_compute. reflexivity.
  - distinct_oids.
  - vm_compute. reflexivity.
Defined.

Lemma isOffScreen_after_draw (bc : t) (b : Bullet.t) :
  Bullet.speed b <= 0 ->
  isOffScreen bc b = false ->
  isOffScreen bc (Bullet.draw b) = false.
Proof.
  unfold isOffScreen. destruct (canvas bc !! "height") as [h|]; [|reflexivity].
  rewrite !leb_false. intros Hs Hy.
  replace (Bullet.y (Bullet.draw b)) with (Bullet.y b - Bullet.speed b).
  - lra.
  - unfold Bullet.draw.
    destruct (Bullet.maxFrameCount b <? Bullet.frameCount b + 1)%Z; reflexivity.
Qed.

Lemma draw_speed (b : Bullet.t) : Bullet.speed (Bullet.draw b) = Bullet.speed b.
Proof.
  unfold Bullet.draw.
  destruct (Bullet.maxFrameCount b <? Bullet.frameCount b + 1)%Z; reflexivity.
Qed.

Lemma map_oid_draw (bs : list Bullet.t) :
  map Bullet.oid (map Bullet.draw bs) = map Bullet.oid bs.
Proof. rewrite map_map. apply map_ext, draw_oid. Qed.

(** Bullets that travel downwards (speed [<= 0], as the enemies' -3) and
    are on screen are never removed by the ticks of their pool, however
    many there are: they leave it only through [destroyBullet] or
    [clearBullets]. *)
Theorem draw_never_removes_descending (bc : t) (n : nat) :
  NoDup (map Bullet.oid (bullets bc)) ->
  Forall (fun b => Bullet.speed b <= 0 /\ isOffScreen bc b = false) (bullets bc) ->
  bullets (Nat.iter n draw bc) = Nat.iter n (map Bullet.draw) (bullets bc).
Proof.
  intros Hnd Hall.
  assert (H : bullets (Nat.iter n draw bc) = Nat.iter n (map Bullet.draw) (bullets bc)
              /\ canvas (Nat.iter n draw bc) = canvas bc
              /\ NoDup (map Bullet.oid (bullets (Nat.iter n draw bc)))
              /\ Forall (fun b => Bullet.speed b <= 0 /\ isOffScreen bc b = false)
                   (bullets (Nat.iter n draw bc))).
  { induction n as [|n (IHb & IHc & IHnd & IHall)]; [simpl; auto|].
    rewrite !Nat.iter_succ.
    assert (Hoff : forall b, isOffScreen (Nat.iter n draw bc) b = isOffScreen bc b).
    { intros b. unfold isOffScreen. rewrite IHc. reflexivity. }
    assert (E : bullets (draw (Nat.iter n draw bc))
                = map Bullet.draw (bullets (Nat.iter n draw bc))).
    { rewrite (draw_bullets_sweep _ IHnd). apply sweep_none.
      eapply Forall_impl; [exact IHall|]. intros b [_ Hb]. simpl.
      rewrite Hoff. exact Hb. }
    rewrite E. split; [rewrite IHb; reflexivity|]. split; [|split].
    - destruct (draw_frame (Nat.iter n draw bc)) as (-> & _). exact IHc.
    - rewrite map_oid_draw. exact IHnd.
    - apply Forall_map. eapply Forall_impl; [exact IHall|].
      intros b [Hs Hb]. simpl. rewrite draw_speed.
      split; [exact Hs | apply isOffScreen_after_draw; assumption]. }
  apply H.
Qed.

Lemma draw_never_removes_descending_witness :
  let pool := shoot 100 200 (-3) 7 "enemy_1" (new (canvas_element 640 480)) in
  map Bullet.oid (bullets (Nat.iter 1000 draw pool)) = [0%nat].
Proof.
  intros pool. rewrite (draw_never_removes_descending pool 1000).
  - generalize 1000%nat. intros n. induction n as [|n IH]; [reflexivity|].
    rewrite Nat.iter_succ, map_oid_draw. exact IH.
  - distinct_oids.
  - repeat constructor. discriminate.
Defined.

Lemma filter_other_oids (b : Bullet.t) (bs : list Bullet.t) :
  Bullet.oid b ∉ map Bullet.oid bs ->
  filter (fun b' => Bullet.oid b' <> Bullet.oid b) bs = bs.
Proof.
  induction bs as [|b' bs IH]; intros Hb; [reflexivity|].
  simpl in Hb. apply not_elem_of_cons in Hb as [Hne Hb].
  rewrite filter_cons_True by congruence. rewrite (IH Hb). reflexivity.
Qed.

Lemma destroy_filter (b : Bullet.t) (bs : list Bullet.t) :
  NoDup (map Bullet.oid bs) ->
  match indexOf bs b with
  | Some i => Js.splice1 i bs
  | None => bs
  end = filter (fun b' => Bullet.oid b' <> Bullet.oid b) bs.
Proof.
  induction bs as [|b' bs IH]; intros Hnd; [reflexivity|].
  simpl in Hnd. apply NoDup_cons in Hnd as [Hb' Hnd]. simpl.
  destruct (Nat.eqb_spec (Bullet.oid b') (Bullet.oid b)) as [E|E].
  - rewrite filter_cons_False by (intros H; apply H, E).
    rewrite filter_other_oids by (rewrite <- E; exact Hb'). reflexivity.
  - rewrite filter_cons_True by exact E.
    rewrite <- (IH Hnd). destruct (indexOf bs b); reflexivity.
Qed.

(** [destroyBullet] removes the given bullet and nothing else: in a pool
    of distinct bullets the array keeps exactly the other bullets, in
    order; when the bullet is not in the pool nothing changes; no other
    field of the pool is touched. *)
Theorem destroyBullet_removes_only_that_bullet (b : Bullet.t) (bc : t) :
  NoDup (map Bullet.oid (bullets bc)) ->
  bullets (destroyBullet b bc)
  = filter (fun b' => Bullet.oid b' <> Bullet.oid b) (bullets bc)
  /\ (Bullet.oid b ∉ map Bullet.oid (bullets bc) -> destroyBullet b bc = bc)
  /\ bullets (destroyBullet b (destroyBullet b bc)) = bullets (destroyBullet b bc)
  /\ canvas (destroyBullet b bc) = canvas bc
  /\ waitTime (destroyBullet b bc) = waitTime bc
  /\ shooter (destroyBullet b bc) = shooter bc.
Proof.
  intros Hnd.
  assert (E : forall bc', NoDup (map Bullet.oid (bullets bc')) ->
                bullets (destroyBullet b bc')
                = filter (fun b' => Bullet.oid b' <> Bullet.oid b) (bullets bc')).
  { intros bc' Hnd'. rewrite <- (destroy_filter b _ Hnd'). unfold destroyBullet.
    destruct (indexOf (bullets bc') b); reflexivity. }
  split; [exact (E bc Hnd)|]. split; [|split].
  - intros Hb. unfold destroyBullet. rewrite (indexOf_absent _ _ Hb). reflexivity.
  - rewrite (E (destroyBullet b bc)).
    + rewrite (E bc Hnd). apply list_filter_filter_l. auto.
    + rewrite (E bc Hnd).
      apply (sublist_NoDup _ (map Bullet.oid (bullets bc)));
        [exact Hnd | apply fmap_sublist, sublist_filter].
  - unfold destroyBullet. destruct (indexOf (bullets bc) b); repeat split.
Qed.

Lemma destroyBullet_removes_only_that_bullet_witness :
  let pool := shoot 0 100 5 0 "enemy_1"
                (shoot 0 50 5 0 "enemy_1" (new CANVAS_object)) in
  map Bullet.oid (bullets (destroyBullet (Bullet.new 0 0 50 5 "enemy_1") pool))
  = [1%nat].
Proof.
  intros pool.
  destruct (destroyBullet_removes_only_that_bullet
              (Bullet.new 0 0 50 5 "enemy_1") pool) as [E _].
  - distinct_oids.
  - rewrite E. vm_compute. reflexivity.
Defined.

Lemma pool_ok_sublist (bc bc' : t) :
  pool_ok bc ->
  map Bullet.oid (bullets bc') `sublist_of` map Bullet.oid (bullets bc) ->
  fresh bc' = fresh bc ->
  pool_ok bc'.
Proof.
  intros [Hnd Hall] Hsub Hf. split.
  - apply (sublist_NoDup _ _ Hnd Hsub).
  - rewrite Hf. rewrite Forall_forall in *. intros i Hi.
    apply Hall. eapply elem_of_sublist; eauto.
Qed.

Lemma pool_ok_new (canvas0 : gmap string Q) : pool_ok (new canvas0).
Proof. split; constructor. Qed.

Lemma pool_ok_shoot (x y speed : Q) (delay : Z) (sh : string) (bc : t) :
  pool_ok bc -> pool_ok (shoot x y speed delay sh bc).
Proof.
  intros [Hnd Hall].
  assert (Hpush : pool_ok (push_new x y speed sh (set_shooter (Some sh) bc))).
  { split; cbn [push_new set_shooter bullets fresh].
    - rewrite map_app. simpl. apply NoDup_app. split; [exact Hnd|].
      split; [|apply NoDup_singleton].
      intros i Hi Hi'. apply list_elem_of_singleton in Hi'. subst i.
      rewrite Forall_forall in Hall. specialize (Hall _ Hi). lia.
    - rewrite map_app. apply Forall_app. split.
      + eapply Forall_impl; [exact Hall|]. intros i Hi. simpl in *. lia.
      + repeat constructor. }
  unfold shoot. cbn [waitTime set_shooter].
  destruct (waitTime bc <=? 0)%Z; destruct (negb (String.eqb sh "player"));
    first [exact Hpush | split; assumption].
Qed.

Lemma pool_ok_draw (bc : t) : pool_ok bc -> pool_ok (draw bc).
Proof.
  intros Hok. apply (pool_ok_sublist bc); [exact Hok| |apply draw_fresh].
  rewrite (draw_bullets_sweep bc (proj1 Hok)).
  apply (sweep_sublist _ (length (bullets bc))). lia.
Qed.

Lemma pool_ok_destroyBullet (b : Bullet.t) (bc : t) :
  pool_ok bc -> pool_ok (destroyBullet b bc).
Proof.
  intros Hok. apply (pool_ok_sublist bc); [exact Hok| |].
  - pose proof (destroy_filter b (bullets bc) (proj1 Hok)) as Hf.
    unfold destroyBullet.
    destruct (indexOf (bullets bc) b) as [i|]; cbn [bullets set_bullets].
    + rewrite Hf. apply fmap_sublist, sublist_filter.
    + reflexivity.
  - unfold destroyBullet. destruct (indexOf (bullets bc) b); reflexivity.
Qed.

Lemma pool_ok_clearBullets (bc : t) : pool_ok bc -> pool_ok (clearBullets bc).
Proof. intros _. split; constructor. Qed.

Lemma pool_ok_fire_all (random : nat -> Z) (k : nat) (enemies : list Enemy.t)
    (pc : t) :
  pool_ok pc -> pool_ok (EnemyGridController.fire_all random k enemies pc).
Proof.
  revert k pc. induction enemies as [|e rest IH]; intros k pc Hok; [exact Hok|].
  simpl. apply IH, pool_ok_shoot, Hok.
Qed.

Lemma pool_ok_grid_draw (random : nat -> Z) (g g' : EnemyGridController.grid)
    (pc pc' : t) :
  pool_ok pc ->
  EnemyGridController.draw random g pc = Js.Normal (g', pc') ->
  pool_ok pc'.
Proof.
  intros Hok Hd. unfold EnemyGridController.draw in Hd.
  destruct (EnemyGridController.clearEnemyGridRows _) as [r|]; [|discriminate Hd].
  simpl in Hd.
  destruct (EnemyGridController.anyEnemiesAlive _ =? 0)%nat.
  - injection Hd as _ <-. exact Hok.
  - unfold EnemyGridController.shoot in Hd.
    destruct (EnemyGridController.findBottomMostEnemies _) as [l|];
      [|discriminate Hd].
    simpl in Hd. injection Hd as _ <-.
    apply pool_ok_draw, pool_ok_fire_all, Hok.
Qed.

Lemma pool_ok_checkForCollisions (w : Game.t) :
  pool_ok (Game.Bulletcon w) /\ pool_ok (Game.enemyProjectileController w) ->
  pool_ok (Game.Bulletcon (Game.checkForCollisions w))
  /\ pool_ok (Game.enemyProjectileController (Game.checkForCollisions w)).
Proof.
  intros Hw. unfold Game.checkForCollisions, Game.searchForCollisions.
  apply (forEach_preserves _ _
           (fun w => pool_ok (Game.Bulletcon w)
                     /\ pool_ok (Game.enemyProjectileController w))).
  - apply (forEach_preserves _ _
             (fun w => pool_ok (Game.Bulletcon w)
                       /\ pool_ok (Game.enemyProjectileController w)));
      [exact Hw|].
    intros p _ t [H1 H2]. unfold Game.playerCollisionHandler.
    destruct (Game.collisionDetected (Game.player t) p); [|split; assumption].
    split; [exact H1|]. simpl. apply pool_ok_destroyBullet, H2.
  - intros p _ t [H1 H2]. rewrite enemyCollisionHandler_scan. simpl.
    split; [|exact H2].
    induction (hits p (Game.enemyGrid t)) as [|n IH]; [exact H1|].
    rewrite Nat.iter_succ. apply pool_ok_destroyBullet, IH.
Qed.

Lemma pool_ok_running_frame (random : nat -> Z) (w w' : Game.t) :
  pool_ok (Game.Bulletcon w) /\ pool_ok (Game.enemyProjectileController w) ->
  Game.running_frame random w = Js.Normal w' ->
  pool_ok (Game.Bulletcon w') /\ pool_ok (Game.enemyProjectileController w').
Proof.
  intros [H1 H2] Hrun. unfold Game.running_frame in Hrun.
  assert (Hui : Game.Bulletcon (Game.drawGameUiComponents w) = Game.Bulletcon w
                /\ Game.enemyProjectileController (Game.drawGameUiComponents w)
                   = Game.enemyProjectileController w).
  { unfold Game.drawGameUiComponents.
    destruct (Scoreboard.drawScoreboard _) as [sb h]. split; reflexivity. }
  destruct Hui as [Hui1 Hui2].
  unfold Player.drawPlayer in Hrun. rewrite Hui1 in Hrun.
  set (p := Player.movePlayer _) in Hrun.
  assert (Hb : pool_ok (Player.shoot p (Game.Bulletcon w))).
  { unfold Player.shoot. apply pool_ok_draw.
    destruct (Player.shooting p); [apply pool_ok_shoot|]; exact H1. }
  cbn [Game.enemyGrid Game.set_Bulletcon Game.set_player
       Game.enemyProjectileController] in Hrun.
  rewrite Hui2 in Hrun.
  destruct (EnemyGridController.anyEnemiesAlive _ =? 0)%nat.
  - injection Hrun as <-. simpl. split; apply pool_ok_clearBullets.
    + exact Hb.
    + rewrite Hui2. exact H2.
  - destruct (EnemyGridController.draw random _ _) as [[g1 pc1]|] eqn:Hd;
      [|discriminate Hrun].
    simpl in Hrun.
    pose proof (pool_ok_grid_draw random _ _ _ _ H2 Hd) as Hpc1.
    match type of Hrun with
    | context [Game.checkHealth (Game.checkForCollisions ?w1)] =>
        destruct (pool_ok_checkForCollisions w1) as [K1 K2];
          [split; [exact Hb | exact Hpc1]|];
        set (w2 := Game.checkForCollisions w1) in *
    end.
    assert (Hh : Game.Bulletcon (Game.checkHealth w2) = Game.Bulletcon w2
                 /\ Game.enemyProjectileController (Game.checkHealth w2)
                    = Game.enemyProjectileController w2).
    { unfold Game.checkHealth.
      destruct (Lives.getCurrenthp (Game.health w2) =? 0)%Z; split; reflexivity. }
    destruct Hh as [Hh1 Hh2].
    destruct (EnemyGridController.checkIfEnemyMovesPastPlayer _) as [past|];
      [|discriminate Hrun].
    simpl in Hrun. injection Hrun as <-.
    destruct past; simpl; rewrite ?Hh1, ?Hh2; split; assumption.
Qed.

Lemma pool_ok_startGame (hasGameStarted toPlayAgain : bool)
    (random : nat -> Z) (w w' : Game.t) :
  pool_ok (Game.Bulletcon w) /\ pool_ok (Game.enemyProjectileController w) ->
  Game.startGame hasGameStarted toPlayAgain random w = Js.Normal w' ->
  pool_ok (Game.Bulletcon w') /\ pool_ok (Game.enemyProjectileController w').
Proof.
  intros Hw Hs. unfold Game.startGame in Hs.
  destruct (Game.gameState w).
  - injection Hs as <-. destruct hasGameStarted; [|exact Hw].
    simpl. split; apply pool_ok_clearBullets; apply Hw.
  - apply (pool_ok_running_frame random w w' Hw Hs).
  - injection Hs as <-. destruct toPlayAgain; exact Hw.
Qed.

End PoolObjects.

(* ===================================================================== *)
(** * Enemy grid: who fires *)
(* ===================================================================== *)

Section BottomMost.

Import EnemyGridController Spec.

Lemma omap_pointwise {A B} (f h : A -> option B) (l : list A) :
  (forall a, f a = h a) -> omap f l = omap h l.
Proof.
  intros Hfh. induction l as [|a l IH]; [reflexivity|].
  cbn [omap list_omap]. rewrite Hfh. destruct (h a); [f_equal|]; exact IH.
Qed.

Lemma lowest_snoc (g : grid) (row : list (option Enemy.t)) (c : nat) :
  lowest (g ++ [row]) c
  = match mjoin (row !! c) with
    | Some e => Some e
    | None => lowest g c
    end.
Proof. unfold lowest. rewrite foldl_app. reflexivity. Qed.

Lemma search_upwards_lowest (g : grid) (col n : nat) :
  search_upwards g col n = lowest (take n g) col.
Proof.
  induction n as [|n IH]; [reflexivity|].
  simpl. destruct (g !! n) as [r|] eqn:Hr.
  - rewrite (take_S_r g n r Hr), lowest_snoc, cell_at_nat, IH. reflexivity.
  - rewrite IH. rewrite !take_ge; [reflexivity| |];
      apply lookup_ge_None_1 in Hr; lia.
Qed.

Lemma enemy_at_snoc (g : grid) (row : list (option Enemy.t)) (r c : nat) :
  enemy_at (g ++ [row]) r c
  = if decide (r < length g)%nat then enemy_at g r c
    else if decide (r = length g) then mjoin (row !! c) else None.
Proof.
  unfold enemy_at. destruct (decide (r < length g)%nat) as [Hlt|Hge].
  - rewrite lookup_app_l by exact Hlt. reflexivity.
  - rewrite lookup_app_r by lia.
    destruct (decide (r = length g)) as [->|Hne].
    + rewrite Nat.sub_diag. reflexivity.
    + destruct (r - length g)%nat as [|k] eqn:E; [lia|]. reflexivity.
Qed.

Lemma enemy_at_outside (g : grid) (r c : nat) :
  (length g <= r)%nat -> enemy_at g r c = None.
Proof.
  intros Hr. unfold enemy_at. rewrite (lookup_ge_None_2 g r Hr). reflexivity.
Qed.

Lemma lowest_spec (g : grid) (c : nat) (e : Enemy.t) :
  lowest g c = Some e <->
  exists r, enemy_at g r c = Some e
            /\ forall r', (r < r')%nat -> enemy_at g r' c = None.
Proof.
  induction g as [|row g IH] using rev_ind.
  - split; [discriminate|]. intros (r & Hr & _).
    rewrite enemy_at_outside in Hr by (simpl; lia). discriminate.
  - rewrite lowest_snoc. destruct (mjoin (row !! c)) as [e'|] eqn:Hc.
    + split.
      * intros [= ->]. exists (length g). split.
        -- rewrite enemy_at_snoc.
           destruct (decide (length g < length g)%nat); [lia|].
           destruct (decide (length g = length g)); [exact Hc | congruence].
        -- intros r' Hr'. apply enemy_at_outside. rewrite length_app. simpl. lia.
      * intros (r & Hr & Hbelow).
        destruct (decide (r < length g)%nat) as [Hlt|Hge].
        -- specialize (Hbelow (length g) Hlt). rewrite enemy_at_snoc in Hbelow.
           destruct (decide (length g < length g)%nat); [lia|].
           destruct (decide (length g = length g)); congruence.
        -- rewrite enemy_at_snoc in Hr.
           destruct (decide (r < length g)%nat); [lia|].
           destruct (decide (r = length g)); congruence.
    + rewrite IH. split.
      * intros (r & Hr & Hbelow).
        assert (Hlt : (r < length g)%nat).
        { destruct (decide (r < length g)%nat); [assumption|].
          rewrite enemy_at_outside in Hr by lia. discriminate. }
        exists r. split.
        -- rewrite enemy_at_snoc. destruct (decide (r < length g)%nat); [exact Hr | lia].
        -- intros r' Hr'. rewrite enemy_at_snoc.
           destruct (decide (r' < length g)%nat); [apply Hbelow, Hr'|].
           destruct (decide (r' = length g)); [exact Hc | reflexivity].
      * intros (r & Hr & Hbelow). rewrite enemy_at_snoc in Hr.
        destruct (decide (r < length g)%nat) as [Hlt|Hge].
        -- exists r. split; [exact Hr|]. intros r' Hr'.
           destruct (decide (r' < length g)%nat) as [Hlt'|Hge'].
           ++ specialize (Hbelow r' Hr'). rewrite enemy_at_snoc in Hbelow.
              destruct (decide (r' < length g)%nat); [exact Hbelow | lia].
           ++ apply enemy_at_outside. lia.
        -- destruct (decide (r = length g)); congruence.
Qed.

(** The enemies that fire are, column by column over the width of the
    bottom row, the lowest live cell of each column that has one: an enemy
    fires exactly when it is live and every cell below it in its column is
    dead; a column without live cell contributes nobody. *)
Theorem findBottomMostEnemies_lowest_of_each_column
    (g : grid) (bottomRow : list (option Enemy.t)) :
  findBottomMostEnemies (g ++ [bottomRow])
  = Js.Normal (omap (lowest (g ++ [bottomRow])) (seq 0 (length bottomRow)))
  /\ (forall c e,
        lowest (g ++ [bottomRow]) c = Some e <->
        exists r, enemy_at (g ++ [bottomRow]) r c = Some e
                  /\ forall r', (r < r')%nat ->
                       enemy_at (g ++ [bottomRow]) r' c = None).
Proof.
  split; [|intros c e; apply lowest_spec].
  unfold findBottomMostEnemies.
  replace (Z.of_nat (length (g ++ [bottomRow])) - 1)%Z
    with (Z.of_nat (length g)) by (rewrite length_app; simpl; lia).
  unfold Js.index. destruct (Z.ltb_spec (Z.of_nat (length g)) 0); [lia|].
  rewrite Nat2Z.id, lookup_app_r, Nat.sub_diag by lia. cbn [lookup list_lookup].
  f_equal. apply omap_pointwise. intros col.
  rewrite cell_at_nat, lowest_snoc.
  destruct (mjoin (bottomRow !! col)); [reflexivity|].
  rewrite search_upwards_lowest, take_app_length. reflexivity.
Qed.

End BottomMost.

(* ===================================================================== *)
(** * Enemy grid: compaction of a single column *)
(* ===================================================================== *)

Section SingleColumn.

Import EnemyGridController Spec.

Lemma count_row_length (row : list (option Enemy.t)) (col : nat)
    (tr : list tracker_entry) :
  (col + length row <= length tr)%nat ->
  length (count_row col row tr) = length tr.
Proof.
  revert col tr. induction row as [|a row IH]; intros col tr Hlen; [reflexivity|].
  simpl in *. rewrite IH.
  - destruct (alive a); [|reflexivity]. unfold increment_at.
    destruct (decide (col < length tr)%nat); [|lia]. apply length_alter.
  - destruct (alive a); [|lia]. unfold increment_at.
    destruct (decide (col < length tr)%nat); [|lia]. rewrite length_alter. lia.
Qed.

Lemma count_row_lookup (row : list (option Enemy.t)) (col : nat)
    (tr : list tracker_entry) (c : nat) :
  (col + length row <= length tr)%nat ->
  count_row col row tr !! c
  = if decide (col <= c)%nat
    then (if alive (mjoin (row !! (c - col)%nat))
          then increment <$> tr !! c else tr !! c)
    else tr !! c.
Proof.
  revert col tr. induction row as [|a row IH]; intros col tr Hlen.
  - simpl. destruct (decide (col <= c)%nat); reflexivity.
  - simpl in Hlen. cbn [count_row].
    set (tr' := if alive a then increment_at col tr else tr).
    assert (Hlen' : length tr' = length tr).
    { subst tr'. destruct (alive a); [|reflexivity]. unfold increment_at.
      destruct (decide (col < length tr)%nat); [|lia]. apply length_alter. }
    assert (Htr' : forall i, tr' !! i
                     = if decide (i = col)
                       then (if alive a then increment <$> tr !! i else tr !! i)
                       else tr !! i).
    { intros i. subst tr'. destruct (alive a).
      - unfold increment_at. destruct (decide (col < length tr)%nat); [|lia].
        rewrite list_lookup_alter.
        destruct (decide (col = i)), (decide (i = col)); subst;
          try congruence; reflexivity.
      - destruct (decide (i = col)); reflexivity. }
    rewrite IH by lia. rewrite Htr'.
    destruct (decide (S col <= c)%nat) as [Hgt|Hle].
    + destruct (decide (col <= c)%nat); [|lia].
      destruct (decide (c = col)); [lia|].
      replace (c - col)%nat with (S (c - S col)) by lia. reflexivity.
    + destruct (decide (col <= c)%nat) as [Hc|Hc].
      * assert (c = col) as -> by lia.
        destruct (decide (col = col)); [|congruence].
        rewrite Nat.sub_diag. reflexivity.
      * destruct (decide (c = col)); [lia | reflexivity].
Qed.

Lemma count_columns_snoc (g : grid) (row : list (option Enemy.t)) :
  count_columns (g ++ [row]) = count_row 0 row (count_columns g).
Proof. unfold count_columns. rewrite foldl_app. reflexivity. Qed.

Lemma live_in_column_snoc (g : grid) (row : list (option Enemy.t)) (c : nat) :
  live_in_column (g ++ [row]) c
  = (live_in_column g c + if alive (mjoin (row !! c)) then 1 else 0)%nat.
Proof.
  unfold live_in_column. rewrite filter_app, length_app. f_equal.
  destruct (alive (mjoin (row !! c))) eqn:E.
  - rewrite filter_cons_True by exact E. reflexivity.
  - rewrite filter_cons_False by (rewrite E; discriminate). reflexivity.
Qed.

(** On a grid no wider than the tracker, the first loop counts the live
    cells of each column. *)
Lemma count_columns_counts (n : nat) (g : grid) :
  rectangular n g -> (n <= GRID_SIZE.COLUMNS)%nat ->
  length (count_columns g) = GRID_SIZE.COLUMNS
  /\ forall c, (c < GRID_SIZE.COLUMNS)%nat ->
       count_columns g !! c = Some (Num (live_in_column g c)).
Proof.
  intros Hrect Hn. induction g as [|row g IH] using rev_ind.
  - split; [apply length_replicate|]. intros c Hc.
    apply lookup_replicate_2, Hc.
  - apply Forall_app in Hrect as [Hg Hrow].
    apply Forall_inv in Hrow. cbv beta in Hrow.
    destruct (IH Hg) as [Hlen Hlook].
    rewrite count_columns_snoc. split.
    + rewrite count_row_length; [exact Hlen | lia].
    + intros c Hc. rewrite count_row_lookup by lia.
      destruct (decide (0 <= c)%nat); [|lia].
      rewrite Nat.sub_0_r, live_in_column_snoc, (Hlook c Hc).
      destruct (alive (mjoin (row !! c))); simpl; f_equal; f_equal; lia.
Qed.

Lemma column_dead_live_in_column (g : grid) (c : nat) :
  column_dead g c = true <-> live_in_column g c = 0%nat.
Proof.
  unfold column_dead, live_in_column.
  induction g as [|row g IH]; [split; reflexivity|].
  simpl. destruct (alive (mjoin (row !! c))) eqn:E.
  - rewrite filter_cons_True by exact E. simpl. split; [discriminate | lia].
  - rewrite filter_cons_False by (rewrite E; discriminate). simpl. exact IH.
Qed.

Lemma column_dead_outside (n : nat) (g : grid) (c : nat) :
  rectangular n g -> (n <= c)%nat -> live_in_column g c = 0%nat.
Proof.
  intros Hrect Hc. apply column_dead_live_in_column.
  unfold column_dead. apply forallb_forall. intros row Hrow.
  unfold rectangular in Hrect. rewrite Forall_forall in Hrect.
  apply list_elem_of_In in Hrow. specialize (Hrect row Hrow). simpl in Hrect.
  rewrite lookup_ge_None_2 by lia. reflexivity.
Qed.

Lemma remove_column_outside (n k : nat) (g : grid) :
  rectangular n g -> (n <= k)%nat -> remove_column k g = g.
Proof.
  intros Hrect Hk. unfold remove_column.
  induction Hrect as [|row g Hrow _ IH]; [reflexivity|].
  simpl. rewrite IH. f_equal. unfold Js.splice1.
  apply list_eq. intros i. rewrite list_lookup_delete.
  destruct (decide (i < k)%nat); [reflexivity|].
  rewrite !lookup_ge_None_2 by lia. reflexivity.
Qed.

(** The second loop leaves alone a grid in which every column the tracker
    holds to be empty lies past the right edge. *)
Lemma clear_columns_from_noop (tr : list tracker_entry) (k m : nat) (b : bool)
    (g : grid) :
  rectangular m g ->
  (forall i e, tr !! i = Some e -> truthy e = true \/ (m <= k + i)%nat) ->
  snd (clear_columns_from tr k (b, g)) = g.
Proof.
  revert k b. induction tr as [|e tr IH]; intros k b Hrect Htr; [reflexivity|].
  cbn [clear_columns_from snd].
  destruct (Htr 0%nat e eq_refl) as [He|Hk].
  - rewrite He. apply IH; [exact Hrect|].
    intros i e' Hi. destruct (Htr (S i) e' Hi); [auto | right; lia].
  - assert (Hsame : (if truthy e then (b, g) else (true, remove_column k g))
                    = (if truthy e then b else true, g)).
    { destruct (truthy e); [reflexivity|].
      rewrite (remove_column_outside m k g Hrect) by lia. reflexivity. }
    rewrite Hsame. apply IH; [exact Hrect|].
    intros i e' Hi. destruct (Htr (S i) e' Hi); [auto | right; lia].
Qed.

Lemma clear_columns_from_truthy (tr : list tracker_entry) (k : nat)
    (st : bool * grid) :
  Forall (fun e => truthy e = true) tr -> clear_columns_from tr k st = st.
Proof.
  intros Htr. revert k. induction Htr as [|e tr He _ IH]; intros k; [reflexivity|].
  cbn [clear_columns_from]. rewrite He. apply IH.
Qed.

Lemma clear_columns_from_app (tr1 tr2 : list tracker_entry) (k : nat)
    (st : bool * grid) :
  clear_columns_from (tr1 ++ tr2) k st
  = clear_columns_from tr2 (k + length tr1) (clear_columns_from tr1 k st).
Proof.
  revert k st. induction tr1 as [|e tr1 IH]; intros k st.
  - simpl. rewrite Nat.add_0_r. reflexivity.
  - cbn [app clear_columns_from length]. rewrite IH. f_equal. lia.
Qed.

Lemma clear_columns_from_reported (tr : list tracker_entry) (k : nat) (g : grid) :
  fst (clear_columns_from tr k (true, g)) = true.
Proof.
  revert k g. induction tr as [|e tr IH]; intros k g; [reflexivity|].
  cbn [clear_columns_from]. destruct (truthy e); apply IH.
Qed.

(** Column compaction is right as long as at most one column dies between
    two passes. On a grid of equal rows, no wider than [COLUMNS]: when no
    column is dead the grid is left as it is (and on a grid of full width
    the pass reports that nothing was removed); when exactly one column is
    dead, exactly that column is removed from every row and the pass
    reports a removal. *)
Theorem clearEnemyGridColumns_single_dead_column (n : nat) (g : grid) :
  rectangular n g ->
  (n <= GRID_SIZE.COLUMNS)%nat ->
  ((forall c, (c < n)%nat -> column_dead g c = false) ->
     snd (clearEnemyGridColumns g) = g
     /\ (n = GRID_SIZE.COLUMNS -> clearEnemyGridColumns g = (false, g)))
  /\ (forall c, (c < n)%nat -> column_dead g c = true ->
        (forall c', (c' < n)%nat -> c' <> c -> column_dead g c' = false) ->
        clearEnemyGridColumns g = (true, remove_column c g)).
Proof.
  intros Hrect Hn.
  destruct (count_columns_counts n g Hrect Hn) as [Hlen Hlook].
  assert (Hlive : forall c, (c < n)%nat -> column_dead g c = false ->
                    exists k, live_in_column g c = S k).
  { intros c _ Hc. destruct (live_in_column g c) as [|k] eqn:E; [|eauto].
    apply column_dead_live_in_column in E. congruence. }
  unfold clearEnemyGridColumns. split.
  - intros Hall. split.
    + apply (clear_columns_from_noop _ 0 n false g Hrect).
      intros i e Hi. destruct (decide (i < n)%nat) as [Hlt|Hge]; [left | right; lia].
      rewrite Hlook in Hi by lia. injection Hi as <-.
      destruct (Hlive i Hlt (Hall i Hlt)) as [k ->]. reflexivity.
    + intros ->. apply clear_columns_from_truthy. apply Forall_lookup.
      intros i e Hi.
      assert (Hlt : (i < GRID_SIZE.COLUMNS)%nat).
      { rewrite <- Hlen. eapply lookup_lt_Some; eauto. }
      rewrite Hlook in Hi by exact Hlt. injection Hi as <-.
      destruct (Hlive i Hlt (Hall i Hlt)) as [k ->]. reflexivity.
  - intros c Hc Hdead Hothers.
    assert (Hsplit : count_columns g
                     = take c (count_columns g) ++ Num 0 :: drop (S c) (count_columns g)).
    { rewrite <- (take_drop_middle (count_columns g) c (Num 0)) at 1; [reflexivity|].
      rewrite Hlook by lia. f_equal. f_equal.
      apply column_dead_live_in_column, Hdead. }
    rewrite Hsplit, clear_columns_from_app.
    rewrite (clear_columns_from_truthy (take c (count_columns g))).
    + rewrite length_take, Hlen, Nat.min_l by lia. cbn [clear_columns_from truthy snd].
      rewrite Nat.add_0_l.
      pose proof (remove_column_rectangular n c g Hrect) as Hrect'.
      destruct (decide (c < n)%nat); [|lia].
      pose proof (clear_columns_from_noop (drop (S c) (count_columns g)) (S c)
                    (n - 1) true (remove_column c g) Hrect') as Hsnd.
      pose proof (clear_columns_from_reported (drop (S c) (count_columns g)) (S c)
                    (remove_column c g)) as Hfst.
      destruct (clear_columns_from _ _ _) as [b g']. simpl in *.
      rewrite Hfst, Hsnd; [reflexivity|].
      intros i e Hi. rewrite lookup_drop in Hi.
      remember (S c + i)%nat as j eqn:Ej.
      destruct (decide (j < n)%nat) as [Hlt|Hge]; [left | right; lia].
      rewrite Hlook in Hi by lia. injection Hi as <-.
      destruct (Hlive j Hlt) as [k ->]; [|reflexivity].
      apply Hothers; lia.
    + apply Forall_lookup. intros i e Hi.
      apply lookup_take_Some in Hi as [Hi Hic].
      rewrite Hlook in Hi by lia. injection Hi as <-.
      destruct (Hlive i) as [k ->]; [lia | apply Hothers; lia | reflexivity].
Qed.

Lemma clearEnemyGridColumns_single_dead_column_witness :
  let e := Enemy.new 640 480 100 40 in
  clearEnemyGridColumns [[Some e; None; Some e]; [None; None; Some e]]
  = (true, [[Some e; Some e]; [None; Some e]]).
Proof.
  intros e.
  destruct (clearEnemyGridColumns_single_dead_column 3
              [[Some e; None; Some e]; [None; None; Some e]]) as [_ Hone].
  - repeat constructor.
  - vm_compute. lia.
  - apply (Hone 1%nat); [lia | reflexivity|].
    intros [|[|[|c']]] Hc' Hne; try reflexivity; try congruence; lia.
Defined.

End SingleColumn.

(* ===================================================================== *)
(** * The collision loop: what a frame's collisions add up to *)
(* ===================================================================== *)

Section Accounts.

Import EnemyGridController Spec.

Lemma live_row_after_hit (projectile : Bullet.t) (row : list (option Enemy.t)) :
  (length (filter (fun c => alive c = true) (map (after_hit projectile) row))
   + hits_in_row projectile row)%nat
  = length (filter (fun c => alive c = true) row).
Proof.
  unfold hits_in_row. induction row as [|c row IH]; [reflexivity|].
  cbn [map]. unfold after_hit at 1.
  destruct (struck projectile c) eqn:Hs.
  - assert (Hc : alive c = true) by (destruct c; [reflexivity | discriminate]).
    rewrite (filter_cons_False _ None) by (simpl; discriminate).
    rewrite (filter_cons_True (fun c => struck projectile c = true)) by exact Hs.
    rewrite (filter_cons_True (fun c => alive c = true)) by exact Hc.
    simpl. lia.
  - rewrite (filter_cons_False (fun c => struck projectile c = true))
      by (rewrite Hs; discriminate).
    destruct (alive c) eqn:Hc.
    + rewrite !(filter_cons_True (fun c => alive c = true)) by exact Hc.
      simpl. lia.
    + rewrite !(filter_cons_False (fun c => alive c = true))
        by (rewrite Hc; discriminate).
      exact IH.
Qed.

Lemma live_cells_after_hit (projectile : Bullet.t) (g : grid) :
  (live_cells (map (map (after_hit projectile)) g) + hits projectile g)%nat
  = live_cells g.
Proof.
  unfold live_cells, hits. induction g as [|row g IH]; [reflexivity|].
  cbn [map foldr].
  pose proof (live_row_after_hit projectile row). lia.
Qed.

Lemma indexOf_present (bs : list Bullet.t) (b : Bullet.t) (j : nat) :
  bs !! j = Some b ->
  exists i, BulletControl.indexOf bs b = Some i /\ (i < length bs)%nat.
Proof.
  revert j. induction bs as [|b' bs IH]; intros j Hj; [discriminate|].
  simpl. destruct (Nat.eqb_spec (Bullet.oid b') (Bullet.oid b)) as [E|E].
  - exists 0%nat. split; [reflexivity | lia].
  - destruct j as [|j]; [injection Hj as ->; congruence|].
    destruct (IH j Hj) as (i & -> & Hi). exists (S i). split; [reflexivity | lia].
Qed.

Lemma destroyBullet_length (bc : BulletControl.t) (b : Bullet.t) (j : nat) :
  BulletControl.bullets bc !! j = Some b ->
  S (length (BulletControl.bullets (BulletControl.destroyBullet b bc)))
  = length (BulletControl.bullets bc).
Proof.
  intros Hj. unfold BulletControl.destroyBullet.
  destruct (indexOf_present _ _ _ Hj) as (i & -> & Hi).
  cbn [BulletControl.bullets BulletControl.set_bullets].
  rewrite length_splice1. destruct (decide (i < _)%nat); lia.
Qed.

(** The books of one collision pass balance. Every enemy that dies in the
    pass is paid with exactly 250 points and nothing else changes the
    score; every point of health lost has consumed exactly one enemy
    projectile; a cell that is live after the pass held the same enemy
    before (no tombstone comes back to life); the rows keep their lengths;
    the player and the game state are not touched. *)
Theorem checkForCollisions_accounts (w : Game.t) :
  let w' := Game.checkForCollisions w in
  let shots s := BulletControl.bullets (Game.enemyProjectileController s) in
  (Scoreboard.score (Game.scoreboard w')
   = Scoreboard.score (Game.scoreboard w)
     + 250 * (Z.of_nat (live_cells (Game.enemyGrid w))
              - Z.of_nat (live_cells (Game.enemyGrid w'))))%Z
  /\ (live_cells (Game.enemyGrid w') <= live_cells (Game.enemyGrid w))%nat
  /\ (Lives.hp (Game.health w')
      = Lives.hp (Game.health w)
        - (Z.of_nat (length (shots w)) - Z.of_nat (length (shots w'))))%Z
  /\ (length (shots w') <= length (shots w))%nat
  /\ (forall r c e, enemy_at (Game.enemyGrid w') r c = Some e ->
                    enemy_at (Game.enemyGrid w) r c = Some e)
  /\ map length (Game.enemyGrid w') = map length (Game.enemyGrid w)
  /\ Game.player w' = Game.player w
  /\ Game.gameState w' = Game.gameState w.
Proof.
  cbv zeta.
  set (J := fun t : Game.t =>
    (Scoreboard.score (Game.scoreboard t)
     = Scoreboard.score (Game.scoreboard w)
       + 250 * (Z.of_nat (live_cells (Game.enemyGrid w))
                - Z.of_nat (live_cells (Game.enemyGrid t))))%Z
    /\ (live_cells (Game.enemyGrid t) <= live_cells (Game.enemyGrid w))%nat
    /\ (Lives.hp (Game.health t)
        = Lives.hp (Game.health w)
          - (Z.of_nat (length (BulletControl.bullets (Game.enemyProjectileController w)))
             - Z.of_nat (length (BulletControl.bullets (Game.enemyProjectileController t)))))%Z
    /\ (length (BulletControl.bullets (Game.enemyProjectileController t))
        <= length (BulletControl.bullets (Game.enemyProjectileController w)))%nat
    /\ (forall r c e, enemy_at (Game.enemyGrid t) r c = Some e ->
                      enemy_at (Game.enemyGrid w) r c = Some e)
    /\ map length (Game.enemyGrid t) = map length (Game.enemyGrid w)
    /\ Game.player t = Game.player w
    /\ Game.gameState t = Game.gameState w).
  change (J (Game.checkForCollisions w)).
  unfold Game.checkForCollisions, Game.searchForCollisions.
  apply (forEach_preserves _ _ J).
  - apply (forEach_invariant _ _ (fun _ => J)).
    + unfold J. repeat split; try lia; auto.
    + intros j t _ Ht.
      destruct (BulletControl.getBulletInfo (Game.enemyProjectileController t) !! j)
        as [p|] eqn:Hp; [|exact Ht].
      unfold Game.playerCollisionHandler.
      destruct (Game.collisionDetected (Game.player t) p); [|exact Ht].
      destruct Ht as (H1 & H2 & H3 & H4 & H5 & H6 & H7 & H8).
      pose proof (destroyBullet_length _ _ _ Hp) as Hlen.
      unfold J. cbn [Game.scoreboard Game.enemyGrid Game.health Game.player
                     Game.gameState Game.enemyProjectileController
                     Game.set_health Game.set_enemyProjectileController].
      repeat split; try assumption; try lia.
      unfold Lives.healthModifier. cbn [Lives.hp]. lia.
  - intros p _ t (H1 & H2 & H3 & H4 & H5 & H6 & H7 & H8).
    rewrite enemyCollisionHandler_scan. unfold J, after_hits.
    cbn [Game.scoreboard Game.enemyGrid Game.health Game.player
         Game.gameState Game.enemyProjectileController].
    pose proof (live_cells_after_hit p (Game.enemyGrid t)) as Hlive.
    rewrite score_after_hits.
    repeat split; try assumption; try lia.
    + intros r c e He. apply H5. eapply enemy_at_after_hit, He.
    + rewrite <- H6, map_map. apply map_ext. intros row. apply length_map.
Qed.

End Accounts.

(* ===================================================================== *)
(** * The collision loop: projectiles against the player *)
(* ===================================================================== *)

Section PlayerHits.

Import Spec.

Ltac distinct_shots :=
  vm_compute;
  repeat (apply NoDup_cons_2;
          [rewrite ?elem_of_cons, elem_of_nil; intuition discriminate|]);
  apply NoDup_nil_2.

Lemma hit_scan_nil (hit : Bullet.t -> bool) : hit_scan hit [] = ([], 0%nat).
Proof. reflexivity. Qed.

(** The pass of the enemies' projectiles against the player. *)
Lemma player_pass_hit_scan (w : Game.t) :
  NoDup (map Bullet.oid (BulletControl.bullets (Game.enemyProjectileController w))) ->
  let w' := Game.searchForCollisions Game.enemyProjectileController
              Game.playerCollisionHandler w in
  let scan := hit_scan (Game.collisionDetected (Game.player w))
                (BulletControl.bullets (Game.enemyProjectileController w)) in
  BulletControl.bullets (Game.enemyProjectileController w') = fst scan
  /\ Lives.hp (Game.health w') = (Lives.hp (Game.health w) - Z.of_nat (snd scan))%Z
  /\ Game.player w' = Game.player w
  /\ Game.enemyGrid w' = Game.enemyGrid w
  /\ Game.Bulletcon w' = Game.Bulletcon w
  /\ Game.scoreboard w' = Game.scoreboard w
  /\ Game.gameState w' = Game.gameState w.
Proof.
  intros Hnd. cbv zeta.
  set (hit := Game.collisionDetected (Game.player w)).
  set (shots := fun s => BulletControl.bullets (Game.enemyProjectileController s)).
  change (BulletControl.bullets (Game.enemyProjectileController w)) with (shots w) in *.
  unfold Game.searchForCollisions.
  pose proof (forEach_invariant
    (fun w => BulletControl.getBulletInfo (Game.enemyProjectileController w))
    (fun projectile (_ : nat) w => Game.playerCollisionHandler projectile w)
    (fun k s =>
       (Game.player s = Game.player w
        /\ Game.enemyGrid s = Game.enemyGrid w
        /\ Game.Bulletcon s = Game.Bulletcon w
        /\ Game.scoreboard s = Game.scoreboard w
        /\ Game.gameState s = Game.gameState w)
       /\ exists P R n, shots s = P ++ R
            /\ (length P <= k)%nat
            /\ (R = [] \/ length P = k)
            /\ (length (P ++ R) <= length (shots w))%nat
            /\ NoDup (map Bullet.oid (P ++ R))
            /\ Lives.hp (Game.health s) = (Lives.hp (Game.health w) - Z.of_nat n)%Z
            /\ P ++ fst (hit_scan hit R) = fst (hit_scan hit (shots w))
            /\ (n + snd (hit_scan hit R))%nat = snd (hit_scan hit (shots w)))
    w) as Hinv.
  destruct Hinv as (Hframe & P & R & n & HPR & HPk & Hcase & Hlen & _ & Hhp & Hres & Hn).
  - split; [repeat split|]. exists [], (shots w), 0%nat. simpl.
    repeat split; auto; try lia.
  - intros k s Hk (Hframe & P & R & n & HPR & HPk & Hcase & Hlen & Hnd' & Hhp & Hres & Hn).
    unfold BulletControl.getBulletInfo. fold (shots s).
    destruct R as [|b R'].
    + rewrite app_nil_r in HPR, Hlen, Hnd'.
      rewrite HPR, (lookup_ge_None_2 P k) by lia.
      split; [exact Hframe|]. exists P, [], n. rewrite app_nil_r.
      repeat split; auto.
    + destruct Hcase as [Hcase|Hcase]; [discriminate Hcase|].
      rewrite HPR, (list_lookup_middle P R' b k) by (symmetry; exact Hcase).
      unfold Game.playerCollisionHandler.
      destruct Hframe as (Hpl & Hg & Hb & Hsb & Hst).
      rewrite Hpl. fold hit.
      rewrite length_app in Hlen. cbn [length] in Hlen.
      cbn [hit_scan] in Hres, Hn.
      destruct (hit b) eqn:Hhit.
      * split; [repeat split; assumption|].
        assert (Hsh : shots (Game.set_health
                               (Lives.healthModifier (-1)
                                  (Game.health
                                     (Game.set_enemyProjectileController
                                        (BulletControl.destroyBullet b
                                           (Game.enemyProjectileController s)) s)))
                               (Game.set_enemyProjectileController
                                  (BulletControl.destroyBullet b
                                     (Game.enemyProjectileController s)) s))
                      = P ++ R').
        { unfold shots. cbn [Game.enemyProjectileController Game.set_health
                             Game.set_enemyProjectileController].
          unfold BulletControl.destroyBullet. fold (shots s). rewrite HPR.
          destruct (NoDup_oid_middle P R' b Hnd') as (HbP & _ & _).
          rewrite (indexOf_middle P R' b b eq_refl HbP).
          cbn [BulletControl.bullets BulletControl.set_bullets].
          unfold Js.splice1. apply delete_middle. }
        destruct (NoDup_oid_middle P R' b Hnd') as (_ & _ & Hnd'').
        destruct R' as [|b' R''].
        -- exists P, [], (S n). rewrite Hsh. cbn [hit_scan fst snd] in *.
           rewrite app_nil_r in *.
           repeat split; auto; try lia.
           cbn [Game.health Game.set_health Lives.healthModifier Lives.hp
                Game.set_enemyProjectileController]. lia.
        -- destruct (hit_scan hit R'') as [kept m] eqn:Hscan.
           cbn [fst snd] in *.
           exists (P ++ [b']), R'', (S n). rewrite Hsh, Hscan.
           rewrite <- !app_assoc. cbn [app fst snd]. rewrite !length_app.
           cbn [length].
           repeat split; auto; try lia.
           ++ cbn [length] in Hlen. lia.
           ++ cbn [Game.health Game.set_health Lives.healthModifier Lives.hp
                   Game.set_enemyProjectileController]. lia.
      * split; [repeat split; assumption|].
        destruct (hit_scan hit R') as [kept m] eqn:Hscan.
        cbn [fst snd] in *.
        exists (P ++ [b]), R', n. rewrite HPR, Hscan.
        rewrite <- !app_assoc. cbn [app fst snd]. rewrite !length_app.
        cbn [length].
        repeat split; auto; try lia.
  - destruct Hframe as (Hpl & Hg & Hb & Hsb & Hst).
    assert (HR : R = []).
    { destruct Hcase as [->|Hcase]; [reflexivity|].
      destruct R as [|b R']; [reflexivity|].
      rewrite length_app in Hlen. cbn [length] in Hlen.
      unfold BulletControl.getBulletInfo in Hcase. fold (shots w) in Hcase. lia. }
    subst R. cbn [hit_scan fst snd] in *. rewrite app_nil_r in *.
    fold (shots (Js.forEach
                  (fun w => BulletControl.getBulletInfo (Game.enemyProjectileController w))
                  (fun projectile (_ : nat) w => Game.playerCollisionHandler projectile w)
                  w)).
    rewrite HPR, Hres, Hhp, <- Hn, Nat.add_0_r.
    repeat split; assumption.
Qed.

Lemma enemy_pass_frame (w : Game.t) :
  let w' := Game.searchForCollisions Game.Bulletcon Game.enemyCollisionHandler w in
  Game.enemyProjectileController w' = Game.enemyProjectileController w
  /\ Game.health w' = Game.health w
  /\ Game.player w' = Game.player w
  /\ Game.gameState w' = Game.gameState w.
Proof.
  cbv zeta. unfold Game.searchForCollisions.
  apply (forEach_preserves _ _
           (fun t => Game.enemyProjectileController t = Game.enemyProjectileController w
                     /\ Game.health t = Game.health w
                     /\ Game.player t = Game.player w
                     /\ Game.gameState t = Game.gameState w)); [repeat split|].
  intros p _ t Ht. rewrite enemyCollisionHandler_scan. exact Ht.
Qed.

(** The enemies' projectiles against the player, in a pool of distinct
    bullets: the pass goes through the pool in order; a bullet that
    overlaps the player is removed and costs one point of health; the
    bullet right after it in the pool is not tested in this frame, even if
    it overlaps the player as well. Health goes down by exactly the number
    of strikes so counted. *)
Theorem checkForCollisions_player_hits (w : Game.t) :
  NoDup (map Bullet.oid (BulletControl.bullets (Game.enemyProjectileController w))) ->
  let w' := Game.checkForCollisions w in
  let scan := hit_scan (Game.collisionDetected (Game.player w))
                (BulletControl.bullets (Game.enemyProjectileController w)) in
  BulletControl.bullets (Game.enemyProjectileController w') = fst scan
  /\ Lives.hp (Game.health w') = (Lives.hp (Game.health w) - Z.of_nat (snd scan))%Z.
Proof.
  intros Hnd. cbv zeta. unfold Game.checkForCollisions.
  destruct (enemy_pass_frame
              (Game.searchForCollisions Game.enemyProjectileController
                 Game.playerCollisionHandler w)) as (-> & -> & _).
  destruct (player_pass_hit_scan w Hnd) as (H1 & H2 & _).
  split; assumption.
Qed.

Lemma checkForCollisions_player_hits_witness :
  let shot y := BulletControl.shoot 310 y (-3) 0 "enemy_1" in
  let w := Game.set_enemyProjectileController
             (shot 380 (shot 380 (shot 380 (BulletControl.new CANVAS_object))))
             Game.initial in
  map Bullet.oid
    (BulletControl.bullets
       (Game.enemyProjectileController (Game.checkForCollisions w))) = [1%nat]
  /\ Lives.hp (Game.health (Game.checkForCollisions w)) = 1%Z.
Proof.
  intros shot w.
  destruct (checkForCollisions_player_hits w) as [Hb Hhp].
  - distinct_shots.
  - rewrite Hb, Hhp. split; vm_compute; reflexivity.
Defined.

End PlayerHits.

(* ===================================================================== *)
(** * The player: keys, lane and rate of fire *)
(* ===================================================================== *)

Section PlayerControls.

Import Spec.

(** Pressing a key and releasing it again. The press turns on the flag
    the key drives (right, left, or fire for any key whose name holds a
    [v]); the release turns that same flag off, whatever the order of the
    tests in the two handlers; the flags of the other keys and the
    position of the player are as before. Only the keys [p] and [o] reach
    the health, adding and taking one point. *)
Theorem key_press_then_release (key : string) (p : Player.t) (lives : Lives.t) :
  let pressed := Player.keyDownHandler key (p, lives) in
  let released := Player.keyUpHandler key (fst pressed) in
  let right := (String.eqb key "ArrowRight" || String.eqb key "Right")%bool in
  let left := (String.eqb key "ArrowLeft" || String.eqb key "Left")%bool in
  let fire := Player.matches_v key in
  (Player.rightPressed (fst pressed) = right || Player.rightPressed p
   /\ Player.leftPressed (fst pressed) = left || Player.leftPressed p
   /\ Player.shooting (fst pressed) = fire || Player.shooting p)
  /\ (Player.rightPressed released = negb right && Player.rightPressed p
      /\ Player.leftPressed released = negb left && Player.leftPressed p
      /\ Player.shooting released = negb fire && Player.shooting p)
  /\ (Player.xPosition released = Player.xPosition p
      /\ Player.yPosition released = Player.yPosition p
      /\ Player.width released = Player.width p
      /\ Player.height released = Player.height p
      /\ Player.movementSpeed released = Player.movementSpeed p)
  /\ snd pressed
     = (if String.eqb key "p" then Lives.healthModifier 1 lives
        else if String.eqb key "o" then Lives.healthModifier (-1) lives
        else lives).
Proof.
  cbv zeta. unfold Player.keyDownHandler, Player.keyUpHandler.
  destruct p as [w h x y v r l s].
  destruct (String.eqb_spec key "ArrowRight") as [->|_];
    [destruct r, l, s; repeat split|].
  destruct (String.eqb_spec key "Right") as [->|_];
    [destruct r, l, s; repeat split|].
  destruct (String.eqb_spec key "ArrowLeft") as [->|_];
    [destruct r, l, s; repeat split|].
  destruct (String.eqb_spec key "Left") as [->|_];
    [destruct r, l, s; repeat split|].
  destruct (String.eqb_spec key "p") as [->|_];
    [destruct r, l, s; repeat split|].
  destruct (String.eqb_spec key "o") as [->|_];
    [destruct r, l, s; repeat split|].
  destruct (Player.matches_v key), r, l, s; repeat split.
Qed.

Lemma inject_Z_lt (a b : Z) : inject_Z a < inject_Z b -> (a < b)%Z.
Proof. intros H. rewrite Zlt_Qlt. exact H. Qed.

Lemma inject_Z_succ (k : Z) : inject_Z (k + 1) == inject_Z k + 1.
Proof. rewrite inject_Z_plus. reflexivity. Qed.

Lemma inject_Z_pred (k : Z) : inject_Z (k - 1) == inject_Z k - 1.
Proof.
  unfold Z.sub. rewrite inject_Z_plus. reflexivity.
Qed.

Lemma movePlayer_on_stop (p : Player.t) :
  on_stop p -> on_stop (Player.movePlayer p).
Proof.
  intros (Hw & Hv & k & Hk & Hx). unfold Player.movePlayer.
  destruct (Player.rightPressed p
            && Js.ltb (Player.xPosition p)
                 (CANVAS.WIDTH - (PADDING.SIDE + Player.width p))) eqn:Hr.
  - apply andb_true_iff in Hr as [_ Hr]. apply ltb_true in Hr.
    rewrite Hw, Hx in Hr. unfold CANVAS.WIDTH, PADDING.SIDE in Hr.
    assert (Hk' : (k < 98)%Z).
    { apply inject_Z_lt. change (inject_Z 98) with 98. lra. }
    split; [exact Hw|]. split; [exact Hv|]. exists (k + 1)%Z. split; [lia|].
    cbn [Player.xPosition Player.set_x]. rewrite Hv, Hx, inject_Z_succ. ring.
  - destruct (Player.leftPressed p && Js.ltb PADDING.SIDE (Player.xPosition p))
      eqn:Hl.
    + apply andb_true_iff in Hl as [_ Hl]. apply ltb_true in Hl.
      rewrite Hx in Hl. unfold PADDING.SIDE in Hl.
      assert (Hk' : (0 < k)%Z).
      { apply inject_Z_lt. change (inject_Z 0) with 0. lra. }
      split; [exact Hw|]. split; [exact Hv|]. exists (k - 1)%Z. split; [lia|].
      cbn [Player.xPosition Player.set_x]. rewrite Hv, Hx, inject_Z_pred. ring.
    + split; [exact Hw|]. split; [exact Hv|]. exists k. split; assumption.
Qed.

Lemma keyDownHandler_frame (key : string) (st : Player.t * Lives.t) :
  Player.xPosition (fst (Player.keyDownHandler key st)) = Player.xPosition (fst st)
  /\ Player.width (fst (Player.keyDownHandler key st)) = Player.width (fst st)
  /\ Player.movementSpeed (fst (Player.keyDownHandler key st))
     = Player.movementSpeed (fst st).
Proof.
  destruct st as [p lives]. unfold Player.keyDownHandler.
  destruct (_ || _)%bool; [|destruct (_ || _)%bool];
    destruct (Player.matches_v key); repeat split.
Qed.

Lemma keyUpHandler_frame (key : string) (p : Player.t) :
  Player.xPosition (Player.keyUpHandler key p) = Player.xPosition p
  /\ Player.width (Player.keyUpHandler key p) = Player.width p
  /\ Player.movementSpeed (Player.keyUpHandler key p) = Player.movementSpeed p.
Proof.
  unfold Player.keyUpHandler.
  destruct (_ || _)%bool; [|destruct (_ || _)%bool;
                            [|destruct (Player.matches_v key)]];
    repeat split.
Qed.

Lemma player_step_on_stop (st : Player.t * Lives.t) (i : player_input) :
  on_stop (fst st) -> on_stop (fst (player_step st i)).
Proof.
  intros Hst. destruct i as [key|key|]; cbn [player_step fst].
  - destruct (keyDownHandler_frame key st) as (Hx & Hw & Hv).
    unfold on_stop. rewrite Hx, Hw, Hv. exact Hst.
  - destruct (keyUpHandler_frame key (fst st)) as (Hx & Hw & Hv).
    unfold on_stop. rewrite Hx, Hw, Hv. exact Hst.
  - apply movePlayer_on_stop, Hst.
Qed.

(** The player never leaves the lane. Whatever keys are pressed and
    released, in whatever order and over however many frames, the sprite
    that starts in the middle stays between the two side bounds: its left
    edge never goes below the side padding and its right edge never past
    the canvas width less the padding. *)
Theorem player_stays_between_bounds (inputs : list player_input) (lives : Lives.t) :
  let p := fst (player_run inputs (Player.new, lives)) in
  PADDING.SIDE <= getLeftEdge p
  /\ getRightEdge p <= CANVAS.WIDTH - PADDING.SIDE.
Proof.
  cbv zeta.
  assert (Hstop : on_stop (fst (player_run inputs (Player.new, lives)))).
  { unfold player_run.
    assert (H0 : on_stop (fst (Player.new, lives))).
    { split; [reflexivity|]. split; [reflexivity|]. exists 49%Z.
      split; [lia|]. vm_compute. reflexivity. }
    revert H0. generalize (Player.new, lives).
    induction inputs as [|i inputs IH]; intros st Hst; [exact Hst|].
    cbn [foldl]. apply IH, player_step_on_stop, Hst. }
  destruct Hstop as (Hw & _ & k & Hk & Hx).
  cbn [getLeftEdge getRightEdge Player_Edges]. rewrite Hw, Hx.
  unfold CANVAS.WIDTH, PADDING.SIDE.
  assert (H0 : inject_Z 0 <= inject_Z k) by (rewrite <- Zle_Qle; lia).
  assert (H98 : inject_Z k <= inject_Z 98) by (rewrite <- Zle_Qle; lia).
  change (inject_Z 0) with 0 in H0. change (inject_Z 98) with 98 in H98.
  split; lra.
Qed.

End PlayerControls.

(* ===================================================================== *)
(** * The player: rate of fire *)
(* ===================================================================== *)

Section RateOfFire.

Import BulletControl Spec.

Lemma player_shoot_admits (p : Player.t) (bc : t) :
  Player.shooting p = true ->
  (waitTime bc <= 0)%Z ->
  fresh (Player.shoot p bc) = S (fresh bc)
  /\ waitTime (Player.shoot p bc) = 38%Z
  /\ shooter (Player.shoot p bc) = Some "player".
Proof.
  intros Hs Hw. unfold Player.shoot. rewrite Hs.
  set (x := Player.xPosition p + Player.width p / 2).
  set (y := Player.yPosition p - Player.height p).
  assert (E : shoot x y 5 39 "player" bc
              = set_waitTime 39 (push_new x y 5 "player" (set_shooter (Some "player") bc))).
  { unfold shoot. cbn [waitTime set_shooter].
    destruct (Z.leb_spec (waitTime bc) 0); [reflexivity | lia]. }
  rewrite E, draw_fresh.
  destruct (draw_frame (set_waitTime 39
              (push_new x y 5 "player" (set_shooter (Some "player") bc))))
    as (_ & -> & ->).
  repeat split.
Qed.

Lemma player_shoot_waits (p : Player.t) (bc : t) :
  shooter bc = Some "player" ->
  (0 < waitTime bc)%Z ->
  fresh (Player.shoot p bc) = fresh bc
  /\ waitTime (Player.shoot p bc) = (waitTime bc - 1)%Z
  /\ shooter (Player.shoot p bc) = Some "player".
Proof.
  intros Hsh Hw. unfold Player.shoot.
  set (x := Player.xPosition p + Player.width p / 2).
  set (y := Player.yPosition p - Player.height p).
  assert (E : shoot x y 5 39 "player" bc = bc).
  { unfold shoot. cbn [waitTime set_shooter].
    destruct (Z.leb_spec (waitTime bc) 0); [lia|].
    simpl. destruct bc as [c bs wt sh fr]. simpl in Hsh. rewrite Hsh. reflexivity. }
  assert (E' : (if Player.shooting p then shoot x y 5 39 "player" bc else bc) = bc)
    by (destruct (Player.shooting p); [exact E | reflexivity]).
  rewrite E', draw_fresh.
  destruct (draw_frame bc) as (_ & -> & ->). rewrite Hsh.
  repeat split.
Qed.

Lemma shoot_frames_wait (ps : list Player.t) (bc : t) :
  shooter bc = Some "player" ->
  (Z.of_nat (length ps) <= waitTime bc)%Z ->
  fresh (shoot_frames ps bc) = fresh bc
  /\ waitTime (shoot_frames ps bc) = (waitTime bc - Z.of_nat (length ps))%Z
  /\ shooter (shoot_frames ps bc) = Some "player".
Proof.
  revert bc. induction ps as [|p ps IH]; intros bc Hsh Hw.
  - simpl. repeat split; [lia | exact Hsh].
  - cbn [shoot_frames foldl]. cbn [length] in Hw.
    destruct (player_shoot_waits p bc Hsh) as (Hf & Hw' & Hsh'); [lia|].
    fold (shoot_frames ps (Player.shoot p bc)).
    destruct (IH (Player.shoot p bc) Hsh') as (IHf & IHw & IHsh); [lia|].
    rewrite IHf, IHw, Hf, Hw'. cbn [length]. repeat split; [lia | exact IHsh].
Qed.

(** The player's shots are 39 frames apart. A frame in which the fire key
    is down and the cooldown has run out creates one projectile; none of the
    next 38 frames creates another, whether the key is held, released or
    tapped during them; the 39th frame after the shot creates the next one
    if the key is down then. *)
Theorem player_shots_39_frames_apart (p0 : Player.t) (ps : list Player.t) (bc : t) :
  Player.shooting p0 = true ->
  (waitTime bc <= 0)%Z ->
  let shot := Player.shoot p0 bc in
  fresh shot = S (fresh bc)
  /\ ((length ps <= 38)%nat -> fresh (shoot_frames ps shot) = fresh shot)
  /\ (length ps = 38%nat ->
      forall p, Player.shooting p = true ->
        fresh (Player.shoot p (shoot_frames ps shot)) = S (fresh shot)).
Proof.
  intros Hs Hw. cbv zeta.
  destruct (player_shoot_admits p0 bc Hs Hw) as (Hf & Hw1 & Hsh).
  split; [exact Hf|]. split.
  - intros Hlen.
    destruct (shoot_frames_wait ps (Player.shoot p0 bc) Hsh) as (E & _); [lia|].
    exact E.
  - intros Hlen p Hp.
    destruct (shoot_frames_wait ps (Player.shoot p0 bc) Hsh) as (E & Ew & _); [lia|].
    destruct (player_shoot_admits p (shoot_frames ps (Player.shoot p0 bc)) Hp)
      as (E' & _); [lia|].
    rewrite E', E. reflexivity.
Qed.

Lemma player_shots_39_frames_apart_witness :
  let p := Player.set_shooting true Player.new in
  fresh (shoot_frames (replicate 38 p) (Player.shoot p (new CANVAS_object)))
  = 1%nat.
Proof.
  intros p.
  destruct (player_shots_39_frames_apart p (replicate 38 p) (new CANVAS_object))
    as (Hshot & Hquiet & _).
  - reflexivity.
  - simpl. lia.
  - rewrite Hquiet, Hshot; [reflexivity|]. rewrite length_replicate. lia.
Defined.

End RateOfFire.

(* ===================================================================== *)
(** * Scoreboard: the bonus life *)
(* ===================================================================== *)

Section BonusLife.

Import Scoreboard Spec.

Lemma drawScoreboard_storage (sb : t) (health : Lives.t) :
  scoreStorage (fst (drawScoreboard (sb, health)))
  = (if (scoreStorage sb =? 10000)%Z then 0%Z else scoreStorage sb)
  /\ snd (drawScoreboard (sb, health))
     = (if (scoreStorage sb =? 10000)%Z
        then Lives.healthModifier 1 health else health)
  /\ score (fst (drawScoreboard (sb, health))) = score sb.
Proof.
  unfold drawScoreboard, addExtra, trackhighscore.
  destruct (highscore sb <? score sb)%Z; cbn [scoreStorage score];
    destruct (Z.eqb_spec (scoreStorage sb) 10000) as [E|E];
    cbn [fst snd scoreStorage score]; repeat split; lia.
Qed.

Lemma score_frames_snoc (gains : list Z) (gain : Z) (st : t * Lives.t) :
  score_frames (gains ++ [gain]) st
  = drawScoreboard (addToScore gain (fst (score_frames gains st)),
                    snd (score_frames gains st)).
Proof. unfold score_frames. rewrite foldl_app. reflexivity. Qed.

(** Single kills, one frame each, below the threshold. *)
Lemma score_frames_single_kills (k : nat) (sb : t) (health : Lives.t) :
  scoreStorage sb = 0%Z ->
  (k < 40)%nat ->
  scoreStorage (fst (score_frames (replicate k 250%Z) (sb, health)))
  = (250 * Z.of_nat k)%Z
  /\ snd (score_frames (replicate k 250%Z) (sb, health)) = health.
Proof.
  intros H0 Hk. induction k as [|k IH]; [simpl; split; [lia | reflexivity]|].
  replace (replicate (S k) 250%Z) with (replicate k 250%Z ++ [250%Z])
    by (rewrite <- replicate_S_end; reflexivity).
  rewrite score_frames_snoc.
  destruct IH as [IHs IHh]; [lia|].
  destruct (drawScoreboard_storage
              (addToScore 250 (fst (score_frames (replicate k 250%Z) (sb, health))))
              (snd (score_frames (replicate k 250%Z) (sb, health))))
    as (-> & -> & _).
  cbn [addToScore scoreStorage]. rewrite IHs, IHh.
  destruct (Z.eqb_spec (250 * Z.of_nat k + 250) 10000); [lia|].
  split; [lia | reflexivity].
Qed.

(** The bonus life is granted only when the scoreboard is drawn with the
    storage at exactly 10000. With one kill (250 points) per frame that
    happens at the 40th kill: the player gains a point of health and the
    storage starts again from 0. But a frame with several kills can carry
    the storage from below 10000 to above it between two draws, and then
    no bonus life is granted any more, whatever is scored afterwards. *)
Theorem bonus_life_only_at_exactly_10000 (sb : t) (health : Lives.t) :
  (scoreStorage sb = 0%Z ->
     let st := score_frames (replicate 40 250%Z) (sb, health) in
     snd st = Lives.healthModifier 1 health
     /\ scoreStorage (fst st) = 0%Z
     /\ score (fst st) = (score sb + 10000)%Z)
  /\ ((10000 < scoreStorage sb)%Z ->
      forall gains, Forall (fun gain => (0 <= gain)%Z) gains ->
        snd (score_frames gains (sb, health)) = health
        /\ (10000 < scoreStorage (fst (score_frames gains (sb, health))))%Z).
Proof.
  split.
  - intros H0. cbv zeta.
    change (replicate 40 250%Z) with (replicate 39 250%Z ++ [250%Z]).
    rewrite score_frames_snoc.
    destruct (score_frames_single_kills 39 sb health H0) as [Hs Hh]; [lia|].
    assert (Hsc : forall k st,
               score (fst (score_frames (replicate k 250%Z) st))
               = (score (fst st) + 250 * Z.of_nat k)%Z).
    { clear. intros k. induction k as [|k IH]; intros st; [simpl; lia|].
      replace (replicate (S k) 250%Z) with (replicate k 250%Z ++ [250%Z])
        by (rewrite <- replicate_S_end; reflexivity).
      rewrite score_frames_snoc.
      destruct (drawScoreboard_storage
                  (addToScore 250 (fst (score_frames (replicate k 250%Z) st)))
                  (snd (score_frames (replicate k 250%Z) st))) as (_ & _ & ->).
      cbn [addToScore score]. rewrite IH. lia. }
    destruct (drawScoreboard_storage
                (addToScore 250 (fst (score_frames (replicate 39 250%Z) (sb, health))))
                (snd (score_frames (replicate 39 250%Z) (sb, health))))
      as (-> & -> & ->).
    cbn [addToScore scoreStorage score]. rewrite Hs, Hh, Hsc.
    change (250 * Z.of_nat 39 + 250 =? 10000)%Z with true.
    cbn [fst]. repeat split; lia.
  - intros Hpast gains.
    induction gains as [|gain gains IH] using rev_ind; intros Hgains;
      [split; [reflexivity | exact Hpast]|].
    apply Forall_app in Hgains as [Hgains Hgain]. apply Forall_inv in Hgain.
    rewrite score_frames_snoc. destruct (IH Hgains) as [IHh IHs].
    destruct (drawScoreboard_storage
                (addToScore gain (fst (score_frames gains (sb, health))))
                (snd (score_frames gains (sb, health)))) as (-> & -> & _).
    cbn [addToScore scoreStorage].
    destruct (Z.eqb_spec (scoreStorage (fst (score_frames gains (sb, health))) + gain)
                10000); [lia|].
    split; [exact IHh | lia].
Qed.

End BonusLife.

(* ===================================================================== *)
(** * The frame: when the game ends *)
(* ===================================================================== *)

Section GameOver.

Import Js Game Spec.

Lemma checkForCollisions_gameState (w : Game.t) :
  gameState (checkForCollisions w) = gameState w.
Proof.
  unfold checkForCollisions, searchForCollisions.
  apply (forEach_preserves _ _ (fun t => gameState t = gameState w)).
  - apply (forEach_preserves _ _ (fun t => gameState t = gameState w));
      [reflexivity|].
    intros p _ t Ht. unfold playerCollisionHandler.
    destruct (collisionDetected (player t) p); exact Ht.
  - intros p _ t Ht. rewrite enemyCollisionHandler_scan. exact Ht.
Qed.

Lemma drawGameUiComponents_frame (w : Game.t) :
  gameState (drawGameUiComponents w) = gameState w
  /\ enemyGrid (drawGameUiComponents w) = enemyGrid w.
Proof.
  unfold drawGameUiComponents.
  destruct (Scoreboard.drawScoreboard _) as [sb h]. split; reflexivity.
Qed.

(** The rule that ends the game, for a frame of the running state that
    completes. The frame ends in GAME_OVER exactly when the grid held a
    row at the start of the frame and, after the frame's collisions,
    either the health is exactly 0 or a live enemy of the bottom row is
    below the player's line. A health that has gone from 1 to below 0
    within one frame does not end the game; neither does a frame that
    starts a new wave. In every other case the state stays RUNNING. *)
Theorem running_frame_game_over (random : nat -> Z) (w w' : Game.t) :
  gameState w = RUNNING ->
  running_frame random w = Normal w' ->
  (gameState w' = GAME_OVER <->
   enemyGrid w <> []
   /\ (Lives.hp (health w') = 0%Z
       \/ EnemyGridController.checkIfEnemyMovesPastPlayer (enemyGrid w')
          = Normal true))
  /\ (gameState w' = RUNNING \/ gameState w' = GAME_OVER).
Proof.
  intros Hrun Hframe. unfold running_frame in Hframe.
  destruct (drawGameUiComponents_frame w) as [Hst Hg].
  set (w1 := drawGameUiComponents w) in *.
  unfold Player.drawPlayer in Hframe.
  cbn [enemyGrid set_Bulletcon set_player enemyProjectileController] in Hframe.
  rewrite Hg in Hframe. unfold EnemyGridController.anyEnemiesAlive in Hframe.
  destruct (enemyGrid w) as [|row g] eqn:Egrid.
  - cbn [length Nat.eqb] in Hframe. injection Hframe as <-.
    cbn [createNewEnemyWave gameState set_enemyProjectileController set_Bulletcon
         set_enemyGrid set_player].
    rewrite Hst, Hrun. split; [|left; reflexivity].
    split; [discriminate | intros [Hne _]; congruence].
  - cbn [length Nat.eqb] in Hframe. rewrite <- Egrid in Hframe.
    destruct (EnemyGridController.draw random _ _) as [[g1 pc1]|];
      [|discriminate Hframe].
    cbn [mbind] in Hframe. simpl in Hframe.
    match type of Hframe with
    | context [checkHealth (checkForCollisions ?s)] =>
        pose proof (checkForCollisions_gameState s) as Hcol;
        set (w2 := checkForCollisions s) in *
    end.
    cbn [gameState set_enemyProjectileController set_enemyGrid set_Bulletcon
         set_player] in Hcol.
    rewrite Hst, Hrun in Hcol.
    assert (Hh : (gameState (checkHealth w2) = GAME_OVER <-> Lives.hp (health w2) = 0%Z)
                 /\ (gameState (checkHealth w2) = RUNNING
                     \/ gameState (checkHealth w2) = GAME_OVER)
                 /\ health (checkHealth w2) = health w2
                 /\ enemyGrid (checkHealth w2) = enemyGrid w2).
    { unfold checkHealth, Lives.getCurrenthp.
      destruct (Z.eqb_spec (Lives.hp (health w2)) 0) as [E|E].
      - cbn [gameState set_gameState health enemyGrid].
        repeat split; auto.
      - rewrite Hcol. repeat split; auto; [discriminate | contradiction]. }
    destruct Hh as (Hover & Hcases & Hhealth & Hgrid).
    destruct (EnemyGridController.checkIfEnemyMovesPastPlayer
                (enemyGrid (checkHealth w2))) as [past|] eqn:Hpast;
      [|discriminate Hframe].
    simpl in Hframe. injection Hframe as <-.
    destruct past.
    + cbn [gameState set_gameState health enemyGrid]. rewrite Hpast.
      split; [|right; reflexivity].
      split; [intros _; split; [discriminate | right; reflexivity] | reflexivity].
    + rewrite Hpast, Hhealth. split; [|exact Hcases].
      rewrite Hover. split.
      * intros E. split; [discriminate | left; exact E].
      * intros [_ [E|E]]; [exact E | discriminate E].
Qed.

Lemma running_frame_game_over_witness :
  let w := set_health (Lives.mk 0 0 false)
             (set_gameState RUNNING Game.initial) in
  exists w', running_frame (fun _ => 1%Z) w = Normal w'
             /\ gameState w' = GAME_OVER.
Proof.
  intros w.
  destruct (running_frame (fun _ => 1%Z) w) as [w'|] eqn:Hframe;
    [|vm_compute in Hframe; discriminate Hframe].
  exists w'. split; [reflexivity|].
  destruct (running_frame_game_over (fun _ => 1%Z) w w' eq_refl Hframe) as [Hiff _].
  apply Hiff. split; [discriminate|]. left.
  assert (Hw' : Normal w' = running_frame (fun _ => 1%Z) w) by (symmetry; exact Hframe).
  assert (Hhp : match running_frame (fun _ => 1%Z) w with
                | Normal s => Lives.hp (health s)
                | Throw _ => 0%Z
                end = 0%Z) by (vm_compute; reflexivity).
  rewrite <- Hw' in Hhp. exact Hhp.
Defined.

End GameOver.

(* ===================================================================== *)
(** * Enemy fire: the cooldown is counted in requests *)
(* ===================================================================== *)

Section EnemyFire.

Import BulletControl Spec.

Lemma fire_all_waits (random : nat -> Z) (k : nat) (enemies : list Enemy.t)
    (pc : t) :
  (Z.of_nat (length enemies) <= waitTime pc)%Z ->
  bullets (EnemyGridController.fire_all random k enemies pc) = bullets pc
  /\ waitTime (EnemyGridController.fire_all random k enemies pc)
     = (waitTime pc - Z.of_nat (length enemies))%Z
  /\ fresh (EnemyGridController.fire_all random k enemies pc) = fresh pc.
Proof.
  revert k pc. induction enemies as [|e rest IH]; intros k pc Hw.
  - simpl. repeat split. lia.
  - cbn [EnemyGridController.fire_all]. cbn [length] in Hw.
    set (pc1 := shoot (Enemy.getMiddlePosition e) (getBottomEdge e) (-3)
                  (random k) "enemy_1" pc).
    assert (H1 : bullets pc1 = bullets pc
                 /\ waitTime pc1 = (waitTime pc - 1)%Z
                 /\ fresh pc1 = fresh pc).
    { subst pc1. unfold shoot. cbn [waitTime set_shooter].
      destruct (Z.leb_spec (waitTime pc) 0); [lia|]. repeat split. }
    destruct H1 as (Hb & Hw1 & Hf).
    destruct (IH (S k) pc1) as (IHb & IHw & IHf); [lia|].
    rewrite IHb, IHw, IHf, Hb, Hw1, Hf. cbn [length]. repeat split. lia.
Qed.

Lemma fire_all_app (random : nat -> Z) (k : nat) (l1 l2 : list Enemy.t) (pc : t) :
  EnemyGridController.fire_all random k (l1 ++ l2) pc
  = EnemyGridController.fire_all random (k + length l1) l2
      (EnemyGridController.fire_all random k l1 pc).
Proof.
  revert k pc. induction l1 as [|e l1 IH]; intros k pc.
  - simpl. rewrite Nat.add_0_r. reflexivity.
  - cbn [app EnemyGridController.fire_all length]. rewrite IH. f_equal. lia.
Qed.

(** The enemies' cooldown is counted in requests, not in frames: every
    enemy that is lowest in its column files one request per frame, and a
    request that is turned down takes one off the counter. While the
    counter is at least the number of firing enemies, a frame admits no
    projectile and lowers the counter by that number; the request that
    finds the counter at 0 is admitted: its projectile starts at the
    middle of that enemy's bottom edge with speed -3 (downwards), and the
    counter restarts one below the delay drawn for that request. *)
Theorem enemy_fire_counts_requests (random : nat -> Z) (k : nat)
    (enemies : list Enemy.t) (pc : t) :
  ((Z.of_nat (length enemies) <= waitTime pc)%Z ->
     bullets (EnemyGridController.fire_all random k enemies pc) = bullets pc
     /\ waitTime (EnemyGridController.fire_all random k enemies pc)
        = (waitTime pc - Z.of_nat (length enemies))%Z)
  /\ (forall e,
        waitTime pc = Z.of_nat (length enemies) ->
        let pc' := EnemyGridController.fire_all random k (enemies ++ [e]) pc in
        bullets pc'
        = bullets pc ++ [Bullet.new (fresh pc) (Enemy.getMiddlePosition e)
                           (getBottomEdge e) (-3) "enemy_1"]
        /\ waitTime pc' = (random (k + length enemies)%nat - 1)%Z).
Proof.
  split.
  - intros Hw. destruct (fire_all_waits random k enemies pc Hw) as (Hb & Hw' & _).
    split; assumption.
  - intros e Hw. cbv zeta. rewrite fire_all_app.
    destruct (fire_all_waits random k enemies pc) as (Hb & Hw' & Hf); [lia|].
    set (pc1 := EnemyGridController.fire_all random k enemies pc) in *.
    cbn [EnemyGridController.fire_all]. unfold shoot.
    cbn [waitTime set_shooter]. rewrite Hw'.
    replace (waitTime pc - Z.of_nat (length enemies))%Z with 0%Z by lia.
    cbn [Z.leb Z.compare negb String.eqb Ascii.eqb Bool.eqb].
    cbn [bullets waitTime push_new set_waitTime set_shooter fresh].
    rewrite Hb, Hf. split; reflexivity.
Qed.

End EnemyFire.

(* ===================================================================== *)
(** * Sprites: the animation counters *)
(* ===================================================================== *)

Section Animation.

Lemma animation_step (images count index n : Z) :
  (0 <= n)%Z -> (0 < images)%Z ->
  count = (n mod 21)%Z ->
  index = ((n / 21) mod images)%Z ->
  let count1 := (count + 1)%Z in
  let index' := if (20 <? count1)%Z then (index + 1)%Z else index in
  let count' := if (20 <? count1)%Z then 0%Z else count1 in
  let index'' := if (images - 1 <? index')%Z then 0%Z else index' in
  count' = ((n + 1) mod 21)%Z /\ index'' = (((n + 1) / 21) mod images)%Z.
Proof.
  intros Hn Himg -> ->. cbv zeta.
  pose proof (Z.div_mod n 21 ltac:(lia)) as Hdm.
  pose proof (Z.mod_pos_bound n 21 ltac:(lia)) as Hr.
  pose proof (Z.mod_pos_bound (n / 21) images Himg) as Hi.
  destruct (Z.ltb_spec 20 (n mod 21 + 1)) as [Hwrap|Hstay].
  - assert (Hr20 : (n mod 21 = 20)%Z) by lia.
    assert (Hq : ((n + 1) / 21 = n / 21 + 1)%Z).
    { symmetry. apply (Z.div_unique (n + 1) 21 (n / 21 + 1) 0); lia. }
    assert (Hm : ((n + 1) mod 21 = 0)%Z).
    { symmetry. apply (Z.mod_unique (n + 1) 21 (n / 21 + 1) 0); lia. }
    rewrite Hq, Hm. split; [reflexivity|].
    pose proof (Z.div_mod (n / 21) images ltac:(lia)) as Hdm'.
    destruct (Z.ltb_spec (images - 1) ((n / 21) mod images + 1)) as [Hw|Hs].
    + apply (Z.mod_unique (n / 21 + 1) images ((n / 21) / images + 1) 0); [lia|].
      nia.
    + apply (Z.mod_unique (n / 21 + 1) images ((n / 21) / images)); [lia|].
      nia.
  - assert (Hq : ((n + 1) / 21 = n / 21)%Z).
    { symmetry. apply (Z.div_unique (n + 1) 21 (n / 21) (n mod 21 + 1)); lia. }
    assert (Hm : ((n + 1) mod 21 = n mod 21 + 1)%Z).
    { symmetry. apply (Z.mod_unique (n + 1) 21 (n / 21) (n mod 21 + 1)); lia. }
    rewrite Hq, Hm. split; [reflexivity|].
    destruct (Z.ltb_spec (images - 1) ((n / 21) mod images)); [lia | reflexivity].
Qed.

Lemma enemy_draw_frames (e : Enemy.t) :
  Enemy.frameIndex (Enemy.draw e) = Enemy.frameIndex (Enemy.animate e)
  /\ Enemy.frameCount (Enemy.draw e) = Enemy.frameCount (Enemy.animate e)
  /\ Enemy.spriteImageCount (Enemy.draw e) = Enemy.spriteImageCount e
  /\ Enemy.maxFrameCount (Enemy.draw e) = Enemy.maxFrameCount e.
Proof.
  unfold Enemy.draw, Enemy.move, Enemy.animate.
  destruct (Enemy.maxFrameCount e <? Enemy.frameCount e + 1)%Z;
    cbn [Enemy.isGoingRight Enemy.set_frame];
    destruct (Enemy.isGoingRight e); repeat split.
Qed.

Lemma bullet_draw_frames (b : Bullet.t) :
  Bullet.frameCount (Bullet.draw b)
  = (if (Bullet.maxFrameCount b <? Bullet.frameCount b + 1)%Z
     then 0%Z else (Bullet.frameCount b + 1)%Z)
  /\ Bullet.frameIndex (Bullet.draw b)
     = (let fi := if (Bullet.maxFrameCount b <? Bullet.frameCount b + 1)%Z
                  then (Bullet.frameIndex b + 1)%Z else Bullet.frameIndex b in
        if (Bullet.spriteImageCount b - 1 <? fi)%Z then 0%Z else fi)
  /\ Bullet.spriteImageCount (Bullet.draw b) = Bullet.spriteImageCount b
  /\ Bullet.maxFrameCount (Bullet.draw b) = Bullet.maxFrameCount b.
Proof.
  unfold Bullet.draw.
  destruct (Bullet.maxFrameCount b <? Bullet.frameCount b + 1)%Z; repeat split.
Qed.

(** The animation of the sprites. After [n] draws an enemy shows image
    [(n / 21) mod 3] of its sheet and a projectile image [(n / 21) mod 4],
    with the frame counter at [n mod 21]: the image changes every 21
    draws, and the index always names an image of the sheet. *)
Theorem sprite_animation_cycles (n : nat) :
  (forall cw ch x y,
     let e := Nat.iter n Enemy.draw (Enemy.new cw ch x y) in
     Enemy.frameCount e = (Z.of_nat n mod 21)%Z
     /\ Enemy.frameIndex e = ((Z.of_nat n / 21) mod 3)%Z
     /\ (0 <= Enemy.frameIndex e < Enemy.spriteImageCount e)%Z)
  /\ (forall id x y speed shooter,
        let b := Nat.iter n Bullet.draw (Bullet.new id x y speed shooter) in
        Bullet.frameCount b = (Z.of_nat n mod 21)%Z
        /\ Bullet.frameIndex b = ((Z.of_nat n / 21) mod 4)%Z
        /\ (0 <= Bullet.frameIndex b < Bullet.spriteImageCount b)%Z).
Proof.
  split.
  - intros cw ch x y. cbv zeta.
    assert (H : Enemy.frameCount (Nat.iter n Enemy.draw (Enemy.new cw ch x y))
                = (Z.of_nat n mod 21)%Z
                /\ Enemy.frameIndex (Nat.iter n Enemy.draw (Enemy.new cw ch x y))
                   = ((Z.of_nat n / 21) mod 3)%Z
                /\ Enemy.spriteImageCount (Nat.iter n Enemy.draw (Enemy.new cw ch x y))
                   = 3%Z
                /\ Enemy.maxFrameCount (Nat.iter n Enemy.draw (Enemy.new cw ch x y))
                   = 20%Z).
    { induction n as [|n (IHc & IHi & IHs & IHm)]; [repeat split|].
      rewrite Nat.iter_succ.
      destruct (enemy_draw_frames (Nat.iter n Enemy.draw (Enemy.new cw ch x y)))
        as (-> & -> & -> & ->).
      unfold Enemy.animate. rewrite IHs, IHm.
      destruct (animation_step 3 _ _ (Z.of_nat n) ltac:(lia) ltac:(lia) IHc IHi)
        as [Hc Hi].
      replace (Z.of_nat (S n)) with (Z.of_nat n + 1)%Z by lia.
      rewrite <- Hc, <- Hi.
      destruct (20 <? Enemy.frameCount _ + 1)%Z; repeat split. }
    destruct H as (Hc & Hi & Hs & _). rewrite Hc, Hi, Hs.
    repeat split; apply Z.mod_pos_bound; lia.
  - intros id x y speed shooter. cbv zeta.
    assert (H : Bullet.frameCount (Nat.iter n Bullet.draw (Bullet.new id x y speed shooter))
                = (Z.of_nat n mod 21)%Z
                /\ Bullet.frameIndex (Nat.iter n Bullet.draw (Bullet.new id x y speed shooter))
                   = ((Z.of_nat n / 21) mod 4)%Z
                /\ Bullet.spriteImageCount
                     (Nat.iter n Bullet.draw (Bullet.new id x y speed shooter)) = 4%Z
                /\ Bullet.maxFrameCount
                     (Nat.iter n Bullet.draw (Bullet.new id x y speed shooter)) = 20%Z).
    { induction n as [|n (IHc & IHi & IHs & IHm)]; [repeat split|].
      rewrite Nat.iter_succ.
      destruct (bullet_draw_frames
                  (Nat.iter n Bullet.draw (Bullet.new id x y speed shooter)))
        as (-> & -> & -> & ->).
      cbv zeta. rewrite IHs, IHm.
      destruct (animation_step 4 _ _ (Z.of_nat n) ltac:(lia) ltac:(lia) IHc IHi)
        as [Hc Hi].
      replace (Z.of_nat (S n)) with (Z.of_nat n + 1)%Z by lia.
      rewrite <- Hc, <- Hi.
      destruct (20 <? Bullet.frameCount _ + 1)%Z; repeat split. }
    destruct H as (Hc & Hi & Hs & _). rewrite Hc, Hi, Hs.
    repeat split; apply Z.mod_pos_bound; lia.
Qed.

End Animation.

(* ===================================================================== *)
(** * Lives: hearts and health *)
(* ===================================================================== *)

Section Hearts.

Import Lives Spec.

Lemma hits_past_the_bonus (n : nat) :
  Nat.iter n (fun s => drawLives (healthModifier (-1) s)) (mk 3 2 false)
  = mk (3 - Z.of_nat n) (2 - Z.of_nat n) false.
Proof.
  induction n as [|n IH]; [reflexivity|].
  rewrite Nat.iter_succ, IH. unfold drawLives, healthModifier.
  cbn [maxHP hp tempHPBlock].
  destruct (Z.ltb_spec 3 (3 - Z.of_nat n + -1)); [lia|].
  destruct (Z.ltb_spec 3 (2 - Z.of_nat n + -1)); [lia|].
  f_equal; lia.
Qed.

(** Hearts and health. As long as the hearts are redrawn after every
    change, a change of the health by [-1] or more keeps the ceiling equal
    to the health capped at 3. Two hits between two redraws while the
    bonus block is shown break this: from health 4 the health drops to 2
    and the ceiling stays at 3, and every later hit lowers both, so the
    ceiling stays one too high. *)
Theorem hearts_follow_health (l : Lives.t) :
  hearts_agree l ->
  (forall i, (-1 <= i)%Z -> hearts_agree (drawLives (healthModifier i l)))
  /\ ((3 < hp l)%Z ->
      let l' := drawLives (healthModifier (-1) (healthModifier (-1) l)) in
      hp l' = (hp l - 2)%Z /\ maxHP l' = 3%Z
      /\ (hp l = 4%Z ->
          forall n, let l'' := Nat.iter n (fun s => drawLives (healthModifier (-1) s)) l' in
                    hp l'' = (2 - Z.of_nat n)%Z /\ maxHP l'' = (3 - Z.of_nat n)%Z)).
Proof.
  intros [Hmax Hblock]. split.
  - intros i Hi. unfold hearts_agree, drawLives, healthModifier.
    cbn [maxHP hp tempHPBlock]. split; [|reflexivity].
    rewrite Hblock, Hmax.
    destruct (Z.ltb_spec 3 (hp l)).
    + destruct (Z.ltb_spec 3 (Z.min 3 (hp l))); lia.
    + destruct (Z.ltb_spec 3 (Z.min 3 (hp l) + i)); lia.
  - intros Hbonus. cbv zeta.
    assert (Hb : tempHPBlock l = true).
    { rewrite Hblock. apply Z.ltb_lt, Hbonus. }
    assert (Hm : maxHP l = 3%Z) by lia.
    assert (E : drawLives (healthModifier (-1) (healthModifier (-1) l))
                = mk 3 (hp l - 2) (3 <? hp l - 2)%Z).
    { unfold drawLives, healthModifier. cbn [maxHP hp tempHPBlock].
      rewrite Hb, Hm. cbn [Z.ltb Z.compare Pos.compare Pos.compare_cont].
      f_equal; [lia | f_equal; lia]. }
    rewrite E. cbn [hp maxHP]. split; [reflexivity|]. split; [reflexivity|].
    intros H4 n. rewrite H4. cbv zeta.
    change (mk 3 (4 - 2) (3 <? 4 - 2)%Z) with (mk 3 2 false).
    rewrite hits_past_the_bonus. split; reflexivity.
Qed.

Lemma hearts_follow_health_witness :
  hearts_agree (drawLives (healthModifier (-1) initial)).
Proof.
  destruct (hearts_follow_health initial) as [Hstep _].
  - split; reflexivity.
  - apply Hstep. lia.
Defined.

End Hearts.

(* ===================================================================== *)
(** * The menu and the game, event by event *)
(* ===================================================================== *)

Section MenuAndGame.

Import Js Spec.

Lemma pool_ok_player_shoot (p : Player.t) (bc : BulletControl.t) :
  pool_ok bc -> pool_ok (Player.shoot p bc).
Proof.
  intros Hok. unfold Player.shoot. apply pool_ok_draw.
  destruct (Player.shooting p); [apply pool_ok_shoot|]; exact Hok.
Qed.

(** What one call of [menu.draw] can change. *)
Lemma menu_draw_frame (displayScore : bool) (m m' : Menu.t) (w w' : Game.t) :
  Menu.draw displayScore m w = Normal (m', w') ->
  (Game.gameState w' = Game.gameState w
   /\ Game.enemyGrid w' = Game.enemyGrid w
   /\ Game.enemyProjectileController w' = Game.enemyProjectileController w
   /\ (pool_ok (Game.Bulletcon w) -> pool_ok (Game.Bulletcon w')))
  /\ Menu.selection m' = Menu.selection m
  /\ Menu.menuState m' = Menu.menuState m
  /\ (Menu.menuState m = Menu.Screen Menu.PLAY ->
      Menu.playGame m' = true /\ Menu.retry m' = false)
  /\ (Menu.menuState m <> Menu.Screen Menu.PLAY -> m' = m).
Proof.
  unfold Menu.draw. destruct m as [st sel pg rt]. cbn [Menu.menuState].
  destruct st as [|[| | |]].
  - intros [= <- <-]. split; [do 3 (split; [reflexivity|]); auto|].
    do 2 (split; [reflexivity|]). split; [discriminate | reflexivity].
  - intros [= <- <-]. split; [do 3 (split; [reflexivity|]); auto|].
    do 2 (split; [reflexivity|]). split; [split; reflexivity | congruence].
  - intros [= <- <-]. split; [do 3 (split; [reflexivity|]); auto|].
    do 2 (split; [reflexivity|]). split; [discriminate | reflexivity].
  - unfold Player.drawPlayer. intros [= <- <-].
    split; [do 3 (split; [reflexivity|]); apply pool_ok_player_shoot|].
    do 2 (split; [reflexivity|]). split; [discriminate | reflexivity].
  - destruct displayScore; [|discriminate].
    destruct (Scoreboard.drawScoreboard _) as [sb h]. intros [= <- <-].
    split; [do 3 (split; [reflexivity|]); auto|].
    do 2 (split; [reflexivity|]). split; [discriminate | reflexivity].
Qed.

Lemma menu_draw_total (m : Menu.t) (w : Game.t) :
  (exists r, Menu.draw true m w = Normal r)
  /\ (Menu.menuState m <> Menu.Screen Menu.GAME_OVER ->
      exists r, Menu.draw false m w = Normal r).
Proof.
  unfold Menu.draw, Player.drawPlayer. split.
  - destruct (Menu.menuState m) as [|[| | |]]; try (eexists; reflexivity).
    destruct (Scoreboard.drawScoreboard _); eexists; reflexivity.
  - intros Hst.
    destruct (Menu.menuState m) as [|[| | |]]; try (eexists; reflexivity).
    congruence.
Qed.

(** What a key does to the menu. *)
Lemma keydownHandler_cases (key : string) (m : Menu.t) :
  (Menu.selection m = Menu.GAME_OVER ->
   Menu.keydownHandler key m = Menu.mk Menu.MainMenu Menu.PLAY false true
   \/ (Menu.selection (Menu.keydownHandler key m) = Menu.GAME_OVER
       /\ Menu.retry (Menu.keydownHandler key m) = Menu.retry m
       /\ Menu.playGame (Menu.keydownHandler key m) = Menu.playGame m))
  /\ (Menu.selection m <> Menu.GAME_OVER ->
      Menu.selection (Menu.keydownHandler key m) <> Menu.GAME_OVER
      /\ Menu.retry (Menu.keydownHandler key m) = Menu.retry m
      /\ Menu.playGame (Menu.keydownHandler key m) = Menu.playGame m
      /\ (Menu.menuState m <> Menu.Screen Menu.GAME_OVER ->
          Menu.menuState (Menu.keydownHandler key m)
          <> Menu.Screen Menu.GAME_OVER)).
Proof.
  unfold Menu.keydownHandler. destruct m as [st sel pg rt].
  cbn [Menu.selection Menu.menuState Menu.retry Menu.playGame].
  destruct (String.eqb_spec key "ArrowUp") as [->|_];
    [destruct sel; cbn; split; intros; repeat split; auto; try congruence|].
  destruct (String.eqb_spec key "Up") as [->|_];
    [destruct sel; cbn; split; intros; repeat split; auto; try congruence|].
  destruct (String.eqb_spec key "ArrowDown") as [->|_];
    [destruct sel; cbn; split; intros; repeat split; auto; try congruence|].
  destruct (String.eqb_spec key "Down") as [->|_];
    [destruct sel; cbn; split; intros; repeat split; auto; try congruence|].
  destruct (String.eqb_spec key "Enter") as [->|_];
    [destruct sel; cbn; split; intros; repeat split; auto; try congruence|].
  destruct (String.eqb_spec key "Escape") as [->|_];
    [destruct sel; cbn; split; intros; repeat split; auto; try congruence|].
  destruct (String.eqb_spec key "Esc") as [->|_];
    [destruct sel; cbn; split; intros; repeat split; auto; try congruence|].
  cbn. split; intros; repeat split; auto.
Qed.

Lemma running_frame_states (random : nat -> Z) (w w' : Game.t) :
  Game.gameState w = Game.RUNNING ->
  Game.running_frame random w = Normal w' ->
  Game.gameState w' = Game.RUNNING \/ Game.gameState w' = Game.GAME_OVER.
Proof.
  intros Hrun Hframe. unfold Game.running_frame in Hframe.
  destruct (drawGameUiComponents_frame w) as [Hst _].
  unfold Player.drawPlayer in Hframe.
  destruct (Nat.eqb _ 0).
  - injection Hframe as <-. left. cbn. rewrite Hst. exact Hrun.
  - destruct (EnemyGridController.draw random _ _) as [[g1 pc1]|];
      [|discriminate Hframe].
    simpl in Hframe.
    match type of Hframe with
    | context [Game.checkHealth (Game.checkForCollisions ?s)] =>
        pose proof (checkForCollisions_gameState s) as Hcol;
        set (w2 := Game.checkForCollisions s) in *
    end.
    cbn in Hcol. rewrite Hst, Hrun in Hcol.
    assert (Hh : Game.gameState (Game.checkHealth w2) = Game.RUNNING
                 \/ Game.gameState (Game.checkHealth w2) = Game.GAME_OVER).
    { unfold Game.checkHealth.
      destruct (Lives.getCurrenthp (Game.health w2) =? 0)%Z; [right | left];
        [reflexivity | exact Hcol]. }
    destruct (EnemyGridController.checkIfEnemyMovesPastPlayer _) as [past|];
      [|discriminate Hframe].
    simpl in Hframe. injection Hframe as <-.
    destruct past; [right; reflexivity | exact Hh].
Qed.

Lemma screen_play_dec (st : Menu.screen) :
  st = Menu.Screen Menu.PLAY \/ st <> Menu.Screen Menu.PLAY.
Proof. destruct st as [|[| | |]]; auto; right; discriminate. Qed.

Lemma startGame_in_step (random : nat -> Z) (s s' : Session.t) :
  menu_in_step s -> Session.startGame random s = Normal s' -> menu_in_step s'.
Proof.
  unfold menu_in_step, Session.startGame. cbv zeta.
  destruct (Game.gameState (Session.game s)) eqn:Hst; intros Hinv Hstep.
  - destruct (Menu.draw false _ _) as [[m' w']|] eqn:Hd; [|discriminate Hstep].
    cbn [mbind] in Hstep. simpl in Hstep.
    destruct (menu_draw_frame _ _ _ _ _ Hd)
      as ((Hgs & _) & Hsel & Hms & Hplay & Hother).
    destruct Hinv as (Hpg & Hs & Hm).
    unfold Menu.hasGameStarted in Hstep.
    destruct (Menu.playGame m') eqn:Hpg'; injection Hstep as <-;
      cbn [Session.game Session.menu Game.gameState Game.createNewEnemyWave
           Game.set_enemyProjectileController Game.set_Bulletcon
           Game.set_enemyGrid Game.set_gameState].
    + rewrite Hsel. split; [|exact Hs].
      destruct (screen_play_dec (Menu.menuState (Session.menu s))) as [E|E].
      * apply Hplay, E.
      * rewrite (Hother E) in Hpg'. congruence.
    + rewrite Hgs, Hst, Hsel, Hms. auto.
  - destruct (Game.running_frame random _) as [w'|] eqn:Hf; [|discriminate Hstep].
    simpl in Hstep. injection Hstep as <-.
    cbn [Session.game Session.menu].
    destruct (running_frame_states random _ _ Hst Hf) as [-> | ->].
    + exact Hinv.
    + cbn [Menu.setupGameOverMenuScreen Menu.retry]. destruct Hinv as [-> _].
      discriminate.
  - destruct (Menu.draw true _ _) as [[m' w']|] eqn:Hd; [|discriminate Hstep].
    simpl in Hstep.
    destruct (menu_draw_frame _ _ _ _ _ Hd)
      as ((Hgs & _) & Hsel & Hms & Hplay & Hother).
    unfold Menu.toPlayAgain in Hstep.
    destruct (Menu.retry m') eqn:Hrt; injection Hstep as <-;
      cbn [Session.game Session.menu Game.gameState Game.set_scoreboard
           Game.set_health Game.set_gameState].
    + destruct (screen_play_dec (Menu.menuState (Session.menu s))) as [E|E].
      * destruct (Hplay E) as [_ Hr]. congruence.
      * rewrite (Hother E) in *. apply Hinv, Hrt.
    + rewrite Hgs, Hst, Hrt. discriminate.
Qed.

Lemma step_in_step (i : Session.input) (s s' : Session.t) :
  menu_in_step s -> Session.step i s = Normal s' -> menu_in_step s'.
Proof.
  destruct i as [key|key|random]; cbn [Session.step].
  - destruct (Player.keyDownHandler _ _) as [p h]. intros Hinv [= <-].
    unfold menu_in_step in *. cbv zeta in *.
    cbn [Session.game Session.menu Game.gameState Game.set_health
         Game.set_player].
    destruct (keydownHandler_cases key (Session.menu s)) as [Hgo Hother].
    destruct (Game.gameState (Session.game s)).
    + destruct Hinv as (Hpg & Hs & Hm).
      destruct (Hother Hs) as (Hs' & _ & Hpg' & Hm'). rewrite Hpg'. auto.
    + destruct Hinv as (Hrt & Hs).
      destruct (Hother Hs) as (Hs' & Hrt' & _). rewrite Hrt'. auto.
    + intros Hrt'.
      destruct (Menu.selection (Session.menu s)) eqn:Hsel.
      1-3: (destruct Hother as (Hs' & Hrt & Hpg' & Hm'); [discriminate|];
            rewrite Hrt in Hrt'; destruct (Hinv Hrt') as (Hpg & _ & Hm);
            rewrite Hpg'; auto).
      destruct (Hgo eq_refl) as [-> | (_ & Hrt & _)].
      * cbn. repeat split; discriminate.
      * rewrite Hrt in Hrt'. destruct (Hinv Hrt') as (_ & Hs & _). congruence.
  - intros Hinv [= <-]. exact Hinv.
  - apply startGame_in_step.
Qed.

Lemma step_total (i : Session.input) (s : Session.t) :
  menu_in_step s -> exists s', Session.step i s = Normal s'.
Proof.
  intros Hinv. destruct i as [key|key|random]; cbn [Session.step].
  - destruct (Player.keyDownHandler _ _). eauto.
  - eauto.
  - unfold Session.startGame. unfold menu_in_step in Hinv. cbv zeta in Hinv.
    destruct (Game.gameState (Session.game s)).
    + destruct Hinv as (_ & _ & Hm).
      destruct (menu_draw_total (Session.menu s) (Session.game s)) as [_ Hd].
      destruct (Hd Hm) as [r ->]. simpl. eauto.
    + destruct (running_frame_total random (Session.game s)) as [w ->].
      simpl. eauto.
    + destruct (menu_draw_total (Session.menu s) (Session.game s)) as [[r ->] _].
      simpl. eauto.
Qed.

Lemma run_in_step (inputs : list Session.input) (s : Session.t) :
  menu_in_step s ->
  exists s', Session.run inputs s = Normal s' /\ menu_in_step s'.
Proof.
  revert s. induction inputs as [|i inputs IH]; intros s Hinv; [simpl; eauto|].
  cbn [Session.run]. destruct (step_total i s Hinv) as [s1 Hs1].
  rewrite Hs1. simpl. apply IH. apply (step_in_step i s s1 Hinv Hs1).
Qed.

(** No sequence of key events and frames makes a frame raise. The menu
    calls its [displayScore] argument only on the game-over screen, and
    [startGame] passes none in the menu state: that call of [undefined] is
    never reached, because the game-over screen is always left before the
    game returns to the menu state. The frames of the running state
    complete as well, so every frame of every session does. *)
Theorem session_never_raises (inputs : list Session.input) :
  exists s, Session.run inputs Session.initial = Normal s /\ menu_in_step s.
Proof.
  apply run_in_step. unfold menu_in_step. cbn. repeat split; discriminate.
Qed.

Lemma step_keeps_pools (i : Session.input) (s s' : Session.t) :
  Session.step i s = Normal s' ->
  pool_ok (Game.Bulletcon (Session.game s))
  /\ pool_ok (Game.enemyProjectileController (Session.game s)) ->
  pool_ok (Game.Bulletcon (Session.game s'))
  /\ pool_ok (Game.enemyProjectileController (Session.game s')).
Proof.
  destruct i as [key|key|random]; cbn [Session.step].
  - destruct (Player.keyDownHandler _ _) as [p h]. intros [= <-]. auto.
  - intros [= <-]. auto.
  - unfold Session.startGame. intros Hstep (Hb & He).
    destruct (Game.gameState (Session.game s)) eqn:Hst.
    + destruct (Menu.draw false _ _) as [[m' w']|] eqn:Hd; [|discriminate Hstep].
      simpl in Hstep.
      destruct (menu_draw_frame _ _ _ _ _ Hd) as ((Hgs & Hg & Hpc & Hbc) & _).
      assert (Hgame : Game.startGame (Menu.hasGameStarted m') false random w'
                      = Normal (Session.game s')).
      { unfold Game.startGame. rewrite Hgs, Hst.
        destruct (Menu.hasGameStarted m'); injection Hstep as <-; reflexivity. }
      apply (pool_ok_startGame _ _ _ _ _
               ltac:(rewrite Hpc; split; [apply Hbc, Hb | exact He]) Hgame).
    + destruct (Game.running_frame random _) as [w'|] eqn:Hf; [|discriminate Hstep].
      simpl in Hstep. injection Hstep as <-. cbn [Session.game].
      apply (pool_ok_running_frame random _ _ (conj Hb He) Hf).
    + destruct (Menu.draw true _ _) as [[m' w']|] eqn:Hd; [|discriminate Hstep].
      simpl in Hstep.
      destruct (menu_draw_frame _ _ _ _ _ Hd) as ((Hgs & Hg & Hpc & Hbc) & _).
      assert (Hgame : Game.startGame false (Menu.toPlayAgain m') random w'
                      = Normal (Session.game s')).
      { unfold Game.startGame. rewrite Hgs, Hst.
        destruct (Menu.toPlayAgain m'); injection Hstep as <-; reflexivity. }
      apply (pool_ok_startGame _ _ _ _ _
               ltac:(rewrite Hpc; split; [apply Hbc, Hb | exact He]) Hgame).
Qed.

(** In every state a session reaches, the menu's own frames included (the
    controls screen draws the player and lets it shoot), each of the two
    pools holds distinct bullet objects, all created before the next one
    to come: no bullet is ever in a pool twice, so [indexOf] in [draw] and
    in [destroyBullet] always finds the very bullet it is asked for. *)
Theorem session_keeps_pools_distinct (inputs : list Session.input) (s : Session.t) :
  Session.run inputs Session.initial = Normal s ->
  pool_ok (Game.Bulletcon (Session.game s))
  /\ pool_ok (Game.enemyProjectileController (Session.game s)).
Proof.
  assert (H : forall s0,
             pool_ok (Game.Bulletcon (Session.game s0))
             /\ pool_ok (Game.enemyProjectileController (Session.game s0)) ->
             Session.run inputs s0 = Normal s ->
             pool_ok (Game.Bulletcon (Session.game s))
             /\ pool_ok (Game.enemyProjectileController (Session.game s))).
  { induction inputs as [|i inputs IH]; intros s0 H0 Hrun.
    - injection Hrun as <-. exact H0.
    - cbn [Session.run] in Hrun.
      destruct (Session.step i s0) as [s1|] eqn:Hs1; [|discriminate Hrun].
      simpl in Hrun. apply (IH s1); [|exact Hrun].
      apply (step_keeps_pools i s0 s1 Hs1 H0). }
  apply H. split; apply pool_ok_new.
Qed.

(** Three frames of play with the fire key down: the player's pool holds
    one bullet (the next is due 39 frames later) and the enemies', with no
    delay drawn, the three volleys of the eleven front enemies. *)
Lemma session_keeps_pools_distinct_witness :
  let s := match Session.run three_frames_of_play Session.initial with
           | Normal s => s
           | Throw _ => Session.initial
           end in
  length (BulletControl.bullets (Game.Bulletcon (Session.game s))) = 1%nat
  /\ length (BulletControl.bullets
               (Game.enemyProjectileController (Session.game s))) = 33%nat
  /\ pool_ok (Game.Bulletcon (Session.game s))
  /\ pool_ok (Game.enemyProjectileController (Session.game s)).
Proof.
  intros s. split; [vm_compute; reflexivity|]. split; [vm_compute; reflexivity|].
  apply (session_keeps_pools_distinct three_frames_of_play).
  subst s.
  destruct (Session.run three_frames_of_play Session.initial) as [s|e] eqn:Hrun;
    [reflexivity | vm_compute in Hrun; discriminate Hrun].
Defined.

(** A key event leaves the grid alone and a frame moves it once. *)
Lemma step_marching (i : Session.input) (k : nat) (s s' : Session.t) :
  Session.step i s = Normal s' ->
  (exists n, marching k n (Game.enemyGrid (Session.game s))) ->
  exists n, marching (S k) n (Game.enemyGrid (Session.game s')).
Proof.
  intros Hstep [n Hgrid].
  assert (Hsame : exists n, marching (S k) n (Game.enemyGrid (Session.game s))).
  { exists n. apply (marching_mono k); [lia | exact Hgrid]. }
  destruct i as [key|key|random]; cbn [Session.step] in Hstep.
  - destruct (Player.keyDownHandler _ _) as [p h]. injection Hstep as <-.
    exact Hsame.
  - injection Hstep as <-. exact Hsame.
  - unfold Session.startGame in Hstep.
    destruct (Game.gameState (Session.game s)) eqn:Hst.
    + destruct (Menu.draw false _ _) as [[m' w']|] eqn:Hd; [|discriminate Hstep].
      simpl in Hstep.
      destruct (menu_draw_frame _ _ _ _ _ Hd) as ((_ & Hg & _) & _).
      destruct (Menu.hasGameStarted m'); injection Hstep as <-;
        cbn [Session.game].
      * exists GRID_SIZE.COLUMNS. apply marching_createEnemies.
      * rewrite Hg. exact Hsame.
    + destruct (Game.running_frame random _) as [w'|] eqn:Hf; [|discriminate Hstep].
      simpl in Hstep. injection Hstep as <-. cbn [Session.game].
      apply (marching_running_frame random k _ _ (ex_intro _ n Hgrid) Hf).
    + destruct (Menu.draw true _ _) as [[m' w']|] eqn:Hd; [|discriminate Hstep].
      simpl in Hstep.
      destruct (menu_draw_frame _ _ _ _ _ Hd) as ((_ & Hg & _) & _).
      destruct (Menu.toPlayAgain m'); injection Hstep as <-;
        cbn [Session.game Game.enemyGrid Game.set_scoreboard Game.set_health
             Game.set_gameState]; rewrite Hg; exact Hsame.
Qed.

Lemma run_marching (inputs : list Session.input) (k : nat) (s s' : Session.t) :
  Session.run inputs s = Normal s' ->
  (exists n, marching k n (Game.enemyGrid (Session.game s))) ->
  exists n, marching (k + length inputs) n (Game.enemyGrid (Session.game s')).
Proof.
  revert k s. induction inputs as [|i inputs IH]; intros k s Hrun Hgrid.
  - injection Hrun as <-. rewrite Nat.add_0_r. exact Hgrid.
  - cbn [Session.run] in Hrun.
    destruct (Session.step i s) as [s1|] eqn:Hs1; [|discriminate Hrun].
    simpl in Hrun. cbn [length]. rewrite <- Nat.add_succ_comm.
    apply (IH (S k) s1 Hrun). apply (step_marching i k s s1 Hs1 Hgrid).
Qed.

(** In every state a session reaches the enemy grid is aligned: rows of
    one length, the cells of a column at the very same x, one direction,
    every enemy with the make of a new one. In a session of fewer than
    [long_session] events the grid is moreover in formation, with the
    block of live cells narrower than the corridor between the two bounds,
    and so is the grid that the next frame hands to [move]: the rounding of
    the moves, which [Enemy.move] makes in double arithmetic, cannot widen
    a wave by more than 2^-26 a frame. The last part says where [draw]
    calls [move]. *)
Theorem session_grid_in_formation (inputs : list Session.input) (s : Session.t) :
  Session.run inputs Session.initial = Normal s ->
  (exists n, aligned n (Game.enemyGrid (Session.game s)))
  /\ ((Z.of_nat (length inputs) < long_session)%Z ->
      (exists n, formation n (Game.enemyGrid (Session.game s)))
      /\ (forall g1, handed_to_move (Game.enemyGrid (Session.game s)) = Some g1 ->
            exists n, formation n g1))
  /\ (forall g1 random pc,
        handed_to_move (Game.enemyGrid (Session.game s)) = Some g1 ->
        EnemyGridController.draw random (Game.enemyGrid (Session.game s)) pc
        = (pc' ← EnemyGridController.shoot random (EnemyGridController.move g1) pc;
           Normal (EnemyGridController.move g1, pc'))).
Proof.
  intros Hrun.
  destruct (run_marching inputs 0 Session.initial s Hrun) as [n Hm].
  { exists GRID_SIZE.COLUMNS. apply marching_createEnemies. }
  cbn [Nat.add] in Hm. split; [|split].
  - exists n. apply Hm.
  - intros Hlen. split.
    + exists n. apply (marching_formation (length inputs)); [lia | exact Hm].
    + intros g1 Hg1.
      destruct (marching_handed_to_move _ _ _ _ Hm Hg1) as [m Hm1].
      exists m. apply (marching_formation (S (length inputs))); [lia | exact Hm1].
  - intros g1 random pc Hg1. apply draw_hands_to_move, Hg1.
Qed.

(** After three frames of play the wave has moved three times to the
    right: its first enemy stands three double additions of 0.3 right of
    x = 100, which is not 100.9. *)
Lemma session_grid_in_formation_witness :
  let s := match Session.run three_frames_of_play Session.initial with
           | Normal s => s
           | Throw _ => Session.initial
           end in
  (Enemy.xPosition <$> enemy_at (Game.enemyGrid (Session.game s)) 0 0)
  = Some (Js.add (Js.add (Js.add 100 (Js.round64 (3 # 10))) (Js.round64 (3 # 10)))
            (Js.round64 (3 # 10)))
  /\ (exists n, aligned n (Game.enemyGrid (Session.game s)))
  /\ (exists n, formation n (Game.enemyGrid (Session.game s)))
  /\ (forall g1, handed_to_move (Game.enemyGrid (Session.game s)) = Some g1 ->
        exists n, formation n g1).
Proof.
  intros s. split; [vm_compute; reflexivity|].
  destruct (session_grid_in_formation three_frames_of_play s) as (Hal & Hform & _).
  - subst s.
    destruct (Session.run three_frames_of_play Session.initial) as [s|e] eqn:Hrun;
      [reflexivity | vm_compute in Hrun; discriminate Hrun].
  - split; [exact Hal|]. apply Hform. vm_compute. reflexivity.
Defined.

(** In a session of fewer than [long_session] events every call of [move]
    bounces the wave as a whole and at most once. Whatever grid the next
    frame hands to [move]: when some left-most live cell is at or left of
    the left bound, [move] turns every live cell right and takes it down
    by its vertical step, which is 20; when some right-most live cell is
    at or right of the right bound, every live cell turns left and goes
    down by 20; and when the left check fires, the right check, which is
    evaluated after it, does not. The grid that [draw] returns in that
    frame is [move] of the grid handed over. *)
Theorem session_moves_bounce_once (inputs : list Session.input) (s : Session.t)
    (g1 : EnemyGridController.grid) :
  Session.run inputs Session.initial = Normal s ->
  (Z.of_nat (length inputs) < long_session)%Z ->
  handed_to_move (Game.enemyGrid (Session.game s)) = Some g1 ->
  ((exists e, e ∈ EnemyGridController.findLeftMostEnemies g1
              /\ getLeftEdge e <= PADDING.SIDE) ->
     EnemyGridController.move g1 = map (map (fmap (bounced true))) g1)
  /\ ((exists e, e ∈ EnemyGridController.findRightMostEnemies g1
                 /\ CANVAS.WIDTH - PADDING.SIDE <= getRightEdge e) ->
      EnemyGridController.move g1 = map (map (fmap (bounced false))) g1)
  /\ (EnemyGridController.leftBoundHit
        (EnemyGridController.findLeftMostEnemies g1) = true ->
      EnemyGridController.rightBoundHit
        (EnemyGridController.rightMost_seen_by_second_check g1) = false)
  /\ (forall e, live g1 e -> Enemy.verticalMoveSpeed e = 20)
  /\ (forall random pc,
        EnemyGridController.draw random (Game.enemyGrid (Session.game s)) pc
        = (pc' ← EnemyGridController.shoot random (EnemyGridController.move g1) pc;
           Normal (EnemyGridController.move g1, pc'))).
Proof.
  intros Hrun Hlen Hg1.
  destruct (run_marching inputs 0 Session.initial s Hrun) as [n Hm].
  { exists GRID_SIZE.COLUMNS. apply marching_createEnemies. }
  cbn [Nat.add] in Hm.
  destruct (marching_handed_to_move _ _ _ _ Hm Hg1) as [m Hm1].
  assert (Hf : formation m g1).
  { apply (marching_formation (S (length inputs))); [lia | exact Hm1]. }
  pose proof (formation_fits m g1 Hf) as Hfits.
  split; [|split; [|split; [|split]]].
  - intros Hsome.
    pose proof (first_cell_at_left_bound m g1 Hf Hsome) as Hl.
    rewrite (move_when_left_hit g1 Hfits Hl).
    apply (changeEnemyDirection_bounced m), Hf.
  - intros Hsome.
    pose proof (first_cell_at_right_bound m g1 Hf Hsome) as Hhit.
    destruct (EnemyGridController.leftBoundHit
                (EnemyGridController.findLeftMostEnemies g1)) eqn:Hl.
    + destruct (left_hit_excludes_right g1 Hfits Hl) as [_ Hno].
      rewrite Hno in Hhit. discriminate Hhit.
    + rewrite (move_when_right_hit g1 Hl Hhit).
      apply (changeEnemyDirection_bounced m), Hf.
  - intros Hl. unfold EnemyGridController.rightMost_seen_by_second_check.
    rewrite Hl. apply (left_hit_excludes_right g1 Hfits Hl).
  - intros e He. apply (aligned_stock m g1 (proj1 Hm1) e He).
  - intros random pc. apply draw_hands_to_move, Hg1.
Qed.

(** The 167th frame of play of a game left alone: the game is running,
    the wave it hands to [move] has reached the right bound, and [move]
    turns the whole of it left and takes it down one step. *)
Lemma session_moves_bounce_once_witness :
  exists s g1,
    Session.run frames_to_the_right_bound Session.initial = Normal s
    /\ Game.gameState (Session.game s) = Game.RUNNING
    /\ handed_to_move (Game.enemyGrid (Session.game s)) = Some g1
    /\ EnemyGridController.move g1 = map (map (fmap (bounced false))) g1.
Proof.
  assert (Hhit : match Session.run frames_to_the_right_bound Session.initial with
                 | Normal s =>
                     match Game.gameState (Session.game s),
                           handed_to_move (Game.enemyGrid (Session.game s)) with
                     | Game.RUNNING, Some g1 =>
                         EnemyGridController.rightBoundHit
                           (EnemyGridController.findRightMostEnemies g1)
                     | _, _ => false
                     end
                 | Throw _ => false
                 end = true) by (vm_compute; reflexivity).
  destruct (Session.run frames_to_the_right_bound Session.initial)
    as [s|err] eqn:Hrun; [|discriminate Hhit].
  destruct (Game.gameState (Session.game s)) eqn:Hst; try discriminate Hhit.
  destruct (handed_to_move (Game.enemyGrid (Session.game s))) as [g1|] eqn:Hg1;
    [|discriminate Hhit].
  exists s, g1. split; [reflexivity|]. split; [exact Hst|]. split; [exact Hg1|].
  destruct (session_moves_bounce_once frames_to_the_right_bound s g1 Hrun)
    as (_ & Hright & _).
  - vm_compute. reflexivity.
  - exact Hg1.
  - apply Hright. apply rightBoundHit_true in Hhit as (e & He & Hedge).
    exists e. split; [apply (first_elem _ _ He) | exact Hedge].
Defined.

Lemma step_game_over_final (i : Session.input) (s s' : Session.t) :
  Game.gameState (Session.game s) = Game.GAME_OVER ->
  Menu.retry (Session.menu s) = false ->
  Menu.selection (Session.menu s) <> Menu.GAME_OVER ->
  Session.step i s = Normal s' ->
  Game.gameState (Session.game s') = Game.GAME_OVER
  /\ Menu.retry (Session.menu s') = false
  /\ Menu.selection (Session.menu s') <> Menu.GAME_OVER.
Proof.
  intros Hst Hrt Hsel. destruct i as [key|key|random]; cbn [Session.step].
  - destruct (Player.keyDownHandler _ _) as [p h]. intros [= <-].
    cbn [Session.game Session.menu Game.gameState Game.set_health Game.set_player].
    destruct (keydownHandler_cases key (Session.menu s)) as [_ Hother].
    destruct (Hother Hsel) as (Hs' & Hrt' & _). rewrite Hrt'. auto.
  - intros [= <-]. auto.
  - unfold Session.startGame. rewrite Hst.
    destruct (Menu.draw true _ _) as [[m' w']|] eqn:Hd; [|discriminate].
    simpl.
    destruct (menu_draw_frame _ _ _ _ _ Hd)
      as ((Hgs & _) & Hsel' & Hms & Hplay & Hother).
    assert (Hrt' : Menu.retry m' = false).
    { destruct (screen_play_dec (Menu.menuState (Session.menu s))) as [E|E].
      - apply Hplay, E.
      - rewrite (Hother E). exact Hrt. }
    unfold Menu.toPlayAgain. rewrite Hrt'. intros [= <-].
    cbn [Session.game Session.menu]. rewrite Hgs, Hsel'. auto.
Qed.

(** A game-over state in which no retry is pending and the cursor has
    left the game-over option is final: whatever keys are pressed and
    however many frames pass, the game stays in GAME_OVER and no retry is
    ever recorded. Such a state is reached when Enter goes down twice on
    the game-over screen between two frames: the first press records the
    retry and moves the cursor to Play Game, the second opens the Play
    screen, whose next draw cancels the retry. *)
Theorem game_over_without_retry_is_final (inputs : list Session.input)
    (s : Session.t) :
  Game.gameState (Session.game s) = Game.GAME_OVER ->
  Menu.retry (Session.menu s) = false ->
  Menu.selection (Session.menu s) <> Menu.GAME_OVER ->
  exists s', Session.run inputs s = Normal s'
             /\ Game.gameState (Session.game s') = Game.GAME_OVER
             /\ Menu.retry (Session.menu s') = false.
Proof.
  revert s. induction inputs as [|i inputs IH]; intros s Hst Hrt Hsel.
  - exists s. auto.
  - cbn [Session.run].
    destruct (step_total i s) as [s1 Hs1].
    { unfold menu_in_step. cbv zeta. rewrite Hst, Hrt. discriminate. }
    rewrite Hs1. simpl.
    destruct (step_game_over_final i s s1 Hst Hrt Hsel Hs1) as (H1 & H2 & H3).
    apply IH; assumption.
Qed.

Lemma game_over_without_retry_is_final_witness :
  let s := match Session.run enter_twice_at_game_over Session.initial with
           | Normal s => s
           | Throw _ => Session.initial
           end in
  exists s', Session.run [Session.KeyDown "Escape"; Session.KeyDown "Enter";
                          Session.Tick (fun _ => 0%Z)] s = Normal s'
             /\ Game.gameState (Session.game s') = Game.GAME_OVER
             /\ Menu.retry (Session.menu s') = false.
Proof.
  intros s. apply game_over_without_retry_is_final.
  - vm_compute. reflexivity.
  - vm_compute. reflexivity.
  - vm_compute. discriminate.
Defined.

(** The cursor of the main menu. Arrow down goes from Play Game to How To
    Play to Controls and back to Play Game, arrow up the other way round,
    so each undoes the other and three of a kind come back to the start;
    on the game-over screen the arrows do nothing. Enter opens the screen
    of the selected option, and on the game-over screen records the retry
    and puts the cursor back on Play Game; Escape always returns to the
    main menu. *)
Theorem menu_cursor_cycles (m : Menu.t) :
  let down := Menu.keydownHandler "ArrowDown" in
  let up := Menu.keydownHandler "ArrowUp" in
  (Menu.selection m <> Menu.GAME_OVER ->
   up (down m) = m /\ down (up m) = m
   /\ down (down (down m)) = m /\ up (up (up m)) = m
   /\ Menu.selection (down m) <> Menu.selection m
   /\ Menu.selection (down m) <> Menu.GAME_OVER
   /\ Menu.selection (up m) <> Menu.GAME_OVER
   /\ Menu.keydownHandler "Enter" m
      = Menu.set_menuState (Menu.Screen (Menu.selection m)) m)
  /\ (Menu.selection m = Menu.GAME_OVER ->
      up m = m /\ down m = m
      /\ Menu.keydownHandler "Enter" m = Menu.mk Menu.MainMenu Menu.PLAY false true)
  /\ Menu.keydownHandler "Escape" m = Menu.set_menuState Menu.MainMenu m.
Proof.
  cbv zeta. destruct m as [st sel pg rt]. split; [|split].
  - cbn [Menu.selection]. intros Hsel.
    destruct sel; try congruence; cbn; repeat split; discriminate.
  - cbn [Menu.selection]. intros ->. cbn. repeat split.
  - reflexivity.
Qed.

End MenuAndGame.

(* ===================================================================== *)
(** * The menu: wrapping the instructions *)
(* ===================================================================== *)

Section WordWrap.

Import Stdlib.Strings.Ascii.

Lemma append_assoc (a b c : string) : (a +:+ b) +:+ c = a +:+ (b +:+ c).
Proof.
  induction a as [|x a IH]; [reflexivity|].
  change (String x ((a +:+ b) +:+ c) = String x (a +:+ (b +:+ c))).
  rewrite IH. reflexivity.
Qed.

Lemma split_nonempty (text : string) : Menu.split text <> [].
Proof.
  destruct text as [|c rest]; [discriminate|]. simpl.
  destruct (Ascii.eqb c " "%char); [discriminate|].
  destruct (Menu.split rest); discriminate.
Qed.

Lemma concat_cons (sep word : string) (words : list string) :
  words <> [] ->
  String.concat sep (word :: words) = word +:+ sep +:+ String.concat sep words.
Proof. destruct words; [congruence | reflexivity]. Qed.

(** Joining the pieces with single spaces gives the text back. *)
Lemma concat_split (text : string) :
  String.concat " " (Menu.split text) = text.
Proof.
  induction text as [|c rest IH]; [reflexivity|].
  cbn [Menu.split]. destruct (Ascii.eqb_spec c " "%char) as [->|Hc].
  - rewrite concat_cons by apply split_nonempty. rewrite IH. reflexivity.
  - pose proof (split_nonempty rest) as Hne.
    destruct (Menu.split rest) as [|word words]; [congruence|].
    destruct words as [|word' words].
    + simpl in *. rewrite <- IH. reflexivity.
    + rewrite concat_cons by discriminate.
      rewrite concat_cons in IH by discriminate.
      rewrite <- IH. reflexivity.
Qed.

Lemma wrap_nonempty (measure : string -> Q) (cutoff : Q) (line : string)
    (words : list string) :
  Menu.wrap measure cutoff line words <> [].
Proof.
  revert line. induction words as [|word words IH]; intros line; [discriminate|].
  simpl. destruct (Js.ltb _ _); [apply IH | discriminate].
Qed.

Lemma concat_wrap (measure : string -> Q) (cutoff : Q) (line : string)
    (words : list string) :
  String.concat " " (Menu.wrap measure cutoff line words)
  = String.concat " " (line :: words).
Proof.
  revert line. induction words as [|word words IH]; intros line; [reflexivity|].
  cbn [Menu.wrap]. destruct (Js.ltb _ _).
  - rewrite IH. destruct words as [|word' words]; [reflexivity|].
    rewrite !concat_cons by discriminate. rewrite !append_assoc. reflexivity.
  - rewrite concat_cons by apply wrap_nonempty. rewrite IH. reflexivity.
Qed.

Lemma wrap_lines (measure : string -> Q) (cutoff : Q) (line : string)
    (words : list string) :
  Forall (fun l => l = line \/ In l words \/ measure l < cutoff)
         (Menu.wrap measure cutoff line words).
Proof.
  revert line. induction words as [|word words IH]; intros line.
  - repeat constructor.
  - cbn [Menu.wrap]. destruct (Js.ltb _ _) eqn:Hfit.
    + apply ltb_true in Hfit. eapply Forall_impl; [apply IH|].
      intros l [-> | [Hl | Hl]]; simpl; auto.
    + constructor; [auto|]. eapply Forall_impl; [apply IH|].
      intros l [-> | [Hl | Hl]]; simpl; auto.
Qed.

(** [wordWrap] loses nothing of the text and keeps its order: the lines,
    joined by single spaces, are the text again, whatever widths the canvas
    reports. There is at least one line, and every line is either a single
    word of the text or measures less than the cut-off, 540 pixels. *)
Theorem wordWrap_keeps_the_text (measure : string -> Q) (text : string) :
  String.concat " " (Menu.wordWrap measure text) = text
  /\ Menu.wordWrap measure text <> []
  /\ Forall (fun line => In line (Menu.split text) \/ measure line < 540)
       (Menu.wordWrap measure text).
Proof.
  unfold Menu.wordWrap. cbv zeta.
  pose proof (split_nonempty text) as Hne.
  pose proof (concat_split text) as Hsplit.
  destruct (Menu.split text) as [|first words]; [congruence|].
  split; [|split].
  - rewrite concat_wrap. exact Hsplit.
  - apply wrap_nonempty.
  - eapply Forall_impl; [apply wrap_lines|].
    intros l [-> | [Hl | Hl]]; simpl; auto.
Qed.

End WordWrap.

(* ===================================================================== *)
(** * Enemy grid: a tick creates nothing *)
(* ===================================================================== *)

Section NoGrowth.

Import Js EnemyGridController Spec.

Lemma live_cells_map (f : Enemy.t -> Enemy.t) (g : grid) :
  live_cells (map (map (fmap f)) g) = live_cells g.
Proof.
  unfold live_cells. induction g as [|row g IH]; [reflexivity|].
  cbn [map foldr]. rewrite IH. f_equal.
  induction row as [|c row IHr]; [reflexivity|].
  cbn [map]. destruct c as [e|].
  - rewrite !(filter_cons_True (fun c => alive c = true)) by reflexivity.
    simpl. rewrite IHr. reflexivity.
  - rewrite !(filter_cons_False (fun c => alive c = true)) by discriminate.
    exact IHr.
Qed.

Lemma live_cells_snoc (g : grid) (row : list (option Enemy.t)) :
  live_cells (g ++ [row])
  = (live_cells g + length (filter (fun c => alive c = true) row))%nat.
Proof.
  unfold live_cells. induction g as [|r g IH]; [simpl; lia|].
  cbn [app foldr]. rewrite IH. lia.
Qed.

Lemma live_row_splice1 (k : nat) (row : list (option Enemy.t)) :
  (length (filter (fun c => alive c = true) (Js.splice1 k row))
   <= length (filter (fun c => alive c = true) row))%nat.
Proof.
  unfold Js.splice1. revert k. induction row as [|c row IH]; intros k; [reflexivity|].
  destruct k as [|k]; cbn [delete list_delete].
  - destruct (alive c) eqn:Hc.
    + rewrite (filter_cons_True (fun c => alive c = true) c) by exact Hc.
      cbn [length]. apply Nat.le_succ_diag_r.
    + rewrite (filter_cons_False (fun c => alive c = true) c)
        by (rewrite Hc; discriminate).
      reflexivity.
  - specialize (IH k). destruct (alive c) eqn:Hc.
    + rewrite !(filter_cons_True (fun c => alive c = true) c) by exact Hc.
      cbn [length]. apply le_n_S, IH.
    + rewrite !(filter_cons_False (fun c => alive c = true) c)
        by (rewrite Hc; discriminate).
      exact IH.
Qed.

Lemma live_cells_remove_column (k : nat) (g : grid) :
  (live_cells (remove_column k g) <= live_cells g)%nat.
Proof.
  unfold live_cells, remove_column. induction g as [|row g IH]; [reflexivity|].
  cbn [map foldr].
  pose proof (live_row_splice1 k row). lia.
Qed.

Lemma live_cells_clear_columns_from (tr : list tracker_entry) (k : nat)
    (st : bool * grid) :
  (live_cells (snd (clear_columns_from tr k st)) <= live_cells (snd st))%nat.
Proof.
  revert k st. induction tr as [|e tr IH]; intros k st; [reflexivity|].
  cbn [clear_columns_from]. etransitivity; [apply IH|].
  destruct (truthy e); [reflexivity|]. apply live_cells_remove_column.
Qed.

Lemma live_cells_move (g : grid) : live_cells (move g) = live_cells g.
Proof.
  unfold move, changeEnemyDirection.
  destruct (rightBoundHit _), (leftBoundHit _);
    rewrite ?live_cells_map; reflexivity.
Qed.

Lemma rectangular_map (n : nat) (f : Enemy.t -> Enemy.t) (g : grid) :
  rectangular n g -> rectangular n (map (map (fmap f)) g).
Proof.
  unfold rectangular. intros Hrect. apply Forall_map.
  eapply Forall_impl; [exact Hrect|]. intros row Hrow. simpl.
  rewrite length_map. exact Hrow.
Qed.

Lemma rectangular_move (n : nat) (g : grid) :
  rectangular n g -> rectangular n (move g).
Proof.
  intros Hrect. unfold move, changeEnemyDirection.
  destruct (rightBoundHit _), (leftBoundHit _);
    repeat apply rectangular_map; exact Hrect.
Qed.

(** A tick of the grid creates nothing: the grid it leaves has no more
    rows, no wider rows and no more live enemies than the grid it was
    given, whatever the compaction does. *)
Theorem draw_never_grows (random : nat -> Z) (g g' : grid)
    (pc pc' : BulletControl.t) :
  draw random g pc = Normal (g', pc') ->
  (length g' <= length g)%nat
  /\ (live_cells g' <= live_cells g)%nat
  /\ (forall n, rectangular n g ->
        exists m, (m <= n)%nat /\ rectangular m g').
Proof.
  intros Hdraw. unfold draw in Hdraw.
  destruct g as [|bottomRow rows _] using rev_ind; [discriminate Hdraw|].
  unfold draw_enemies in Hdraw. rewrite map_app in Hdraw. cbn [map] in Hdraw.
  rewrite clearEnemyGridRows_snoc, existsb_alive_fmap in Hdraw.
  set (rows' := map (map (fmap Enemy.draw)) rows) in *.
  set (bottom' := map (fmap Enemy.draw) bottomRow) in *.
  assert (Hstart : forall g0,
            g0 = rows' ++ [bottom'] \/ g0 = rows' ->
            (length g0 <= length (rows ++ [bottomRow]))%nat
            /\ (live_cells g0 <= live_cells (rows ++ [bottomRow]))%nat
            /\ (forall n, rectangular n (rows ++ [bottomRow]) -> rectangular n g0)).
  { intros g0 Hg0.
    assert (Hall : rows' ++ [bottom'] = map (map (fmap Enemy.draw)) (rows ++ [bottomRow]))
      by (rewrite map_app; reflexivity).
    destruct Hg0 as [-> | ->].
    - rewrite Hall, length_map, live_cells_map.
      split; [lia|]. split; [lia|]. intros n. apply rectangular_map.
    - subst rows'. rewrite length_map, live_cells_map, length_app, live_cells_snoc.
      split; [simpl; lia|]. split; [lia|].
      intros n Hrect. apply rectangular_map.
      apply Forall_app in Hrect as [Hrect _]. exact Hrect. }
  assert (Hrest : forall g0,
            (if Nat.eqb (anyEnemiesAlive (snd (clearEnemyGridColumns g0))) 0
             then Normal (snd (clearEnemyGridColumns g0), pc)
             else pc0 ← shoot random (move (snd (clearEnemyGridColumns g0))) pc;
                  Normal (move (snd (clearEnemyGridColumns g0)), pc0))
            = Normal (g', pc') ->
            (length g' <= length g0)%nat
            /\ (live_cells g' <= live_cells g0)%nat
            /\ (forall n, rectangular n g0 ->
                  exists m, (m <= n)%nat /\ rectangular m g')).
  { intros g0 H.
    pose proof (clearEnemyGridColumns_length g0) as Hlen.
    pose proof (live_cells_clear_columns_from (count_columns g0) 0 (false, g0)) as Hlive.
    fold (clearEnemyGridColumns g0) in Hlive. cbn [snd] in Hlive.
    assert (Hrect : forall n, rectangular n g0 ->
              exists m, (m <= n)%nat
                        /\ rectangular m (snd (clearEnemyGridColumns g0))).
    { intros n Hn. apply (clear_columns_from_rectangular _ 0 n (false, g0)), Hn. }
    set (g1 := snd (clearEnemyGridColumns g0)) in *.
    destruct (Nat.eqb (anyEnemiesAlive g1) 0).
    - injection H as <- _. split; [lia|]. split; [lia | exact Hrect].
    - destruct (shoot random (move g1) pc) as [pc0|]; [|discriminate H].
      simpl in H. injection H as <- _.
      rewrite move_length, live_cells_move. split; [lia|]. split; [lia|].
      intros n Hn. destruct (Hrect n Hn) as (m & Hm & Hr).
      exists m. split; [exact Hm | apply rectangular_move, Hr]. }
  destruct (existsb alive bottomRow); cbn [mbind] in Hdraw; simpl in Hdraw.
  - destruct (Hrest _ Hdraw) as (H1 & H2 & H3).
    destruct (Hstart (rows' ++ [bottom'])) as (K1 & K2 & K3); [left; reflexivity|].
    split; [lia|]. split; [lia|]. intros n Hn. apply H3, K3, Hn.
  - destruct (Hrest _ Hdraw) as (H1 & H2 & H3).
    destruct (Hstart rows') as (K1 & K2 & K3); [right; reflexivity|].
    split; [lia|]. split; [lia|]. intros n Hn. apply H3, K3, Hn.
Qed.

Lemma draw_never_grows_witness :
  exists g' pc',
    draw (fun _ => 7%Z) createEnemies (BulletControl.new CANVAS_object)
    = Normal (g', pc')
    /\ (length g' <= GRID_SIZE.ROWS)%nat.
Proof.
  destruct (draw (fun _ => 7%Z) createEnemies (BulletControl.new CANVAS_object))
    as [[g' pc']|] eqn:Hdraw; [|vm_compute in Hdraw; discriminate Hdraw].
  exists g', pc'. split; [reflexivity|].
  destruct (draw_never_grows _ _ _ _ _ Hdraw) as (Hlen & _).
  exact Hlen.
Defined.

End NoGrowth.

(* ===================================================================== *)
(** * Scoreboard: the high score *)
(* ===================================================================== *)

Section HighScore.

Import Js Spec.

Lemma drawScoreboard_highscore (sb : Scoreboard.t) (health : Lives.t) :
  Scoreboard.highscore (fst (Scoreboard.drawScoreboard (sb, health)))
  = Z.max (Scoreboard.highscore sb) (Scoreboard.score sb).
Proof.
  unfold Scoreboard.drawScoreboard, Scoreboard.addExtra, Scoreboard.trackhighscore.
  destruct (Z.ltb_spec (Scoreboard.highscore sb) (Scoreboard.score sb));
    cbn [Scoreboard.scoreStorage];
    destruct (Scoreboard.scoreStorage sb =? 10000)%Z;
    cbn [fst Scoreboard.highscore]; lia.
Qed.

Lemma addToScore_iter_highscore (n : nat) (sb : Scoreboard.t) :
  Scoreboard.highscore (Nat.iter n (Scoreboard.addToScore 250) sb)
  = Scoreboard.highscore sb.
Proof.
  induction n as [|n IH]; [reflexivity|]. rewrite Nat.iter_succ. exact IH.
Qed.

Lemma checkForCollisions_highscore (w : Game.t) :
  Scoreboard.highscore (Game.scoreboard (Game.checkForCollisions w))
  = Scoreboard.highscore (Game.scoreboard w).
Proof.
  unfold Game.checkForCollisions, Game.searchForCollisions.
  apply (forEach_preserves _ _
           (fun t => Scoreboard.highscore (Game.scoreboard t)
                     = Scoreboard.highscore (Game.scoreboard w))).
  - apply (forEach_preserves _ _
             (fun t => Scoreboard.highscore (Game.scoreboard t)
                       = Scoreboard.highscore (Game.scoreboard w)));
      [reflexivity|].
    intros p _ t Ht. unfold Game.playerCollisionHandler.
    destruct (Game.collisionDetected (Game.player t) p); exact Ht.
  - intros p _ t Ht. rewrite enemyCollisionHandler_scan. unfold after_hits.
    cbn [Game.scoreboard]. rewrite addToScore_iter_highscore. exact Ht.
Qed.

Lemma running_frame_highscore (random : nat -> Z) (w w' : Game.t) :
  Game.running_frame random w = Normal w' ->
  Scoreboard.highscore (Game.scoreboard w')
  = Z.max (Scoreboard.highscore (Game.scoreboard w))
          (Scoreboard.score (Game.scoreboard w)).
Proof.
  intros Hframe. unfold Game.running_frame in Hframe.
  assert (Hui : Scoreboard.highscore (Game.scoreboard (Game.drawGameUiComponents w))
                = Z.max (Scoreboard.highscore (Game.scoreboard w))
                        (Scoreboard.score (Game.scoreboard w))).
  { unfold Game.drawGameUiComponents.
    rewrite <- drawScoreboard_highscore with (health := Game.health w).
    destruct (Scoreboard.drawScoreboard _) as [sb h]. reflexivity. }
  rewrite <- Hui. set (w1 := Game.drawGameUiComponents w) in *.
  unfold Player.drawPlayer in Hframe.
  destruct (Nat.eqb _ 0).
  - injection Hframe as <-. reflexivity.
  - destruct (EnemyGridController.draw random _ _) as [[g1 pc1]|];
      [|discriminate Hframe].
    simpl in Hframe.
    match type of Hframe with
    | context [Game.checkHealth (Game.checkForCollisions ?s)] =>
        pose proof (checkForCollisions_highscore s) as Hcol;
        set (w2 := Game.checkForCollisions s) in *
    end.
    cbn in Hcol.
    assert (Hh : Game.scoreboard (Game.checkHealth w2) = Game.scoreboard w2).
    { unfold Game.checkHealth.
      destruct (Lives.getCurrenthp (Game.health w2) =? 0)%Z; reflexivity. }
    destruct (EnemyGridController.checkIfEnemyMovesPastPlayer _) as [past|];
      [|discriminate Hframe].
    simpl in Hframe. injection Hframe as <-.
    destruct past; cbn [Game.scoreboard Game.set_gameState]; rewrite Hh; exact Hcol.
Qed.

Lemma menu_draw_highscore (displayScore : bool) (m m' : Menu.t) (w w' : Game.t) :
  Menu.draw displayScore m w = Normal (m', w') ->
  (Scoreboard.highscore (Game.scoreboard w)
   <= Scoreboard.highscore (Game.scoreboard w'))%Z.
Proof.
  unfold Menu.draw, Player.drawPlayer.
  destruct (Menu.menuState m) as [|[| | |]]; try (intros [= <- <-]; reflexivity).
  destruct displayScore; [|discriminate].
  pose proof (drawScoreboard_highscore (Game.scoreboard w) (Game.health w)) as Hd.
  destruct (Scoreboard.drawScoreboard _) as [sb h]. intros [= <- <-].
  cbn [fst Game.scoreboard Game.set_health Game.set_scoreboard] in *. lia.
Qed.

Lemma step_highscore (i : Session.input) (s s' : Session.t) :
  Session.step i s = Normal s' ->
  (Scoreboard.highscore (Game.scoreboard (Session.game s))
   <= Scoreboard.highscore (Game.scoreboard (Session.game s')))%Z.
Proof.
  destruct i as [key|key|random]; cbn [Session.step].
  - destruct (Player.keyDownHandler _ _) as [p h]. intros [= <-]. reflexivity.
  - intros [= <-]. reflexivity.
  - unfold Session.startGame.
    destruct (Game.gameState (Session.game s)).
    + destruct (Menu.draw false _ _) as [[m' w']|] eqn:Hd; [|discriminate].
      pose proof (menu_draw_highscore _ _ _ _ _ Hd) as Hle. simpl.
      destruct (Menu.hasGameStarted m'); intros [= <-]; exact Hle.
    + destruct (Game.running_frame random _) as [w'|] eqn:Hf; [|discriminate].
      simpl. intros [= <-]. cbn [Session.game].
      rewrite (running_frame_highscore random _ _ Hf). lia.
    + destruct (Menu.draw true _ _) as [[m' w']|] eqn:Hd; [|discriminate].
      pose proof (menu_draw_highscore _ _ _ _ _ Hd) as Hle. simpl.
      destruct (Menu.toPlayAgain m'); intros [= <-]; exact Hle.
Qed.

(** The high score. Every frame of the running state records the score
    the frame started with: afterwards the high score is the larger of the
    two. And over a whole session, game over, play again and the reset of
    the score included, the high score never goes down. *)
Theorem highscore_never_decreases :
  (forall random w w',
     Game.running_frame random w = Normal w' ->
     Scoreboard.highscore (Game.scoreboard w')
     = Z.max (Scoreboard.highscore (Game.scoreboard w))
             (Scoreboard.score (Game.scoreboard w)))
  /\ (forall inputs s s',
        Session.run inputs s = Normal s' ->
        (Scoreboard.highscore (Game.scoreboard (Session.game s))
         <= Scoreboard.highscore (Game.scoreboard (Session.game s')))%Z).
Proof.
  split; [apply running_frame_highscore|].
  intros inputs. induction inputs as [|i inputs IH]; intros s s' Hrun.
  - injection Hrun as <-. reflexivity.
  - cbn [Session.run] in Hrun.
    destruct (Session.step i s) as [s1|] eqn:Hs1; [|discriminate Hrun].
    simpl in Hrun. pose proof (step_highscore i s s1 Hs1).
    pose proof (IH s1 s' Hrun). lia.
Qed.

End HighScore.
